(** * The pensieve record reader (record_reader.cpp), embedded and verified

    This development embeds [pensieve::api::RecordReader] as written in
    [src/bloomberg/pensieve/_pensieve/record_reader.cpp]: the header check,
    the per-record parsers, the decode loop [nextAllocationRecord] and the
    two stack walks.  C++ exceptions, assertions and unchecked vector
    accesses are explicit outcomes of a small state-and-error monad over the
    reader object; the byte stream is a list of bytes consumed front to back.

    The struct layouts of [records.h], the [Source], [FrameTree],
    [FrameCollection] and [SymbolResolver] classes are declared in headers
    that are not part of the sources at hand.  The layouts are taken as a
    parameter ([Layout]); the collaborating classes are modelled from their
    specification, each one marked as such. *)

From Stdlib Require Import ZArith NArith List Lia.
From Stdlib.Strings Require Import Byte String.
From stdpp Require Import base option list gmap.

Open Scope N_scope.

#[global] Instance byte_eq_decision : EqDecision byte := Byte.byte_eq_dec.

(** ** Outcomes of running C++ code *)

(** The exception classes the reader throws or lets through. *)
Inductive exn : Type :=
| IoError                                  (* io::IoError: the Source ran dry *)
| ios_failure (what : string)              (* std::ios_base::failure *)
| runtime_error (what : string)            (* std::runtime_error *)
| out_of_range                             (* std::out_of_range, unordered_map::at *)
| length_error.                            (* std::length_error, std::vector *)

(** A call returns, throws, trips an [assert] (the process aborts: nothing
    can catch it), or does something without defined behaviour: it indexes
    a vector outside its bounds or pops an empty one. *)
Inductive outcome (A : Type) : Type :=
| Ret (a : A)
| Throw (e : exn)
| AssertFail
| Undefined.
Arguments Ret {A} a.
Arguments Throw {A} e.
Arguments AssertFail {A}.
Arguments Undefined {A}.

(** ** Data model (records.h) *)

Inductive RecordType : Type :=
| ALLOCATION | FRAME_INDEX | FRAME | NATIVE_TRACE_INDEX
| MEMORY_MAP_START | SEGMENT_HEADER | SEGMENT.

Inductive FrameAction : Type := PUSH | POP.

#[global] Instance RecordType_eq_dec : EqDecision RecordType.
Proof. solve_decision. Defined.

(** [action] is [None] for a stored value that is neither enumerator: the
    [switch] of [parseFrame] has no [default] and falls through. *)
Module FrameSeqEntry.
Record t : Type := mk { frame_id : N; tid : N; action : option FrameAction }.
End FrameSeqEntry.

(** (function name, file name, caller line, own line), in the order of the
    braced initialiser in [correctAllocationFrame]. *)
Module Frame.
Record t : Type :=
  mk { function_name : list byte; filename : list byte;
       parent_lineno : Z; lineno : Z }.
#[global] Instance eq_dec : EqDecision t.
Proof. solve_decision. Defined.
End Frame.

(** Modelled from the spec: the fields of [AllocationRecord] (thread id,
    line hint, and the payload address, size, allocator class, native-trace
    link); the reader itself only looks at [tid] and [py_lineno]. *)
Module AllocationRecord.
Record t : Type :=
  mk { tid : N; address : N; size : N; allocator : N;
       py_lineno : Z; native_frame_id : N }.
End AllocationRecord.

Module Allocation.
Record t : Type :=
  mk { record : AllocationRecord.t; frame_index : N;
       native_segment_generation : N }.
End Allocation.

(** (instruction pointer, 1-based link to the caller's entry, 0 = root). *)
Module UnresolvedNativeFrame.
Record t : Type := mk { ip : N; index : N }.
End UnresolvedNativeFrame.

(** Modelled from the spec: a [Segment] is a loaded code region given by
    its base address and size (the file path travels in the enclosing
    SEGMENT_HEADER record).  [zero] is the value-initialised [Segment{}]. *)
Module Segment.
Record t : Type := mk { vaddr : N; memsz : N }.
Definition zero : t := mk 0 0.
End Segment.

Module HeaderRecord.
Record t : Type :=
  mk { magic : list byte; version : Z; native_traces : bool;
       stats : list byte; command_line : list byte }.
Definition empty : t := mk [] 0%Z false [] [].
Definition with_magic (m : list byte) (h : t) : t :=
  mk m (version h) (native_traces h) (stats h) (command_line h).
Definition with_version (v : Z) (h : t) : t :=
  mk (magic h) v (native_traces h) (stats h) (command_line h).
Definition with_native_traces (b : bool) (h : t) : t :=
  mk (magic h) (version h) b (stats h) (command_line h).
Definition with_stats (s : list byte) (h : t) : t :=
  mk (magic h) (version h) (native_traces h) s (command_line h).
Definition with_command_line (c : list byte) (h : t) : t :=
  mk (magic h) (version h) (native_traces h) (stats h) c.
End HeaderRecord.

(** ** The wire layout (a parameter)

    Every [d_input->read(reinterpret_cast<char*>(&x), sizeof(x))] copies
    [sizeof(x)] raw bytes into [x].  What those bytes mean is fixed by the
    declarations of [records.h] and the platform; a [wire A] packages the
    size of a type with the value its bytes denote. *)
Record wire (A : Type) : Type := Wire { sizeof : nat; decode : list byte → A }.
Arguments Wire {A} sizeof decode.
Arguments sizeof {A} w.
Arguments decode {A} w bs.

Class Layout : Type := {
  MAGIC : list byte;                       (* sizeof(MAGIC) = length MAGIC *)
  CURRENT_HEADER_VERSION : Z;
  version_wire : wire Z;                   (* header.version *)
  native_traces_wire : wire bool;          (* header.native_traces *)
  stats_wire : wire (list byte);           (* header.stats, an opaque blob *)
  RecordType_wire : wire (option RecordType);  (* None: no enumerator *)
  FrameSeqEntry_wire : wire FrameSeqEntry.t;
  frame_id_wire : wire N;                  (* pyframe_val.first *)
  parent_lineno_wire : wire Z;             (* Frame::parent_lineno *)
  UnresolvedNativeFrame_wire : wire UnresolvedNativeFrame.t;
  AllocationRecord_wire : wire AllocationRecord.t;
  size_t_wire : wire N;
  uintptr_t_wire : wire N;
  Segment_wire : wire Segment.t;
  sizeof_RecordType_pos : (0 < sizeof RecordType_wire)%nat;
}.

(** ** The build (a parameter)

    [assert] is a macro: with [NDEBUG] defined it expands to nothing and
    its condition is not evaluated.  The constructor [std::vector<T>(n)]
    throws [std::length_error] for an [n] above [max_size()], a constant of
    the standard library in use, and so does [emplace_back] on a vector
    that has [max_size()] elements.  The bound is modelled for the vector
    of segments, whose size is set by a count read from the stream; the
    stacks and the chain table grow by one element for each record read
    and are taken, like the host allocator, not to give out. *)
Class Build : Type := {
  NDEBUG : bool;
  Segment_vector_max_size : N;             (* std::vector<Segment>::max_size() *)
}.

(** ** Collaborating classes *)

(** Modelled from the spec: the ByteSource boundary, a sequential reader
    with fixed-size reads, delimiter-terminated string reads and an
    end-of-stream error.  The source is the list of bytes not yet consumed.
    Where a read that raises the error leaves the source is not specified:
    it has consumed [consumed s] of the bytes [s] that were left, whatever
    [consumed] is. *)
Module Source.
Definition t : Type := list byte.

Definition read (consumed : t → nat) (n : nat) (s : t) : option (list byte) * t :=
  if decide (n ≤ length s)%nat then (Some (take n s), drop n s)
  else (None, drop (consumed s) s).

Fixpoint split_at (delimiter : byte) (s : t) : option (list byte * t) :=
  match s with
  | [] => None
  | b :: s' =>
      if decide (b = delimiter) then Some ([], s')
      else match split_at delimiter s' with
           | Some (line, rest) => Some (b :: line, rest)
           | None => None
           end
  end.

Definition getline (consumed : t → nat) (delimiter : byte) (s : t)
  : option (list byte) * t :=
  match split_at delimiter s with
  | Some (line, rest) => (Some line, rest)
  | None => (None, drop (consumed s) s)
  end.
End Source.

(** Modelled from the spec: the StackDedupTree (class [FrameTree]), a flat
    array of (frame_id, parent_index) nodes whose slot 0 is the reserved
    root.  [getTraceIndex] walks a stack from the bottom, following the
    child link for each frame or appending a node for it; [nextNode] is the
    array lookup. *)
Module FrameTree.
Record Node : Type := mkNode { frame_id : N; parent_index : N }.
Definition t : Type := list Node.
Definition empty : t := [mkNode 0 0].

Definition is_child (parent frame : N) (n : Node) : bool :=
  bool_decide (parent_index n = parent) && bool_decide (frame_id n = frame).

(* index (1-based in the array) of the child of [parent] labelled [frame] *)
Fixpoint find_child_from (i : nat) (parent frame : N) (nodes : list Node)
  : option nat :=
  match nodes with
  | [] => None
  | n :: nodes' =>
      if is_child parent frame n then Some i
      else find_child_from (S i) parent frame nodes'
  end.

Definition child (d_graph : t) (parent frame : N) : t * N :=
  match find_child_from 1 parent frame (tail d_graph) with
  | Some i => (d_graph, N.of_nat i)
  | None => (d_graph ++ [mkNode frame parent], N.of_nat (length d_graph))
  end.

Definition getTraceIndex (d_graph : t) (stack_trace : list N) : t * N :=
  fold_left (λ acc frame, child (fst acc) (snd acc) frame) stack_trace (d_graph, 0).

Definition nextNode (d_graph : t) (index : N) : option Node :=
  d_graph !! N.to_nat index.
End FrameTree.

(** Modelled from the spec: the secondary, content-keyed table of precise
    frames (class [FrameCollection]).  [getIndex] reuses the identifier of a
    frame already present or mints one; [mint k] is the identifier handed to
    the [k]-th distinct frame (the numbering scheme is fixed by the
    constructor arguments in [record_reader.h]). *)
Module FrameCollection.
Definition t : Type := list (Frame.t * N).

Fixpoint find (frame : Frame.t) (c : t) : option N :=
  match c with
  | [] => None
  | (f, id) :: c' => if decide (f = frame) then Some id else find frame c'
  end.

Definition getIndex (mint : nat → N) (frame : Frame.t) (c : t) : t * (N * bool) :=
  match find frame c with
  | Some id => (c, (id, false))
  | None => let id := mint (length c) in (c ++ [(frame, id)], (id, true))
  end.
End FrameCollection.

(** Modelled from the spec: the [SymbolResolver], sets of loaded segments
    keyed by a generation counter.  [clearSegments] opens a new generation,
    [addSegments] registers one module under the current one, and [resolve]
    answers from the modules registered under the generation asked for.
    Symbolisation itself is opaque ([symbolize], a parameter). *)
Module SymbolResolver.
Record Module_ : Type :=
  mkModule { generation_of : N; filename : list byte; addr : N;
             segments : list Segment.t }.
Record t : Type := mk { generation : N; modules : list Module_ }.
Definition empty : t := mk 0 [].

Definition clearSegments (r : t) : t := mk (generation r + 1) (modules r).
Definition addSegments (fname : list byte) (a : N) (segs : list Segment.t)
    (r : t) : t :=
  mk (generation r) (modules r ++ [mkModule (generation r) fname a segs]).
Definition currentSegmentGeneration (r : t) : N := generation r.
Definition modules_at (g : N) (r : t) : list Module_ :=
  filter (λ m, generation_of m = g) (modules r).
Definition resolve {RF : Type} (symbolize : list Module_ → N → option (list RF))
    (r : t) (ip g : N) : option (list RF) :=
  symbolize (modules_at g r) ip.
End SymbolResolver.

(** What the absent headers fix besides the layout. *)
Class Collaborators : Type := {
  mint : nat → N;                          (* FrameCollection numbering *)
  ResolvedFrame : Type;                    (* one symbolised native frame *)
  symbolize : list SymbolResolver.Module_ → N → option (list ResolvedFrame);
  consumed_by_failed_read : Source.t → nat;  (* Source, after its IoError *)
}.

(** ** The reader object *)

Record RecordReader : Type := mkReader {
  d_input : Source.t;
  d_header : HeaderRecord.t;
  d_stack_traces : gmap N (list N);
  d_frame_map : gmap N Frame.t;
  d_allocation_frames : FrameCollection.t;
  d_native_frames : list UnresolvedNativeFrame.t;
  d_tree : FrameTree.t;
  d_symbol_resolver : SymbolResolver.t;
}.

Definition with_input (x : Source.t) (r : RecordReader) : RecordReader :=
  mkReader x (d_header r) (d_stack_traces r) (d_frame_map r)
    (d_allocation_frames r) (d_native_frames r) (d_tree r) (d_symbol_resolver r).
Definition with_header (x : HeaderRecord.t) (r : RecordReader) : RecordReader :=
  mkReader (d_input r) x (d_stack_traces r) (d_frame_map r)
    (d_allocation_frames r) (d_native_frames r) (d_tree r) (d_symbol_resolver r).
Definition with_stack_traces (x : gmap N (list N)) (r : RecordReader) : RecordReader :=
  mkReader (d_input r) (d_header r) x (d_frame_map r)
    (d_allocation_frames r) (d_native_frames r) (d_tree r) (d_symbol_resolver r).
Definition with_frame_map (x : gmap N Frame.t) (r : RecordReader) : RecordReader :=
  mkReader (d_input r) (d_header r) (d_stack_traces r) x
    (d_allocation_frames r) (d_native_frames r) (d_tree r) (d_symbol_resolver r).
Definition with_allocation_frames (x : FrameCollection.t) (r : RecordReader) : RecordReader :=
  mkReader (d_input r) (d_header r) (d_stack_traces r) (d_frame_map r)
    x (d_native_frames r) (d_tree r) (d_symbol_resolver r).
Definition with_native_frames (x : list UnresolvedNativeFrame.t) (r : RecordReader) : RecordReader :=
  mkReader (d_input r) (d_header r) (d_stack_traces r) (d_frame_map r)
    (d_allocation_frames r) x (d_tree r) (d_symbol_resolver r).
Definition with_tree (x : FrameTree.t) (r : RecordReader) : RecordReader :=
  mkReader (d_input r) (d_header r) (d_stack_traces r) (d_frame_map r)
    (d_allocation_frames r) (d_native_frames r) x (d_symbol_resolver r).
Definition with_symbol_resolver (x : SymbolResolver.t) (r : RecordReader) : RecordReader :=
  mkReader (d_input r) (d_header r) (d_stack_traces r) (d_frame_map r)
    (d_allocation_frames r) (d_native_frames r) (d_tree r) x.

(** The members as the member initialisers leave them, over [source]. *)
Definition fresh_reader (source : Source.t) : RecordReader :=
  mkReader source HeaderRecord.empty ∅ ∅ [] [] FrameTree.empty SymbolResolver.empty.

(** ** Member functions run in a state-and-error monad

    A member function maps the object to an outcome and the object as it is
    left behind; a thrown exception does not undo earlier writes. *)
Definition M (A : Type) : Type := RecordReader → outcome A * RecordReader.

Definition ret {A} (a : A) : M A := λ r, (Ret a, r).
Definition throw {A} (e : exn) : M A := λ r, (Throw e, r).
Definition bind {A B} (m : M A) (k : A → M B) : M B :=
  λ r, match m r with
       | (Ret a, r') => k a r'
       | (Throw e, r') => (Throw e, r')
       | (AssertFail, r') => (AssertFail, r')
       | (Undefined, r') => (Undefined, r')
       end.
Definition gets {A} (f : RecordReader → A) : M A := λ r, (Ret (f r), r).
Definition modify (f : RecordReader → RecordReader) : M unit := λ r, (Ret tt, f r).
Definition assert (b : bool) : M unit :=
  λ r, if b then (Ret tt, r) else (AssertFail, r).
Definition undefined {A} : M A := λ r, (Undefined, r).

Notation "'let*' x ':=' m 'in' k" := (bind m (λ x, k))
  (at level 10, x name, m at level 100, k at level 200, only parsing).
Notation "'let*' ' p ':=' m 'in' k" := (bind m (λ x, match x with p => k end))
  (at level 10, p pattern, m at level 100, k at level 200, only parsing).

(** [for (i = 0; i < n; i++) acc = body(acc)] *)
Fixpoint for_loop {A} (n : nat) (body : A → M A) (acc : A) : M A :=
  match n with
  | O => ret acc
  | S n' => let* acc' := body acc in for_loop n' body acc'
  end.

(** The loop variables shared by the two stack walks. *)
Record walk (A : Type) : Type :=
  mkWalk { current_index : N; stacks_obtained : N; list_ : list A }.
Arguments mkWalk {A}.
Arguments current_index {A}.
Arguments stacks_obtained {A}.
Arguments list_ {A}.

(** [while (cond) body], with the number of times the body was entered. *)
Fixpoint while_loop {St} (fuel : nat) (cond : St → bool * St) (body : St → outcome St)
    (s : St) : option (outcome St * nat) :=
  match fuel with
  | O => None
  | S fuel' =>
      match cond s with
      | (false, s') => Some (Ret s', O)
      | (true, s') =>
          match body s' with
          | Ret s'' =>
              match while_loop fuel' cond body s'' with
              | Some (o, n) => Some (o, S n)
              | None => None
              end
          | Throw e => Some (Throw e, 1%nat)
          | AssertFail => Some (AssertFail, 1%nat)
          | Undefined => Some (Undefined, 1%nat)
          end
      end
  end.

Section Reader.
Context `{Layout} `{Build} `{Collaborators}.

(** [d_input->read(buf, n)] and [d_input->getline(result, delimiter)]. *)
Definition read (n : nat) : M (list byte) :=
  λ r, match Source.read consumed_by_failed_read n (d_input r) with
       | (Some bs, rest) => (Ret bs, with_input rest r)
       | (None, rest) => (Throw IoError, with_input rest r)
       end.

Definition getline (delimiter : byte) : M (list byte) :=
  λ r, match Source.getline consumed_by_failed_read delimiter (d_input r) with
       | (Some line, rest) => (Ret line, with_input rest r)
       | (None, rest) => (Throw IoError, with_input rest r)
       end.

(** The reader as a read that raised [IoError] leaves it. *)
Definition starved (r : RecordReader) : RecordReader :=
  with_input (drop (consumed_by_failed_read (d_input r)) (d_input r)) r.

(** The [assert] macro of [<cassert>] under the build at hand. *)
Definition cassert (b : bool) : M unit :=
  if NDEBUG then ret tt else assert b.

(** [d_input->read(reinterpret_cast<char*>(&x), sizeof(x))] *)
Definition read_as {A} (w : wire A) : M A :=
  let* bs := read (sizeof w) in ret (decode w bs).

(** *** RecordReader::readHeader and the constructor *)
Definition readHeader : M unit :=
  let* magic := read (length MAGIC) in
  let* _ := modify (λ r, with_header (HeaderRecord.with_magic magic (d_header r)) r) in
  if negb (bool_decide (magic = MAGIC)) then
    throw (ios_failure
      "The provided input file does not look like a binary generated by pensieve.")
  else
  let* version := read_as version_wire in
  let* _ := modify (λ r, with_header (HeaderRecord.with_version version (d_header r)) r) in
  if negb (bool_decide (version = CURRENT_HEADER_VERSION)) then
    throw (ios_failure
      "The provided input file is incompatible with this version of pensieve.")
  else
  let* native_traces := read_as native_traces_wire in
  let* _ := modify (λ r,
    with_header (HeaderRecord.with_native_traces native_traces (d_header r)) r) in
  let* stats := read_as stats_wire in
  let* _ := modify (λ r, with_header (HeaderRecord.with_stats stats (d_header r)) r) in
  let* command_line := getline x00 in
  modify (λ r, with_header (HeaderRecord.with_command_line command_line (d_header r)) r).

Definition RecordReader_new (source : Source.t) : outcome unit * RecordReader :=
  readHeader (fresh_reader source).

(** The reader under construction once a matching magic has been read. *)
Definition after_magic (source : Source.t) : RecordReader :=
  with_header (HeaderRecord.with_magic MAGIC HeaderRecord.empty)
    (fresh_reader (drop (length MAGIC) source)).

Definition getHeader (r : RecordReader) : HeaderRecord.t := d_header r.

(** *** RecordReader::parseFrame

    [d_stack_traces[tid]] default-constructs the stack of a thread it has
    not seen, for POP as well as for PUSH (with [NDEBUG] the POP first
    looks the thread up in the [pop_back] statement, to the same effect).
    [pop_back] on an empty vector has no defined behaviour; only the
    assertion, where compiled in, stands before it. *)
Definition stack_of (tid : N) (r : RecordReader) : list N :=
  default [] (d_stack_traces r !! tid).

Definition touch_stack (tid : N) : M unit :=
  modify (λ r, with_stack_traces (<[tid := stack_of tid r]> (d_stack_traces r)) r).

Definition parseFrame : M unit :=
  let* frame_seq_entry := read_as FrameSeqEntry_wire in
  let tid := FrameSeqEntry.tid frame_seq_entry in
  match FrameSeqEntry.action frame_seq_entry with
  | Some PUSH =>
      modify (λ r, with_stack_traces
        (<[tid := stack_of tid r ++ [FrameSeqEntry.frame_id frame_seq_entry]]>
           (d_stack_traces r)) r)
  | Some POP =>
      let* _ := touch_stack tid in
      let* stack := gets (stack_of tid) in
      let* _ := cassert (negb (bool_decide (stack = []))) in
      if bool_decide (stack = []) then undefined
      else modify (λ r, with_stack_traces
             (<[tid := removelast (stack_of tid r)]> (d_stack_traces r)) r)
  | None => ret tt
  end.

(** *** RecordReader::parseFrameIndex

    [pyframe_val] is value-initialised, so the own line of the frame read
    here is 0.  [unordered_map::insert] leaves an existing entry alone and
    reports whether it inserted. *)
Definition frame_map_insert (id : N) (frame : Frame.t) : M bool :=
  λ r, match d_frame_map r !! id with
       | Some _ => (Ret false, r)
       | None => (Ret true, with_frame_map (<[id := frame]> (d_frame_map r)) r)
       end.

Definition parseFrameIndex : M unit :=
  let* first := read_as frame_id_wire in
  let* function_name := getline x00 in
  let* filename := getline x00 in
  let* parent_lineno := read_as parent_lineno_wire in
  let* inserted :=
    frame_map_insert first (Frame.mk function_name filename parent_lineno 0) in
  if negb inserted then throw (runtime_error "Two entries with the same ID found!")
  else ret tt.

(** *** RecordReader::parseNativeFrameIndex, parseAllocationRecord *)
Definition parseNativeFrameIndex : M unit :=
  let* frame := read_as UnresolvedNativeFrame_wire in
  modify (λ r, with_native_frames (d_native_frames r ++ [frame]) r).

Definition parseAllocationRecord : M AllocationRecord.t :=
  read_as AllocationRecord_wire.

(** *** RecordReader::parseSegment, parseSegmentHeader

    [std::vector<Segment> segments(num_segments)] throws
    [std::length_error] for a count above [max_size()]; otherwise it builds
    a vector that already holds [num_segments] value-initialised segments,
    and the loop [emplace_back]s each parsed segment behind them, which
    throws [std::length_error] in its turn on a vector that has reached
    [max_size()].  The host allocator is taken not to fail. *)
Definition emplace_back (segments : list Segment.t) (s : Segment.t)
  : M (list Segment.t) :=
  if bool_decide (Segment_vector_max_size ≤ N.of_nat (length segments)) then
    throw length_error
  else ret (segments ++ [s]).

Definition parseSegment : M Segment.t :=
  let* record_type := read_as RecordType_wire in
  let* _ := cassert (bool_decide (record_type = Some SEGMENT)) in
  read_as Segment_wire.

Definition parseSegmentHeader : M unit :=
  let* filename := getline x00 in
  let* num_segments := read_as size_t_wire in
  let* addr := read_as uintptr_t_wire in
  if bool_decide (Segment_vector_max_size < num_segments) then throw length_error
  else
  let segments := replicate (N.to_nat num_segments) Segment.zero in
  let* segments :=
    for_loop (N.to_nat num_segments)
      (λ segments, let* s := parseSegment in emplace_back segments s) segments in
  modify (λ r, with_symbol_resolver
    (SymbolResolver.addSegments filename addr segments (d_symbol_resolver r)) r).

(** *** RecordReader::correctAllocationFrame, getAllocationFrameIndex

    [stack] is a reference to the vector stored in [d_stack_traces]; the
    model passes the key instead and writes through it. *)
Definition set_back (x : N) (stack : list N) : list N := removelast stack ++ [x].

Definition correctAllocationFrame (tid : N) (lineno : Z) : M unit :=
  let* stack := gets (stack_of tid) in
  match last stack with
  | None => ret tt
  | Some back =>
      let* frame_map := gets d_frame_map in
      match frame_map !! back with
      | None => throw out_of_range
      | Some partial_frame =>
          let allocation_frame :=
            Frame.mk (Frame.function_name partial_frame) (Frame.filename partial_frame)
              (Frame.parent_lineno partial_frame) lineno in
          let* '(allocation_index, is_new_frame) :=
            (λ r, let '(c, res) :=
                    FrameCollection.getIndex mint allocation_frame (d_allocation_frames r)
                  in (Ret res, with_allocation_frames c r)) in
          let* _ :=
            if (is_new_frame : bool) then
              let* _ := frame_map_insert allocation_index allocation_frame in ret tt
            else ret tt in
          modify (λ r, with_stack_traces
            (<[tid := set_back allocation_index (stack_of tid r)]> (d_stack_traces r)) r)
      end
  end.

Definition getAllocationFrameIndex (record : AllocationRecord.t) : M N :=
  let* stacks := gets d_stack_traces in
  match stacks !! AllocationRecord.tid record with
  | None => ret 0
  | Some _ =>
      let* _ := correctAllocationFrame (AllocationRecord.tid record)
                  (AllocationRecord.py_lineno record) in
      λ r, let '(tree, index) :=
             FrameTree.getTraceIndex (d_tree r) (stack_of (AllocationRecord.tid record) r)
           in (Ret index, with_tree tree r)
  end.

(** *** RecordReader::nextAllocationRecord

    [dispatch] is the [switch (record_type)] statement and [record_step]
    one turn of the [while (true)] loop: the result is [Some a] when the
    turn executes [return true] with [*allocation = a], and [None] when it
    reaches a [break] and loops. *)
Definition dispatch (record_type : option RecordType) : M (option Allocation.t) :=
  match record_type with
  | Some ALLOCATION =>
      let* record := parseAllocationRecord in
      let* f_index := getAllocationFrameIndex record in
      let* generation :=
        gets (λ r, SymbolResolver.currentSegmentGeneration (d_symbol_resolver r)) in
      ret (Some (Allocation.mk record f_index generation))
  | Some FRAME => let* _ := parseFrame in ret None
  | Some FRAME_INDEX => let* _ := parseFrameIndex in ret None
  | Some NATIVE_TRACE_INDEX => let* _ := parseNativeFrameIndex in ret None
  | Some MEMORY_MAP_START =>
      let* _ := modify (λ r, with_symbol_resolver
                  (SymbolResolver.clearSegments (d_symbol_resolver r)) r) in
      ret None
  | Some SEGMENT_HEADER => let* _ := parseSegmentHeader in ret None
  | Some SEGMENT | None => throw (runtime_error "Invalid record type")
  end.

Definition record_step : M (option Allocation.t) :=
  let* record_type := read_as RecordType_wire in dispatch record_type.

(** The loop itself, with [fuel] bounding the number of turns; [None]
    means the fuel ran out before the loop was left. *)
Fixpoint record_loop (fuel : nat) (r : RecordReader)
  : option (outcome Allocation.t * RecordReader) :=
  match fuel with
  | O => None
  | S fuel' =>
      match record_step r with
      | (Ret (Some a), r') => Some (Ret a, r')
      | (Ret None, r') => record_loop fuel' r'
      | (Throw e, r') => Some (Throw e, r')
      | (AssertFail, r') => Some (AssertFail, r')
      | (Undefined, r') => Some (Undefined, r')
      end
  end.

(** [try { ... } catch (const IoError&) { return false; }]: the result is
    [Some a] for [true] with [*allocation = a] and [None] for [false]. *)
Definition catch_IoError (res : outcome Allocation.t * RecordReader)
  : outcome (option Allocation.t) * RecordReader :=
  match res with
  | (Ret a, r') => (Ret (Some a), r')
  | (Throw IoError, r') => (Ret None, r')
  | (Throw e, r') => (Throw e, r')
  | (AssertFail, r') => (AssertFail, r')
  | (Undefined, r') => (Undefined, r')
  end.

Definition nextAllocationRecord_fuel (fuel : nat) (r : RecordReader)
  : option (outcome (option Allocation.t) * RecordReader) :=
  catch_IoError <$> record_loop fuel r.

(** Every turn consumes at least the record tag, so one turn more than
    there are bytes left always suffices ([nextAllocationRecord_fuel_enough]
    below); the last branch is never taken. *)
Definition nextAllocationRecord : M (option Allocation.t) :=
  λ r, match nextAllocationRecord_fuel (S (length (d_input r))) r with
       | Some res => res
       | None => (Undefined, r)
       end.

(** [k] successive calls, stopping early when one does not return. *)
Fixpoint decode_calls (k : nat) (r : RecordReader)
  : list (outcome (option Allocation.t)) * RecordReader :=
  match k with
  | O => ([], r)
  | S k' =>
      match nextAllocationRecord r with
      | (Ret a, r') => let '(rest, r'') := decode_calls k' r' in (Ret a :: rest, r'')
      | (o, r') => ([o], r')
      end
  end.

(** *** The stack walks: Py_GetStackFrame, Py_GetNativeStackFrame

    Both loops run [while (current_index != 0 && stacks_obtained++ !=
    max_stacks)]: the counter is bumped only when the first conjunct
    holds, and it is a [size_t], so the increment wraps.  Building the
    Python objects is the caller's business; the walks are modelled up to
    the frames they append, and the host allocator is taken not to fail. *)
Definition size_t_modulus : N := 2 ^ (8 * N.of_nat (sizeof size_t_wire)).

Definition walk_cond {A} (max_stacks : N) (w : walk A) : bool * walk A :=
  if bool_decide (current_index w ≠ 0) then
    (negb (bool_decide (stacks_obtained w = max_stacks)),
     mkWalk (current_index w) ((stacks_obtained w + 1) mod size_t_modulus) (list_ w))
  else (false, w).

(** The Python walk carries [current_lineno] next to the loop variables;
    an appended entry is the pair handed to [Frame::toPythonObject]. *)
Definition Py_GetStackFrame_body (r : RecordReader)
    (s : walk (Frame.t * Z) * Z) : outcome (walk (Frame.t * Z) * Z) :=
  let '(w, current_lineno) := s in
  match FrameTree.nextNode (d_tree r) (current_index w) with
  | None => Undefined
  | Some node =>
      match d_frame_map r !! FrameTree.frame_id node with
      | None => Throw out_of_range
      | Some frame =>
          Ret (mkWalk (FrameTree.parent_index node) (stacks_obtained w)
                 (list_ w ++ [(frame, current_lineno)]),
               Frame.parent_lineno frame)
      end
  end.

Definition Py_GetStackFrame_cond (max_stacks : N) (s : walk (Frame.t * Z) * Z)
  : bool * (walk (Frame.t * Z) * Z) :=
  let '(b, w) := walk_cond max_stacks (fst s) in (b, (w, snd s)).

Definition Py_GetStackFrame_loop (fuel : nat) (r : RecordReader)
    (index max_stacks : N) : option (outcome (walk (Frame.t * Z) * Z) * nat) :=
  while_loop fuel (Py_GetStackFrame_cond max_stacks) (Py_GetStackFrame_body r)
    (mkWalk index 0 [], (-1)%Z).

Definition Py_GetStackFrame (r : RecordReader) (index max_stacks : N)
  : outcome (list (Frame.t * Z)) :=
  match Py_GetStackFrame_loop (S (N.to_nat max_stacks)) r index max_stacks with
  | Some (Ret s, _) => Ret (list_ (fst s))
  | Some (Throw e, _) => Throw e
  | Some (AssertFail, _) => AssertFail
  | Some (Undefined, _) | None => Undefined
  end.

(** [d_native_frames[current_index - 1]] is an unchecked access. *)
Definition Py_GetNativeStackFrame_body (r : RecordReader) (generation : N)
    (w : walk ResolvedFrame) : outcome (walk ResolvedFrame) :=
  match d_native_frames r !! N.to_nat (current_index w - 1) with
  | None => Undefined
  | Some frame =>
      match SymbolResolver.resolve symbolize (d_symbol_resolver r)
              (UnresolvedNativeFrame.ip frame) generation with
      | None =>
          Ret (mkWalk (UnresolvedNativeFrame.index frame) (stacks_obtained w) (list_ w))
      | Some resolved_frames =>
          Ret (mkWalk (UnresolvedNativeFrame.index frame) (stacks_obtained w)
                 (list_ w ++ resolved_frames))
      end
  end.

Definition Py_GetNativeStackFrame_loop (fuel : nat) (r : RecordReader)
    (index generation max_stacks : N) : option (outcome (walk ResolvedFrame) * nat) :=
  while_loop fuel (walk_cond max_stacks) (Py_GetNativeStackFrame_body r generation)
    (mkWalk index 0 []).

Definition Py_GetNativeStackFrame (r : RecordReader) (index generation max_stacks : N)
  : outcome (list ResolvedFrame) :=
  match Py_GetNativeStackFrame_loop (S (N.to_nat max_stacks)) r index generation
          max_stacks with
  | Some (Ret w, _) => Ret (list_ w)
  | Some (Throw e, _) => Throw e
  | Some (AssertFail, _) => AssertFail
  | Some (Undefined, _) | None => Undefined
  end.

(** The chain entries a native walk visits, read off the table alone:
    follow the links from [index] for at most [depth] steps, stopping at
    the 0 sentinel or where the table has no such entry. *)
Fixpoint chain_links (depth : nat) (frames : list UnresolvedNativeFrame.t)
    (index : N) : list UnresolvedNativeFrame.t :=
  match depth with
  | O => []
  | S depth' =>
      if bool_decide (index = 0) then []
      else match frames !! N.to_nat (index - 1) with
           | None => []
           | Some frame =>
               frame :: chain_links depth' frames (UnresolvedNativeFrame.index frame)
           end
  end.

(** The index a native walk stands at behind the links of [chain_links]:
    0 at the sentinel, the index the table has no entry for at a dangling
    link, the link of the last entry visited when [depth] ran out. *)
Fixpoint chain_end (depth : nat) (frames : list UnresolvedNativeFrame.t)
    (index : N) : N :=
  match depth with
  | O => index
  | S depth' =>
      if bool_decide (index = 0) then index
      else match frames !! N.to_nat (index - 1) with
           | None => index
           | Some frame => chain_end depth' frames (UnresolvedNativeFrame.index frame)
           end
  end.

(** The frames a Python walk visits, read off the tree and the frame
    table alone: follow the parent links from [index] for at most [depth]
    steps, stopping at the 0 sentinel, at an index the tree has no node for
    or at a node whose frame the table does not know. *)
Fixpoint tree_frames (depth : nat) (r : RecordReader) (index : N) : list Frame.t :=
  match depth with
  | O => []
  | S depth' =>
      if bool_decide (index = 0) then []
      else match FrameTree.nextNode (d_tree r) index with
           | None => []
           | Some node =>
               match d_frame_map r !! FrameTree.frame_id node with
               | None => []
               | Some frame =>
                   frame :: tree_frames depth' r (FrameTree.parent_index node)
               end
           end
  end.

(** The index a Python walk stands at behind the frames of
    [tree_frames]. *)
Fixpoint tree_end (depth : nat) (r : RecordReader) (index : N) : N :=
  match depth with
  | O => index
  | S depth' =>
      if bool_decide (index = 0) then index
      else match FrameTree.nextNode (d_tree r) index with
           | None => index
           | Some node =>
               match d_frame_map r !! FrameTree.frame_id node with
               | None => index
               | Some frame => tree_end depth' r (FrameTree.parent_index node)
               end
           end
  end.

(** What one visited link adds to the output. *)
Definition link_frames (r : RecordReader) (generation : N)
    (frame : UnresolvedNativeFrame.t) : list ResolvedFrame :=
  default [] (SymbolResolver.resolve symbolize (d_symbol_resolver r)
                (UnresolvedNativeFrame.ip frame) generation).

(** Every identifier in the table of precise frames names a frame of the
    frame table ([correctAllocationFrame] registers each one it mints). *)
Definition precise_frames_registered (r : RecordReader) : Prop :=
  ∀ frame id, (frame, id) ∈ d_allocation_frames r → is_Some (d_frame_map r !! id).

(** The reader after [k] turns of the decode loop, each of which ended at
    its [break] or [return]; a turn that fails leaves the reader where the
    failure left it. *)
Fixpoint after_turns (k : nat) (r : RecordReader) : RecordReader :=
  match k with
  | O => r
  | S k' =>
      match record_step r with
      | (Ret _, r') => after_turns k' r'
      | (_, r') => r'
      end
  end.
End Reader.

(** ** Traces seen record by record

    A trace is the list of its records; [encodes] says which byte strings
    are the wire image of a record under the layout.  A SEGMENT_HEADER
    record holds no more segments than the reader can take in: its vector
    holds one placeholder and one parsed segment for each, so twice their
    number is at most the [max_size()] of a [std::vector<Segment>].  A
    larger count is no record of a trace; it makes the reader throw
    [std::length_error]. *)
Inductive TraceRecord : Type :=
| RAllocation (record : AllocationRecord.t)
| RFrame (entry : FrameSeqEntry.t)
| RFrameIndex (id : N) (function_name filename : list byte) (parent_lineno : Z)
| RNativeTraceIndex (frame : UnresolvedNativeFrame.t)
| RMemoryMapStart
| RSegmentHeader (filename : list byte) (addr : N) (segments : list Segment.t).

Definition allocation_records (recs : list TraceRecord) : list AllocationRecord.t :=
  omap (λ rec, match rec with RAllocation a => Some a | _ => None end) recs.

Section Wire.
Context `{Layout} `{Build}.

(** [bs] is exactly the storage of a value [a] of the type laid out by [w]. *)
Definition is_wire {A} (w : wire A) (a : A) (bs : list byte) : Prop :=
  length bs = sizeof w ∧ decode w bs = a.

(** [bs] is the string [s] followed by its terminating NUL. *)
Definition is_cstring (s bs : list byte) : Prop :=
  (x00 ∉ s) ∧ bs = s ++ [x00].

(** The SEGMENT sub-records behind a SEGMENT_HEADER. *)
Inductive encodes_segments : list Segment.t → list byte → Prop :=
| encodes_segments_nil : encodes_segments [] []
| encodes_segments_cons seg segs tag payload rest :
    is_wire RecordType_wire (Some SEGMENT) tag →
    is_wire Segment_wire seg payload →
    encodes_segments segs rest →
    encodes_segments (seg :: segs) (tag ++ payload ++ rest).

Inductive encodes : TraceRecord → list byte → Prop :=
| encodes_allocation record tag payload :
    is_wire RecordType_wire (Some ALLOCATION) tag →
    is_wire AllocationRecord_wire record payload →
    encodes (RAllocation record) (tag ++ payload)
| encodes_frame entry tag payload :
    is_wire RecordType_wire (Some FRAME) tag →
    is_wire FrameSeqEntry_wire entry payload →
    encodes (RFrame entry) (tag ++ payload)
| encodes_frame_index id function_name filename parent_lineno
      tag id_bs fn_bs file_bs line_bs :
    is_wire RecordType_wire (Some FRAME_INDEX) tag →
    is_wire frame_id_wire id id_bs →
    is_cstring function_name fn_bs →
    is_cstring filename file_bs →
    is_wire parent_lineno_wire parent_lineno line_bs →
    encodes (RFrameIndex id function_name filename parent_lineno)
      (tag ++ id_bs ++ fn_bs ++ file_bs ++ line_bs)
| encodes_native_trace_index frame tag payload :
    is_wire RecordType_wire (Some NATIVE_TRACE_INDEX) tag →
    is_wire UnresolvedNativeFrame_wire frame payload →
    encodes (RNativeTraceIndex frame) (tag ++ payload)
| encodes_memory_map_start tag :
    is_wire RecordType_wire (Some MEMORY_MAP_START) tag →
    encodes RMemoryMapStart tag
| encodes_segment_header filename addr segments tag file_bs count_bs addr_bs body :
    is_wire RecordType_wire (Some SEGMENT_HEADER) tag →
    is_cstring filename file_bs →
    2 * N.of_nat (length segments) ≤ Segment_vector_max_size →
    is_wire size_t_wire (N.of_nat (length segments)) count_bs →
    is_wire uintptr_t_wire addr addr_bs →
    encodes_segments segments body →
    encodes (RSegmentHeader filename addr segments)
      (tag ++ file_bs ++ count_bs ++ addr_bs ++ body).

Inductive encodes_trace : list TraceRecord → list byte → Prop :=
| encodes_trace_nil : encodes_trace [] []
| encodes_trace_cons rec recs bs rest :
    encodes rec bs → encodes_trace recs rest →
    encodes_trace (rec :: recs) (bs ++ rest).

(** The header fields a stream offers for comparison: its magic bytes
    differ when they are all there and are not [MAGIC]; its version differs
    when it follows a matching magic, is all there, and is not the
    supported one. *)
Definition magic_differs (source : Source.t) : Prop :=
  (length MAGIC ≤ length source)%nat ∧ take (length MAGIC) source ≠ MAGIC.

Definition version_differs (source : Source.t) : Prop :=
  take (length MAGIC) source = MAGIC ∧
  (sizeof version_wire ≤ length (drop (length MAGIC) source))%nat ∧
  decode version_wire (take (sizeof version_wire) (drop (length MAGIC) source))
    ≠ CURRENT_HEADER_VERSION.
End Wire.

(** ** Well-formed traces

    The protocol rules a producer obeys, followed along the trace over the
    stacks as the FRAME records build them and the set of frame identifiers
    FRAME_INDEX records have defined:
    - a POP finds a frame on the stack of its thread;
    - a FRAME_INDEX defines an identifier not defined before, and not one of
      those the reader mints for precise frames;
    - when an allocation arrives on a thread with frames on its stack, the
      frame on top has been defined. *)
Module Protocol.
Record t : Type := mk { stacks : gmap N (list N); defined : gset N }.
Definition initial : t := mk ∅ ∅.
Definition stack_of (tid : N) (p : t) : list N := default [] (stacks p !! tid).

Definition ok (mint : nat → N) (p : t) (rec : TraceRecord) : Prop :=
  match rec with
  | RFrame e =>
      match FrameSeqEntry.action e with
      | Some POP => stack_of (FrameSeqEntry.tid e) p ≠ []
      | _ => True
      end
  | RFrameIndex id _ _ _ => (id ∉ defined p) ∧ ∀ k, mint k ≠ id
  | RAllocation a =>
      match last (stack_of (AllocationRecord.tid a) p) with
      | Some top => top ∈ defined p
      | None => True
      end
  | _ => True
  end.

Definition next (p : t) (rec : TraceRecord) : t :=
  match rec with
  | RFrame e =>
      let tid := FrameSeqEntry.tid e in
      match FrameSeqEntry.action e with
      | Some PUSH =>
          mk (<[tid := stack_of tid p ++ [FrameSeqEntry.frame_id e]]> (stacks p))
             (defined p)
      | Some POP => mk (<[tid := removelast (stack_of tid p)]> (stacks p)) (defined p)
      | None => p
      end
  | RFrameIndex id _ _ _ => mk (stacks p) ({[id]} ∪ defined p)
  | _ => p
  end.

Fixpoint well_formed (mint : nat → N) (p : t) (recs : list TraceRecord) : Prop :=
  match recs with
  | [] => True
  | rec :: recs' => ok mint p rec ∧ well_formed mint (next p rec) recs'
  end.
(** The protocol state after a run of records. *)
Definition after (p : t) (recs : list TraceRecord) : t := fold_left next recs p.

(** No record of [recs] pushes a frame on thread [tid]. *)
Definition never_pushed (tid : N) (recs : list TraceRecord) : Prop :=
  ∀ e, RFrame e ∈ recs → FrameSeqEntry.tid e = tid →
       FrameSeqEntry.action e ≠ Some PUSH.

(** [allocs] are the allocations a decoder owes for [recs] from state [p]:
    one per ALLOCATION record, in order, carrying that record, with trace
    index 0 when the thread of the record has no stack. *)
Fixpoint decodes_to (p : t) (recs : list TraceRecord) (allocs : list Allocation.t)
  : Prop :=
  match recs with
  | [] => allocs = []
  | RAllocation a :: recs' =>
      ∃ alloc allocs', allocs = alloc :: allocs' ∧ Allocation.record alloc = a ∧
        (stacks p !! AllocationRecord.tid a = None → Allocation.frame_index alloc = 0) ∧
        decodes_to p recs' allocs'
  | rec :: recs' => decodes_to (next p rec) recs' allocs
  end.
End Protocol.

Section Simulation.
Context `{Layout} `{Build} `{Collaborators}.

(** The reader agrees with the protocol state [p] a trace has reached:
    the same threads have a stack, each stack entry is the identifier
    pushed or a frame of the table (a rewritten top), the frames defined
    are in the table, and every frame of the table was defined by the trace
    or minted by the reader. *)
Definition simulates (p : Protocol.t) (r : RecordReader) : Prop :=
  (∀ tid, d_stack_traces r !! tid = None ↔ Protocol.stacks p !! tid = None)
  ∧ (∀ tid, Forall2 (λ c g, c = g ∨ is_Some (d_frame_map r !! c))
              (stack_of tid r) (Protocol.stack_of tid p))
  ∧ (∀ id, id ∈ Protocol.defined p → is_Some (d_frame_map r !! id))
  ∧ (∀ id, is_Some (d_frame_map r !! id) → id ∈ Protocol.defined p ∨ ∃ k, mint k = id)
  ∧ precise_frames_registered r.
End Simulation.


(** ** Vocabulary of the proofs *)

(** A computation [respects] a relation between the reader before and
    after when every run is related, however it ends. *)
Definition respects {A} (R : relation RecordReader) (m : M A) : Prop :=
  ∀ r, R r (snd (m r)).

(** The input only ever shrinks. *)
Definition input_shrinks : relation RecordReader :=
  λ r r', (length (d_input r') ≤ length (d_input r))%nat.

(** The header stays as it is. *)
Definition same_header : relation RecordReader := λ r r', d_header r' = d_header r.

(** A computation that can only return or run the source dry. *)
Definition returns_or_IoError {A} (m : M A) : Prop :=
  ∀ r, (∃ a, fst (m r) = Ret a) ∨ fst (m r) = Throw IoError.

(** Magic and version of the header stay as they are. *)
Definition same_magic_version : relation RecordReader :=
  λ r r', HeaderRecord.magic (d_header r') = HeaderRecord.magic (d_header r)
          ∧ HeaderRecord.version (d_header r') = HeaderRecord.version (d_header r).

(** Stacks, frame table and precise frames stay as they are. *)
Definition same_tables : relation RecordReader :=
  λ r r', d_stack_traces r' = d_stack_traces r ∧ d_frame_map r' = d_frame_map r
          ∧ d_allocation_frames r' = d_allocation_frames r.

(** [m], run on [r], is ended by the [IoError] of the byte source, with
    nothing but the source moved. *)
Definition starves {A} (m : M A) (r : RecordReader) : Prop :=
  ∃ left, m r = (Throw IoError, with_input left r).

(** [index] is the sentinel or names a node of the tree. *)
Definition in_tree (r : RecordReader) (index : N) : Prop :=
  index = 0 ∨ is_Some (FrameTree.nextNode (d_tree r) index).

(** Every node of the tree but the root carries a frame of the frame
    table and links to the sentinel or to a node of the tree: the links
    may run in circles, but none leads outside the tables. *)
Definition tree_closed (r : RecordReader) : Prop :=
  ∀ index node, index ≠ 0 → FrameTree.nextNode (d_tree r) index = Some node →
    is_Some (d_frame_map r !! FrameTree.frame_id node)
    ∧ in_tree r (FrameTree.parent_index node).

(** Every entry of the chain table links inside the table. *)
Definition links_in_table (frames : list UnresolvedNativeFrame.t) : Prop :=
  Forall (λ frame, UnresolvedNativeFrame.index frame ≤ N.of_nat (length frames)) frames.

(** An entry of the frame table is never replaced or removed. *)
Definition frame_map_grows : relation RecordReader :=
  λ r r', ∀ id frame,
    d_frame_map r !! id = Some frame → d_frame_map r' !! id = Some frame.

(** The chain table is only ever appended to. *)
Definition native_frames_grow : relation RecordReader :=
  λ r r', d_native_frames r `prefix_of` d_native_frames r'.

(** The allocations among the outcomes of successive calls. *)
Definition allocations_of (outcomes : list (outcome (option Allocation.t)))
  : list Allocation.t :=
  omap (λ o, match o with Ret (Some a) => Some a | _ => None end) outcomes.

(** The line numbers a Python walk pairs its frames with: the first frame
    goes with [current_lineno], each later one with the [parent_lineno] of
    the frame before it. *)
Fixpoint lineno_chain (current_lineno : Z) (frames : list (Frame.t * Z)) : Prop :=
  match frames with
  | [] => True
  | (frame, lineno) :: frames' =>
      lineno = current_lineno ∧ lineno_chain (Frame.parent_lineno frame) frames'
  end.

(** A member [f] of the reader stays as it is. *)
Definition keeps {B} (f : RecordReader → B) : relation RecordReader :=
  λ r r', f r' = f r.

(** How a computation may fail: every exception it throws satisfies
    [thrown], it trips an assertion only if [asserts], and it runs into
    undefined behaviour only if [faults]. *)
Definition fails_with {A} (thrown : exn → Prop) (asserts faults : Prop)
    (m : M A) : Prop :=
  ∀ r, match m r with
       | (Ret _, _) => True
       | (Throw e, _) => thrown e
       | (AssertFail, _) => asserts
       | (Undefined, _) => faults
       end.

(** What a turn of the decode loop may throw: the [IoError] of the byte
    source, or one of the four exceptions of the parsers. *)
Definition record_step_throws (e : exn) : Prop :=
  e = IoError
  ∨ e = runtime_error "Two entries with the same ID found!"
  ∨ e = runtime_error "Invalid record type"
  ∨ e = out_of_range
  ∨ e = length_error.

(** The entries a Python walk builds for [frames], innermost first: each
    frame goes with [current_lineno], the line handed down by the frame
    before it. *)
Fixpoint walk_entries (current_lineno : Z) (frames : list Frame.t)
  : list (Frame.t * Z) :=
  match frames with
  | [] => []
  | frame :: frames' =>
      (frame, current_lineno) :: walk_entries (Frame.parent_lineno frame) frames'
  end.

(** From node [index] up to the root, the tree spells the frame
    identifiers [ids], innermost first. *)
Fixpoint tree_path (d_graph : FrameTree.t) (index : N) (ids : list N) : Prop :=
  match ids with
  | [] => index = 0
  | id :: ids' =>
      index ≠ 0
      ∧ ∃ parent, FrameTree.nextNode d_graph index = Some (FrameTree.mkNode id parent)
                  ∧ tree_path d_graph parent ids'
  end.

(** The precise frames agree with the frame table: each one is registered
    under its identifier, the identifiers not yet minted are free, and the
    frame tree holds its root. *)
Definition precise_frames_consistent `{Collaborators} (r : RecordReader) : Prop :=
  (∀ frame id, (frame, id) ∈ d_allocation_frames r → d_frame_map r !! id = Some frame)
  ∧ (∀ k, (length (d_allocation_frames r) ≤ k)%nat → d_frame_map r !! mint k = None)
  ∧ d_tree r ≠ [].

(** Consistency of the precise frames carries over. *)
Definition stays_consistent `{Collaborators} : relation RecordReader :=
  λ r r', precise_frames_consistent r → precise_frames_consistent r'.

(** ** A concrete platform

    One layout to run the reader on: LP64, little-endian, enumerators
    numbered in declaration order ([RecordType] from 1, [FrameAction] from
    0), struct fields in the order listed in the data model, a build with
    assertions and a toy symboliser.  It serves the examples; the theorems
    hold for every layout, build and collaborator. *)
Module Example_platform.
Definition le_decode (bs : list byte) : N :=
  fold_right (λ b acc, Byte.to_N b + 256 * acc) 0 bs.

Fixpoint le_encode (width : nat) (v : N) : list byte :=
  match width with
  | O => []
  | S width' => default x00 (Byte.of_N (v mod 256)) :: le_encode width' (v / 256)
  end.

(* a two's-complement [int] of [length bs] bytes *)
Definition int_decode (bs : list byte) : Z :=
  let u := Z.of_N (le_decode bs) in
  let m := (2 ^ (8 * Z.of_nat (length bs)))%Z in
  if (u <? m / 2)%Z then u else (u - m)%Z.

Definition int_encode (width : nat) (v : Z) : list byte :=
  le_encode width (Z.to_N (v mod 2 ^ (8 * Z.of_nat width))).

Definition slice (from len : nat) (bs : list byte) : list byte :=
  take len (drop from bs).

Definition RecordType_of_N (n : N) : option RecordType :=
  match n with
  | 1 => Some ALLOCATION | 2 => Some FRAME_INDEX | 3 => Some FRAME
  | 4 => Some NATIVE_TRACE_INDEX | 5 => Some MEMORY_MAP_START
  | 6 => Some SEGMENT_HEADER | 7 => Some SEGMENT | _ => None
  end.

Definition FrameAction_of_N (n : N) : option FrameAction :=
  match n with 0 => Some PUSH | 1 => Some POP | _ => None end.

#[export] Program Instance layout : Layout := {|
  MAGIC := list_byte_of_string "pensieve" ++ [x00];
  CURRENT_HEADER_VERSION := 1;
  version_wire := Wire 4 int_decode;
  native_traces_wire := Wire 1 (λ bs, negb (bool_decide (le_decode bs = 0)));
  stats_wire := Wire 16 (λ bs, bs);
  RecordType_wire := Wire 4 (λ bs, RecordType_of_N (le_decode bs));
  FrameSeqEntry_wire :=
    Wire 24 (λ bs, FrameSeqEntry.mk (le_decode (slice 0 8 bs)) (le_decode (slice 8 8 bs))
                     (FrameAction_of_N (le_decode (slice 16 4 bs))));
  frame_id_wire := Wire 8 le_decode;
  parent_lineno_wire := Wire 4 int_decode;
  UnresolvedNativeFrame_wire :=
    Wire 16 (λ bs, UnresolvedNativeFrame.mk (le_decode (slice 0 8 bs))
                     (le_decode (slice 8 8 bs)));
  AllocationRecord_wire :=
    Wire 40 (λ bs, AllocationRecord.mk (le_decode (slice 0 8 bs))
                     (le_decode (slice 8 8 bs)) (le_decode (slice 16 8 bs))
                     (le_decode (slice 24 4 bs)) (int_decode (slice 28 4 bs))
                     (le_decode (slice 32 8 bs)));
  size_t_wire := Wire 8 le_decode;
  uintptr_t_wire := Wire 8 le_decode;
  Segment_wire :=
    Wire 16 (λ bs, Segment.mk (le_decode (slice 0 8 bs)) (le_decode (slice 8 8 bs)));
|}.
Next Obligation. simpl. lia. Qed.

(** Assertions compiled in, and the [max_size()] of a vector of 16-byte
    segments on LP64: [PTRDIFF_MAX / sizeof(Segment)]. *)
#[export] Instance build : Build := {|
  NDEBUG := false;
  Segment_vector_max_size := (2 ^ 63 - 1) / 16;
|}.

(** The same build with assertions compiled out. *)
Definition release_build : Build := {|
  NDEBUG := true;
  Segment_vector_max_size := (2 ^ 63 - 1) / 16;
|}.

(** Precise frames take the odd identifiers; instruction pointer 1
    symbolises to one frame, 2 to a frame with one inlined callee; a read
    that fails leaves the source at its end. *)
#[export] Instance collaborators : Collaborators := {|
  mint := λ k, 2 * N.of_nat k + 1;
  ResolvedFrame := N;
  symbolize := λ _ ip,
    match ip with 1 => Some [10] | 2 => Some [20; 21] | _ => None end;
  consumed_by_failed_read := length;
|}.

(** Writers for the wire images of the records. *)
Definition tag (n : N) : list byte := le_encode 4 n.
Definition cstring (s : string) : list byte := list_byte_of_string s ++ [x00].

Definition frame_index_bytes (id : N) (function_name filename : string)
    (parent_lineno : Z) : list byte :=
  tag 2 ++ le_encode 8 id ++ cstring function_name ++ cstring filename
    ++ int_encode 4 parent_lineno.

Definition frame_bytes (frame_id tid action : N) : list byte :=
  tag 3 ++ le_encode 8 frame_id ++ le_encode 8 tid ++ le_encode 4 action
    ++ le_encode 4 0.

Definition allocation_record_bytes (a : AllocationRecord.t) : list byte :=
  le_encode 8 (AllocationRecord.tid a) ++ le_encode 8 (AllocationRecord.address a)
    ++ le_encode 8 (AllocationRecord.size a) ++ le_encode 4 (AllocationRecord.allocator a)
    ++ int_encode 4 (AllocationRecord.py_lineno a)
    ++ le_encode 8 (AllocationRecord.native_frame_id a).

Definition allocation_bytes (a : AllocationRecord.t) : list byte :=
  tag 1 ++ allocation_record_bytes a.

Definition native_bytes (ip index : N) : list byte :=
  tag 4 ++ le_encode 8 ip ++ le_encode 8 index.

Definition segment_bytes (vaddr memsz : N) : list byte :=
  tag 7 ++ le_encode 8 vaddr ++ le_encode 8 memsz.

Definition segment_header_bytes (filename : string) (count addr : N) : list byte :=
  tag 6 ++ cstring filename ++ le_encode 8 count ++ le_encode 8 addr.

Definition header_bytes (magic : list byte) (version : Z) : list byte :=
  magic ++ int_encode 4 version ++ [x01] ++ le_encode 16 0 ++ cstring "python3 a.py".

Definition alloc_7_42 : AllocationRecord.t := AllocationRecord.mk 7 4096 128 1 42 0.
Definition alloc_7_43 : AllocationRecord.t := AllocationRecord.mk 7 8192 64 1 43 0.

(** The end-to-end scenario of the specification, after the header. *)
Definition scenario_records : list TraceRecord :=
  [ RFrameIndex 2 (list_byte_of_string "foo") (list_byte_of_string "a.py") 0;
    RFrame (FrameSeqEntry.mk 2 7 (Some PUSH));
    RAllocation alloc_7_42 ].

Definition scenario_bytes : list byte :=
  frame_index_bytes 2 "foo" "a.py" 0 ++ frame_bytes 2 7 0 ++ allocation_bytes alloc_7_42.
(** A reader over [bytes] as the constructor would leave it once the
    header is behind. *)
Definition reader_over (bytes : list byte) : RecordReader := fresh_reader bytes.


(** A POP on thread 7, which has no frames, followed by an allocation. *)
Definition pop_first_reader : RecordReader :=
  reader_over (frame_bytes 2 7 1 ++ allocation_bytes alloc_7_42).

(** Frame 2 is defined twice, the second time with other content. *)
Definition twice_defined_reader : RecordReader :=
  with_frame_map {[ 2 := Frame.mk (list_byte_of_string "foo")
                           (list_byte_of_string "a.py") 0 0 ]}
    (reader_over (frame_index_bytes 2 "bar" "b.py" 3 ++ allocation_bytes alloc_7_42)).

(** An allocation on thread 7 while only thread 8 has pushed a frame. *)
Definition other_thread_reader : RecordReader :=
  with_stack_traces {[ 8 := [2] ]}
    (reader_over (allocation_bytes alloc_7_42 ++ allocation_bytes alloc_7_43)).

(** A SEGMENT_HEADER for "libc.so" announcing one segment, and the segment. *)
Definition one_segment_bytes : list byte :=
  segment_header_bytes "libc.so" 1 4096 ++ segment_bytes 16 32.

Definition one_segment_reader : RecordReader :=
  reader_over (one_segment_bytes ++ allocation_bytes alloc_7_42).

(** Thread 7 is inside frame 2 ("foo" of a.py) when two allocations arrive. *)
Definition foo : Frame.t :=
  Frame.mk (list_byte_of_string "foo") (list_byte_of_string "a.py") 0 0.

Definition in_foo_reader : RecordReader :=
  with_stack_traces {[ 7 := [2] ]}
    (with_frame_map {[ 2 := foo ]}
       (reader_over (allocation_bytes alloc_7_42 ++ allocation_bytes alloc_7_43))).

(** A native chain table: entry 1 resolves to nothing and links to entry
    2, which resolves to two frames and links to entry 3, which links to
    itself. *)
Definition chain_reader : RecordReader :=
  with_native_frames
    [ UnresolvedNativeFrame.mk 9 2; UnresolvedNativeFrame.mk 2 3;
      UnresolvedNativeFrame.mk 1 3 ] (reader_over []).

(** A frame tree whose node 1 is its own parent. *)
Definition cyclic_tree_reader : RecordReader :=
  with_tree [FrameTree.mkNode 0 0; FrameTree.mkNode 2 1]
    (with_frame_map {[ 2 := foo ]} (reader_over [])).

(** Streams with a header: a good one followed by the scenario, one with
    another version, one with another magic. *)
Definition good_source : Source.t := header_bytes MAGIC 1 ++ scenario_bytes.
Definition bad_version_source : Source.t := header_bytes MAGIC 2 ++ scenario_bytes.
Definition bad_magic_source : Source.t :=
  header_bytes (list_byte_of_string "PENSIEVE" ++ [x00]) 1 ++ scenario_bytes.

(** An allocation on thread 8 before the scenario, whose records only
    concern thread 7. *)
Definition unpushed_records : list TraceRecord :=
  [ RFrameIndex 2 (list_byte_of_string "foo") (list_byte_of_string "a.py") 0;
    RFrame (FrameSeqEntry.mk 2 7 (Some PUSH)) ].

Definition alloc_8_5 : AllocationRecord.t := AllocationRecord.mk 8 12288 16 1 5 0.

Definition unpushed_source : Source.t :=
  header_bytes MAGIC 1 ++ frame_index_bytes 2 "foo" "a.py" 0 ++ frame_bytes 2 7 0
    ++ allocation_bytes alloc_8_5.

(** The header every good example stream starts with, as parsed. *)
Definition example_header : HeaderRecord.t :=
  HeaderRecord.mk MAGIC 1 true (le_encode 16 0) (list_byte_of_string "python3 a.py").

(** The readers the constructor leaves over [good_source] and
    [unpushed_source]. *)
Definition scenario_reader : RecordReader :=
  with_header example_header (reader_over scenario_bytes).

Definition unpushed_reader : RecordReader :=
  with_header example_header
    (reader_over (frame_index_bytes 2 "foo" "a.py" 0 ++ frame_bytes 2 7 0
                    ++ allocation_bytes alloc_8_5)).

(** Both link structures gone wrong at once: the cyclic frame tree and the
    chain table with a self-loop. *)
Definition cyclic_reader : RecordReader :=
  with_native_frames (d_native_frames chain_reader) cyclic_tree_reader.

(** Links that lead outside the tables: tree node 1 carries frame 9, which
    the frame table does not know, and chain entry 1 links to entry 5 of a
    table of one. *)
Definition dangling_reader : RecordReader :=
  with_tree [FrameTree.mkNode 0 0; FrameTree.mkNode 9 0]
    (with_native_frames [UnresolvedNativeFrame.mk 1 5] (reader_over [])).

(** A SEGMENT sub-record where a top-level record is due. *)
Definition stray_segment_reader : RecordReader :=
  reader_over (segment_bytes 16 32 ++ allocation_bytes alloc_7_42).


(** A SEGMENT_HEADER record announcing 2^61 segments, with nothing behind
    its header fields. *)
Definition oversized_segment_header_reader : RecordReader :=
  reader_over (tag 6 ++ cstring "libc.so" ++ le_encode 8 (2 ^ 61)
                  ++ le_encode 8 4096 ++ []).

(** Thread 7 is inside frame 9, which no FRAME_INDEX record has defined. *)
Definition undefined_top_reader : RecordReader :=
  with_stack_traces {[ 7 := [9] ]}
    (reader_over (allocation_bytes alloc_7_42 ++ allocation_bytes alloc_7_43)).

(** Thread 7 has popped all its frames. *)
Definition emptied_stack_reader : RecordReader :=
  with_stack_traces {[ 7 := [] ]} (reader_over (allocation_bytes alloc_7_42)).

(** Thread 7, inside "foo", pushes frame 3 and pops; the POP names frame 9. *)
Definition push_pop_reader : RecordReader :=
  with_stack_traces {[ 7 := [2] ]}
    (with_frame_map {[ 2 := foo ]}
       (reader_over (frame_bytes 3 7 0 ++ frame_bytes 9 7 1
                       ++ allocation_bytes alloc_7_42))).

(** A FRAME record whose action field holds 5. *)
Definition unknown_action_reader : RecordReader :=
  reader_over (frame_bytes 2 7 5 ++ allocation_bytes alloc_7_42).

(** A NATIVE_TRACE_INDEX record arriving on the chain table of
    [chain_reader]. *)
Definition native_record_reader : RecordReader :=
  with_native_frames (d_native_frames chain_reader)
    (reader_over (native_bytes 2 0 ++ allocation_bytes alloc_7_42)).

(** Two allocations at line 42 inside "foo". *)
Definition alloc_7_42_again : AllocationRecord.t := AllocationRecord.mk 7 12288 32 1 42 0.

Definition same_line_reader : RecordReader :=
  with_stack_traces {[ 7 := [2] ]}
    (with_frame_map {[ 2 := foo ]}
       (reader_over (allocation_bytes alloc_7_42 ++ allocation_bytes alloc_7_42_again))).

(** Thread 7 is inside "bar", called from line 17 of "foo". *)
Definition bar : Frame.t :=
  Frame.mk (list_byte_of_string "bar") (list_byte_of_string "a.py") 17 0.

Definition nested_reader : RecordReader :=
  with_stack_traces {[ 7 := [2; 4] ]}
    (with_frame_map {[ 2 := foo; 4 := bar ]}
       (reader_over (allocation_bytes alloc_7_42))).
End Example_platform.

(** * Properties *)

(** ** The monad and the byte source *)

Lemma bind_ret_l {A B} (m : M A) (k : A → M B) r a r' :
  m r = (Ret a, r') → bind m k r = k a r'.
Proof. intros Hm. unfold bind. by rewrite Hm. Qed.

Lemma bind_throw_l {A B} (m : M A) (k : A → M B) r e r' :
  m r = (Throw e, r') → bind m k r = (Throw e, r').
Proof. intros Hm. unfold bind. by rewrite Hm. Qed.

Section Respects.
Context (R : relation RecordReader) `{!PreOrder R}.

Lemma respects_ret {A} (a : A) : respects R (ret a).
Proof. intros r. simpl. reflexivity. Qed.

Lemma respects_throw {A} e : respects R (throw e : M A).
Proof. intros r. simpl. reflexivity. Qed.

Lemma respects_gets {A} (f : RecordReader → A) : respects R (gets f).
Proof. intros r. simpl. reflexivity. Qed.

Lemma respects_assert b : respects R (assert b).
Proof. intros r. unfold assert. destruct b; simpl; reflexivity. Qed.

Lemma respects_undefined {A} : respects R (undefined : M A).
Proof. intros r. simpl. reflexivity. Qed.

Lemma respects_modify f : (∀ r, R r (f r)) → respects R (modify f).
Proof. intros Hf r. simpl. apply Hf. Qed.

Lemma respects_bind {A B} (m : M A) (k : A → M B) :
  respects R m → (∀ a, respects R (k a)) → respects R (bind m k).
Proof.
  intros Hm Hk r. unfold bind. specialize (Hm r).
  destruct (m r) as [[a| | |] r']; simpl in *; try done.
  etrans; [exact Hm | apply Hk].
Qed.

Lemma respects_for_loop {A} n (body : A → M A) acc :
  (∀ a, respects R (body a)) → respects R (for_loop n body acc).
Proof.
  intros Hb. revert acc. induction n as [|n IH]; intros acc; simpl.
  - apply respects_ret.
  - apply respects_bind; [apply Hb | apply IH].
Qed.
End Respects.

#[global] Instance input_shrinks_preorder : PreOrder input_shrinks.
Proof.
  split.
  - intros r. unfold input_shrinks. lia.
  - intros r1 r2 r3. unfold input_shrinks. lia.
Qed.

#[global] Instance same_header_preorder : PreOrder same_header.
Proof.
  split.
  - by intros r.
  - intros r1 r2 r3. unfold same_header. congruence.
Qed.

Lemma Source_read_exact consumed (bs rest : list byte) :
  Source.read consumed (length bs) (bs ++ rest) = (Some bs, rest).
Proof.
  unfold Source.read. rewrite decide_True by (rewrite length_app; lia).
  by rewrite take_app_length, drop_app_length.
Qed.

Lemma Source_read_short consumed n (s : list byte) :
  (length s < n)%nat → Source.read consumed n s = (None, drop (consumed s) s).
Proof. intros Hn. unfold Source.read. by rewrite decide_False by lia. Qed.

Lemma Source_read_length consumed n (s : list byte) :
  (length (snd (Source.read consumed n s)) ≤ length s)%nat.
Proof.
  unfold Source.read. case_decide; simpl; rewrite length_drop; lia.
Qed.

Lemma Source_read_Some consumed n (s bs rest : list byte) :
  Source.read consumed n s = (Some bs, rest) → s = bs ++ rest ∧ length bs = n.
Proof.
  unfold Source.read. case_decide; [|done]. intros [= <- <-].
  split; [by rewrite take_drop | rewrite length_take; lia].
Qed.

Lemma Source_split_at_cstring (s rest : list byte) :
  x00 ∉ s → Source.split_at x00 (s ++ x00 :: rest) = Some (s, rest).
Proof.
  induction s as [|b s IH]; intros Hs; simpl.
  - done.
  - rewrite decide_False by (intros ->; apply Hs; left).
    rewrite IH; [done|]. intros Hin. apply Hs. by right.
Qed.

Lemma Source_split_at_length delimiter (s line rest : list byte) :
  Source.split_at delimiter s = Some (line, rest) → (length rest < length s)%nat.
Proof.
  revert line. induction s as [|b s IH]; intros line; simpl; [done|].
  case_decide.
  - intros [= <- <-]. lia.
  - destruct (Source.split_at delimiter s) as [[l' r']|] eqn:E; [|done].
    intros [= <- <-]. specialize (IH _ eq_refl). lia.
Qed.

Lemma Source_getline_length consumed delimiter (s : list byte) :
  (length (snd (Source.getline consumed delimiter s)) ≤ length s)%nat.
Proof.
  unfold Source.getline.
  destruct (Source.split_at delimiter s) as [[line rest]|] eqn:E; simpl.
  - apply Source_split_at_length in E. lia.
  - rewrite length_drop. lia.
Qed.

Section Reading.
Context `{Layout} `{Collaborators}.

Lemma read_exact (bs rest : list byte) r :
  d_input r = bs ++ rest →
  read (length bs) r = (Ret bs, with_input rest r).
Proof. intros Hin. unfold read. by rewrite Hin, Source_read_exact. Qed.

Lemma read_short n r :
  (length (d_input r) < n)%nat → read n r = (Throw IoError, starved r).
Proof. intros Hn. unfold read. by rewrite Source_read_short. Qed.

Lemma read_as_wire {A} (w : wire A) (a : A) (bs rest : list byte) r :
  is_wire w a bs → d_input r = bs ++ rest →
  read_as w r = (Ret a, with_input rest r).
Proof.
  intros [Hlen Hdec] Hin. unfold read_as.
  rewrite <- Hlen. erewrite bind_ret_l by by apply read_exact.
  unfold ret. by rewrite Hdec.
Qed.

Lemma read_as_short {A} (w : wire A) r :
  (length (d_input r) < sizeof w)%nat →
  read_as w r = (Throw IoError, starved r).
Proof.
  intros Hn. unfold read_as. erewrite bind_throw_l; [done|]. by apply read_short.
Qed.

Lemma getline_cstring (s bs rest : list byte) r :
  is_cstring s bs → d_input r = bs ++ rest →
  getline x00 r = (Ret s, with_input rest r).
Proof.
  intros [Hs ->] Hin. unfold getline, Source.getline.
  rewrite Hin, <- app_assoc. simpl. by rewrite Source_split_at_cstring.
Qed.

Lemma read_shrinks n : respects input_shrinks (read n).
Proof.
  intros r. unfold read, input_shrinks.
  pose proof (Source_read_length consumed_by_failed_read n (d_input r)) as Hl.
  destruct (Source.read _ n (d_input r)) as [[bs|] rest]; simpl in *; lia.
Qed.

Lemma getline_shrinks delimiter : respects input_shrinks (getline delimiter).
Proof.
  intros r. unfold getline, input_shrinks.
  pose proof (Source_getline_length consumed_by_failed_read delimiter (d_input r)) as Hl.
  destruct (Source.getline _ delimiter (d_input r)) as [[bs|] rest]; simpl in *; lia.
Qed.

Lemma read_as_shrinks {A} (w : wire A) : respects input_shrinks (read_as w).
Proof.
  unfold read_as. apply respects_bind; [apply _ | apply read_shrinks |].
  intros a. apply respects_ret, _.
Qed.

Lemma read_same_header n : respects same_header (read n).
Proof.
  intros r. unfold read, same_header.
  by destruct (Source.read _ n (d_input r)) as [[bs|] rest].
Qed.

Lemma getline_same_header delimiter : respects same_header (getline delimiter).
Proof.
  intros r. unfold getline, same_header.
  by destruct (Source.getline _ delimiter (d_input r)) as [[bs|] rest].
Qed.

Lemma read_as_same_header {A} (w : wire A) : respects same_header (read_as w).
Proof.
  unfold read_as. apply respects_bind; [apply _ | apply read_same_header |].
  intros a. apply respects_ret, _.
Qed.

(** A successful read of a type of positive size leaves strictly less. *)
Lemma read_as_Ret_shrinks {A} (w : wire A) r a r' :
  (0 < sizeof w)%nat → read_as w r = (Ret a, r') →
  (length (d_input r') < length (d_input r))%nat ∧ same_header r r'.
Proof.
  intros Hpos. unfold read_as, bind, read.
  destruct (Source.read _ (sizeof w) (d_input r)) as [[bs|] rest] eqn:E; [|done].
  intros [= <- <-]. apply Source_read_Some in E as [E Hlen]. simpl.
  rewrite E, length_app. split; [lia | done].
Qed.
End Reading.

(** ** What no record parser disturbs

    Any preorder on readers that the two [Source] operations and the
    writes to the decoding tables respect is respected by every parser and
    by a whole turn of the decode loop. *)
Section Parsers_respect.
Context `{Layout} `{Build} `{Collaborators}.
Context (R : relation RecordReader) `{!PreOrder R}.
Hypothesis R_read : ∀ n, respects R (read n).
Hypothesis R_getline : ∀ d, respects R (getline d).
Hypothesis R_stack_traces : ∀ x r, R r (with_stack_traces x r).
Hypothesis R_frame_map : ∀ x r, R r (with_frame_map x r).
Hypothesis R_allocation_frames : ∀ x r, R r (with_allocation_frames x r).
Hypothesis R_native_frames : ∀ x r, R r (with_native_frames x r).
Hypothesis R_tree : ∀ x r, R r (with_tree x r).
Hypothesis R_symbol_resolver : ∀ x r, R r (with_symbol_resolver x r).

Lemma cassert_respects b : respects R (cassert b).
Proof.
  unfold cassert. destruct NDEBUG; [apply (respects_ret R) | apply (respects_assert R)].
Qed.

Lemma emplace_back_respects segments s : respects R (emplace_back segments s).
Proof.
  unfold emplace_back.
  case_bool_decide; [apply (respects_throw R) | apply (respects_ret R)].
Qed.

Ltac respects_tac leaf :=
  repeat first
    [ leaf
    | apply R_getline | apply cassert_respects | apply emplace_back_respects
    | apply (respects_ret R) | apply (respects_throw R) | apply (respects_gets R)
    | apply (respects_assert R) | apply (respects_undefined R)
    | apply (respects_modify R); intros ?;
        first [ apply R_stack_traces | apply R_frame_map | apply R_allocation_frames
              | apply R_native_frames | apply R_tree | apply R_symbol_resolver ]
    | apply (respects_bind R); [ | intros ? ]
    | apply (respects_for_loop R); intros ? ].

Lemma read_as_respects {A} (w : wire A) : respects R (read_as w).
Proof. unfold read_as. respects_tac ltac:(apply R_read). Qed.

Lemma frame_map_insert_respects id frame : respects R (frame_map_insert id frame).
Proof.
  intros r. unfold frame_map_insert.
  destruct (d_frame_map r !! id); simpl; [reflexivity | apply R_frame_map].
Qed.

Ltac leaf1 := first [ apply read_as_respects | apply frame_map_insert_respects ].

Lemma parseFrame_respects : respects R parseFrame.
Proof.
  unfold parseFrame, touch_stack. respects_tac leaf1.
  destruct (FrameSeqEntry.action a) as [[]|]; respects_tac leaf1.
  case_bool_decide; respects_tac leaf1.
Qed.

Lemma parseFrameIndex_respects : respects R parseFrameIndex.
Proof.
  unfold parseFrameIndex. respects_tac leaf1.
  destruct a3; simpl; respects_tac leaf1.
Qed.

Lemma parseNativeFrameIndex_respects : respects R parseNativeFrameIndex.
Proof. unfold parseNativeFrameIndex. respects_tac leaf1. Qed.

Lemma parseSegment_respects : respects R parseSegment.
Proof. unfold parseSegment. respects_tac leaf1. Qed.

Lemma parseSegmentHeader_respects : respects R parseSegmentHeader.
Proof.
  unfold parseSegmentHeader.
  respects_tac ltac:(first [ apply parseSegment_respects | leaf1 ]).
  case_bool_decide; respects_tac ltac:(first [ apply parseSegment_respects | leaf1 ]).
Qed.

Lemma correctAllocationFrame_respects tid lineno :
  respects R (correctAllocationFrame tid lineno).
Proof.
  unfold correctAllocationFrame. respects_tac leaf1.
  destruct (last a) as [back|]; respects_tac leaf1.
  destruct (a0 !! back) as [partial_frame|]; respects_tac leaf1.
  - intros r. destruct (FrameCollection.getIndex _ _ _) as [c res]. simpl.
    apply R_allocation_frames.
  - destruct a1 as [allocation_index is_new_frame]. respects_tac leaf1.
    destruct is_new_frame; respects_tac leaf1.
Qed.

Lemma getAllocationFrameIndex_respects record :
  respects R (getAllocationFrameIndex record).
Proof.
  unfold getAllocationFrameIndex. respects_tac leaf1.
  destruct (a !! AllocationRecord.tid record);
    respects_tac ltac:(apply correctAllocationFrame_respects).
  intros r. destruct (FrameTree.getTraceIndex _ _) as [tree index]. simpl.
  apply R_tree.
Qed.

Ltac leaf2 :=
  first [ apply read_as_respects | apply getAllocationFrameIndex_respects
        | apply parseFrame_respects | apply parseFrameIndex_respects
        | apply parseNativeFrameIndex_respects | apply parseSegmentHeader_respects ].

Lemma dispatch_respects record_type : respects R (dispatch record_type).
Proof.
  unfold dispatch, parseAllocationRecord.
  destruct record_type as [[]|]; respects_tac leaf2.
Qed.

Lemma record_step_respects : respects R record_step.
Proof.
  unfold record_step.
  respects_tac ltac:(first [ apply dispatch_respects | leaf2 ]).
Qed.
End Parsers_respect.

Section Decode_loop.
Context `{Layout} `{Build} `{Collaborators}.

Lemma record_step_shrinks : respects input_shrinks record_step.
Proof.
  apply record_step_respects; try apply _; try (intros; unfold input_shrinks; simpl; lia).
  - apply read_shrinks.
  - apply getline_shrinks.
Qed.

Lemma record_step_same_header : respects same_header record_step.
Proof.
  apply record_step_respects; try apply _; try done.
  - apply read_same_header.
  - apply getline_same_header.
Qed.

Lemma dispatch_shrinks record_type : respects input_shrinks (dispatch record_type).
Proof.
  apply dispatch_respects; try apply _; try (intros; unfold input_shrinks; simpl; lia).
  - apply read_shrinks.
  - apply getline_shrinks.
Qed.

(** A turn that ends normally has consumed at least the record tag. *)
Lemma record_step_Ret_consumes r a r' :
  record_step r = (Ret a, r') → (length (d_input r') < length (d_input r))%nat.
Proof.
  unfold record_step. unfold bind at 1.
  destruct (read_as RecordType_wire r) as [[record_type| | |] r1] eqn:Etag; try done.
  apply read_as_Ret_shrinks in Etag as [Hlt _]; [|apply sizeof_RecordType_pos].
  intros Hk. pose proof (dispatch_shrinks record_type r1) as Hle.
  rewrite Hk in Hle. unfold input_shrinks in Hle. simpl in Hle. lia.
Qed.

(** More fuel never changes a result already reached. *)
Lemma record_loop_more_fuel fuel fuel' r res :
  record_loop fuel r = Some res → (fuel ≤ fuel')%nat → record_loop fuel' r = Some res.
Proof.
  revert fuel' r. induction fuel as [|fuel IH]; intros fuel' r; [done|].
  intros Hrun Hle. destruct fuel' as [|fuel']; [lia|]. simpl in *.
  destruct (record_step r) as [[[a|]| | |] r']; try done.
  apply IH; [done | lia].
Qed.

(** The loop is left after at most one turn per remaining byte, plus the
    turn that finds the source dry. *)
Lemma record_loop_total fuel r :
  (length (d_input r) < fuel)%nat → is_Some (record_loop fuel r).
Proof.
  revert r. induction fuel as [|fuel IH]; intros r Hlen; [lia|]. simpl.
  destruct (record_step r) as [[[a|]| | |] r'] eqn:Estep; try done.
  apply IH. apply record_step_Ret_consumes in Estep. lia.
Qed.

Lemma nextAllocationRecord_fuel_enough fuel r :
  (length (d_input r) < fuel)%nat →
  nextAllocationRecord_fuel fuel r = Some (nextAllocationRecord r).
Proof.
  intros Hlen. unfold nextAllocationRecord, nextAllocationRecord_fuel.
  destruct (record_loop_total (S (length (d_input r))) r) as [res Hres]; [lia|].
  rewrite Hres. simpl.
  by rewrite (record_loop_more_fuel _ fuel _ _ Hres) by lia.
Qed.

(** Any run of the loop that ends fixes the result of the call. *)
Lemma nextAllocationRecord_of_loop fuel r res :
  record_loop fuel r = Some res → nextAllocationRecord r = catch_IoError res.
Proof.
  intros Hrun. unfold nextAllocationRecord, nextAllocationRecord_fuel.
  destruct (record_loop_total (S (length (d_input r))) r) as [res' Hres']; [lia|].
  rewrite Hres'. simpl. f_equal.
  destruct (decide (fuel ≤ S (length (d_input r)))%nat).
  - rewrite (record_loop_more_fuel _ _ _ _ Hrun) in Hres' by done. congruence.
  - rewrite (record_loop_more_fuel _ fuel _ _ Hres') in Hrun by lia. congruence.
Qed.

Lemma record_loop_same_header fuel r res :
  record_loop fuel r = Some res → d_header (snd res) = d_header r.
Proof.
  revert r. induction fuel as [|fuel IH]; intros r; [done|]. simpl.
  pose proof (record_step_same_header r) as Hh. unfold same_header in Hh.
  destruct (record_step r) as [[[a|]| | |] r'] eqn:Estep; simpl in Hh;
    try (intros [= <-]; done).
  intros Hrun. apply IH in Hrun. congruence.
Qed.

Lemma nextAllocationRecord_same_header r :
  d_header (snd (nextAllocationRecord r)) = d_header r.
Proof.
  destruct (record_loop_total (S (length (d_input r))) r) as [res Hres]; [lia|].
  rewrite (nextAllocationRecord_of_loop _ _ _ Hres).
  rewrite <- (record_loop_same_header _ _ _ Hres).
  by destruct res as [[a|[]| |] r'].
Qed.

Lemma decode_calls_same_header k r :
  d_header (snd (decode_calls k r)) = d_header r.
Proof.
  revert r. induction k as [|k IH]; intros r; [done|]. simpl.
  pose proof (nextAllocationRecord_same_header r) as Hh.
  destruct (nextAllocationRecord r) as [[a| | |] r']; simpl in *; try done.
  specialize (IH r'). destruct (decode_calls k r') as [rest r'']. simpl in *. congruence.
Qed.
End Decode_loop.

(** ** One record at a time *)

(** Run the read at the head of a computation over input known to start
    with the image of what is read. *)
Ltac read_step :=
  erewrite bind_ret_l by
    (first [ eapply read_as_wire | eapply getline_cstring ]; cycle 1;
     [ first [ eassumption | reflexivity ] | eassumption ]).

Section Records.
Context `{Layout} `{Build} `{Collaborators}.

(** What the image of each kind of record is made of. *)
Lemma encodes_allocation_inv record bs :
  encodes (RAllocation record) bs →
  ∃ tag payload, bs = tag ++ payload ∧
    is_wire RecordType_wire (Some ALLOCATION) tag ∧
    is_wire AllocationRecord_wire record payload.
Proof. inversion 1; subst; eauto 10. Qed.

Lemma encodes_frame_inv e bs :
  encodes (RFrame e) bs →
  ∃ tag payload, bs = tag ++ payload ∧
    is_wire RecordType_wire (Some FRAME) tag ∧ is_wire FrameSeqEntry_wire e payload.
Proof. inversion 1; subst; eauto 10. Qed.

Lemma encodes_frame_index_inv id function_name filename parent_lineno bs :
  encodes (RFrameIndex id function_name filename parent_lineno) bs →
  ∃ tag id_bs fn_bs file_bs line_bs,
    bs = tag ++ id_bs ++ fn_bs ++ file_bs ++ line_bs ∧
    is_wire RecordType_wire (Some FRAME_INDEX) tag ∧
    is_wire frame_id_wire id id_bs ∧ is_cstring function_name fn_bs ∧
    is_cstring filename file_bs ∧ is_wire parent_lineno_wire parent_lineno line_bs.
Proof. inversion 1; subst. do 5 eexists. eauto 10. Qed.

Lemma encodes_native_trace_index_inv frame bs :
  encodes (RNativeTraceIndex frame) bs →
  ∃ tag payload, bs = tag ++ payload ∧
    is_wire RecordType_wire (Some NATIVE_TRACE_INDEX) tag ∧
    is_wire UnresolvedNativeFrame_wire frame payload.
Proof. inversion 1; subst; eauto 10. Qed.

Lemma encodes_memory_map_start_inv bs :
  encodes RMemoryMapStart bs → is_wire RecordType_wire (Some MEMORY_MAP_START) bs.
Proof. by inversion 1. Qed.

Lemma encodes_segment_header_inv filename addr segments bs :
  encodes (RSegmentHeader filename addr segments) bs →
  ∃ tag file_bs count_bs addr_bs body,
    bs = tag ++ file_bs ++ count_bs ++ addr_bs ++ body ∧
    is_wire RecordType_wire (Some SEGMENT_HEADER) tag ∧
    is_cstring filename file_bs ∧
    is_wire size_t_wire (N.of_nat (length segments)) count_bs ∧
    is_wire uintptr_t_wire addr addr_bs ∧ encodes_segments segments body ∧
    2 * N.of_nat (length segments) ≤ Segment_vector_max_size.
Proof. inversion 1; subst. do 5 eexists. eauto 10. Qed.

Lemma record_step_tag record_type (tag rest : list byte) r :
  is_wire RecordType_wire record_type tag → d_input r = tag ++ rest →
  record_step r = dispatch record_type (with_input rest r).
Proof.
  intros Htag Hin. unfold record_step.
  by read_step.
Qed.

(** A single turn settles the call unless it ends at a [break]. *)
Lemma nextAllocationRecord_of_step r o r' :
  record_step r = (o, r') → o ≠ Ret None →
  nextAllocationRecord r =
    catch_IoError (match o with
                   | Ret (Some a) => Ret a
                   | Ret None => Undefined
                   | Throw e => Throw e
                   | AssertFail => AssertFail
                   | Undefined => Undefined
                   end, r').
Proof.
  intros Hstep Ho. apply (nextAllocationRecord_of_loop 1). simpl. rewrite Hstep.
  by destruct o as [[a|]| | |].
Qed.

(** After a turn that consumed a non-allocation record the call goes on
    from the reader that turn left. *)
Lemma nextAllocationRecord_skip r r' :
  record_step r = (Ret None, r') → nextAllocationRecord r = nextAllocationRecord r'.
Proof.
  intros Hstep.
  destruct (record_loop_total (S (length (d_input r'))) r') as [res Hres]; [lia|].
  rewrite (nextAllocationRecord_of_loop _ _ _ Hres).
  apply (nextAllocationRecord_of_loop (S (S (length (d_input r'))))).
  cbn [record_loop]. by rewrite Hstep.
Qed.

Lemma parseFrame_push e (payload rest : list byte) r :
  is_wire FrameSeqEntry_wire e payload → d_input r = payload ++ rest →
  FrameSeqEntry.action e = Some PUSH →
  parseFrame r =
    (Ret tt, with_stack_traces
       (<[FrameSeqEntry.tid e :=
            stack_of (FrameSeqEntry.tid e) r ++ [FrameSeqEntry.frame_id e]]>
          (d_stack_traces r)) (with_input rest r)).
Proof.
  intros Hw Hin Hact. unfold parseFrame.
  read_step. by rewrite Hact.
Qed.

(** An assertion that holds passes in every build. *)
Lemma cassert_true r : cassert true r = (Ret tt, r).
Proof. unfold cassert. by destruct NDEBUG. Qed.

Lemma cassert_false r :
  cassert false r = (if NDEBUG then Ret tt else AssertFail, r).
Proof. unfold cassert. by destruct NDEBUG. Qed.

Lemma parseFrame_pop e (payload rest : list byte) r :
  is_wire FrameSeqEntry_wire e payload → d_input r = payload ++ rest →
  FrameSeqEntry.action e = Some POP →
  stack_of (FrameSeqEntry.tid e) r ≠ [] →
  parseFrame r =
    (Ret tt, with_stack_traces
       (<[FrameSeqEntry.tid e := removelast (stack_of (FrameSeqEntry.tid e) r)]>
          (d_stack_traces r)) (with_input rest r)).
Proof.
  intros Hw Hin Hact Hne. unfold parseFrame.
  read_step. rewrite Hact.
  unfold bind, touch_stack, modify, gets, stack_of in *. simpl.
  rewrite !lookup_insert_eq. simpl.
  rewrite !bool_decide_eq_false_2 by done. simpl. rewrite cassert_true. simpl.
  rewrite !lookup_insert_eq, insert_insert_eq. reflexivity.
Qed.

Lemma parseFrame_pop_empty e (payload rest : list byte) r :
  is_wire FrameSeqEntry_wire e payload → d_input r = payload ++ rest →
  FrameSeqEntry.action e = Some POP →
  stack_of (FrameSeqEntry.tid e) r = [] →
  parseFrame r =
    (if NDEBUG then Undefined else AssertFail,
     with_stack_traces (<[FrameSeqEntry.tid e := []]> (d_stack_traces r))
       (with_input rest r)).
Proof.
  intros Hw Hin Hact Hempty. unfold parseFrame.
  read_step. rewrite Hact.
  unfold bind, touch_stack, modify, gets, stack_of in *. simpl.
  rewrite lookup_insert_eq. simpl. rewrite Hempty. simpl.
  rewrite cassert_false. by destruct NDEBUG.
Qed.

Lemma parseFrame_no_action e (payload rest : list byte) r :
  is_wire FrameSeqEntry_wire e payload → d_input r = payload ++ rest →
  FrameSeqEntry.action e = None →
  parseFrame r = (Ret tt, with_input rest r).
Proof.
  intros Hw Hin Hact. unfold parseFrame.
  read_step. by rewrite Hact.
Qed.

(** The four reads of [parseFrameIndex] on the image of a record. *)
Lemma parseFrameIndex_reads id function_name filename parent_lineno
    (id_bs fn_bs file_bs line_bs rest : list byte) r :
  is_wire frame_id_wire id id_bs → is_cstring function_name fn_bs →
  is_cstring filename file_bs → is_wire parent_lineno_wire parent_lineno line_bs →
  d_input r = id_bs ++ fn_bs ++ file_bs ++ line_bs ++ rest →
  parseFrameIndex r =
    (let* inserted :=
       frame_map_insert id (Frame.mk function_name filename parent_lineno 0) in
     if negb inserted then throw (runtime_error "Two entries with the same ID found!")
     else ret tt) (with_input rest r).
Proof.
  intros Hid Hfn Hfile Hline Hin. unfold parseFrameIndex. by do 4 read_step.
Qed.

Lemma parseFrameIndex_fresh id function_name filename parent_lineno
    (id_bs fn_bs file_bs line_bs rest : list byte) r :
  is_wire frame_id_wire id id_bs → is_cstring function_name fn_bs →
  is_cstring filename file_bs → is_wire parent_lineno_wire parent_lineno line_bs →
  d_input r = id_bs ++ fn_bs ++ file_bs ++ line_bs ++ rest →
  d_frame_map r !! id = None →
  parseFrameIndex r =
    (Ret tt, with_frame_map
       (<[id := Frame.mk function_name filename parent_lineno 0]> (d_frame_map r))
       (with_input rest r)).
Proof.
  intros Hid Hfn Hfile Hline Hin Hnone.
  rewrite (parseFrameIndex_reads id function_name filename parent_lineno
             id_bs fn_bs file_bs line_bs rest) by done.
  unfold bind, frame_map_insert. simpl. by rewrite Hnone.
Qed.

Lemma parseFrameIndex_duplicate id function_name filename parent_lineno
    (id_bs fn_bs file_bs line_bs rest : list byte) r :
  is_wire frame_id_wire id id_bs → is_cstring function_name fn_bs →
  is_cstring filename file_bs → is_wire parent_lineno_wire parent_lineno line_bs →
  d_input r = id_bs ++ fn_bs ++ file_bs ++ line_bs ++ rest →
  is_Some (d_frame_map r !! id) →
  parseFrameIndex r =
    (Throw (runtime_error "Two entries with the same ID found!"), with_input rest r).
Proof.
  intros Hid Hfn Hfile Hline Hin [frame Hsome].
  rewrite (parseFrameIndex_reads id function_name filename parent_lineno
             id_bs fn_bs file_bs line_bs rest) by done.
  unfold bind, frame_map_insert. simpl. by rewrite Hsome.
Qed.
End Records.

(** ** Failures at the decode interface *)
Section Failures.
Context `{Layout} `{Build} `{Collaborators}.

Lemma record_step_short_tag r :
  (length (d_input r) < sizeof RecordType_wire)%nat →
  record_step r = (Throw IoError, starved r).
Proof.
  intros Hlen. unfold record_step. erewrite bind_throw_l; [done|].
  by apply read_as_short.
Qed.

(** A source that is dry, or holds less than a record tag, ends the call
    with [false]. *)
Lemma nextAllocationRecord_short_tag r :
  (length (d_input r) < sizeof RecordType_wire)%nat →
  nextAllocationRecord r = (Ret None, starved r).
Proof.
  intros Hlen. apply record_step_short_tag in Hlen.
  by rewrite (nextAllocationRecord_of_step _ _ _ Hlen).
Qed.

(** [IoError] never leaves [nextAllocationRecord]. *)
Lemma nextAllocationRecord_never_IoError r :
  fst (nextAllocationRecord r) ≠ Throw IoError.
Proof.
  destruct (record_loop_total (S (length (d_input r))) r) as [res Hres]; [lia|].
  rewrite (nextAllocationRecord_of_loop _ _ _ Hres).
  by destruct res as [[a|[]| |] r'].
Qed.

(** C5: when the reader meets a FRAME_INDEX record whose frame id is
    already in the frame table (whatever the names and line it carries),
    [nextAllocationRecord] throws [std::runtime_error] out to its caller,
    leaving the table as it was; this is not the end-of-stream result. *)
Theorem duplicate_frame_id_throws r id function_name filename parent_lineno
    (bs rest : list byte) :
  is_Some (d_frame_map r !! id) →
  encodes (RFrameIndex id function_name filename parent_lineno) bs →
  d_input r = bs ++ rest →
  nextAllocationRecord r =
    (Throw (runtime_error "Two entries with the same ID found!"), with_input rest r)
  ∧ fst (nextAllocationRecord r) ≠ Ret None.
Proof.
  intros Hdup Henc Hin.
  apply encodes_frame_index_inv in Henc
    as (tag & id_bs & fn_bs & file_bs & line_bs & -> & Htag & Hid & Hfn & Hfile & Hline).
  assert (nextAllocationRecord r =
    (Throw (runtime_error "Two entries with the same ID found!"), with_input rest r))
    as Hcall.
  { rewrite <- !app_assoc in Hin.
    pose proof (record_step_tag _ _ _ _ Htag Hin) as Hstep. simpl in Hstep.
    erewrite bind_throw_l in Hstep; cycle 1.
    { by eapply (parseFrameIndex_duplicate id function_name filename parent_lineno). }
    by rewrite (nextAllocationRecord_of_step _ _ _ Hstep). }
  by rewrite Hcall.
Qed.

(** C3 (where the code departs from the claim): a POP for a thread whose
    stack is empty is guarded by an [assert], not by a throw.  With
    assertions compiled in, [nextAllocationRecord] ends there by an
    assertion failure (the process aborts); built with [NDEBUG] the guard
    is gone and [pop_back] runs on the empty vector, which has no defined
    behaviour.  In neither build does an exception reach the caller.  The
    record has been consumed and the lookup has created the (empty) stack
    of the thread. *)
Theorem pop_on_empty_stack_never_throws r e (bs rest : list byte) :
  FrameSeqEntry.action e = Some POP →
  stack_of (FrameSeqEntry.tid e) r = [] →
  encodes (RFrame e) bs →
  d_input r = bs ++ rest →
  nextAllocationRecord r =
    (if NDEBUG then Undefined else AssertFail,
     with_stack_traces (<[FrameSeqEntry.tid e := []]> (d_stack_traces r))
       (with_input rest r))
  ∧ ∀ ex, fst (nextAllocationRecord r) ≠ Throw ex.
Proof.
  intros Hact Hempty Henc Hin.
  apply encodes_frame_inv in Henc as (tag & payload & -> & Htag & Hpay).
  rewrite <- app_assoc in Hin.
  pose proof (record_step_tag _ _ _ _ Htag Hin) as Hstep. simpl in Hstep.
  unfold bind in Hstep at 1.
  erewrite parseFrame_pop_empty in Hstep by done.
  assert (nextAllocationRecord r =
    (if NDEBUG then Undefined else AssertFail,
     with_stack_traces (<[FrameSeqEntry.tid e := []]> (d_stack_traces r))
       (with_input rest r))) as Hcall.
  { destruct NDEBUG; by rewrite (nextAllocationRecord_of_step _ _ _ Hstep). }
  split; [exact Hcall|]. intros ex. rewrite Hcall. by destruct NDEBUG.
Qed.
End Failures.

(** ** Allocations on a thread without a stack; segment headers *)
Section Allocation_records.
Context `{Layout} `{Build} `{Collaborators}.

Lemma getAllocationFrameIndex_no_stack record r :
  d_stack_traces r !! AllocationRecord.tid record = None →
  getAllocationFrameIndex record r = (Ret 0, r).
Proof.
  intros Hnone. unfold getAllocationFrameIndex, bind, gets. by rewrite Hnone.
Qed.

Lemma dispatch_allocation record (payload rest : list byte) r :
  is_wire AllocationRecord_wire record payload → d_input r = payload ++ rest →
  dispatch (Some ALLOCATION) r =
    (let* f_index := getAllocationFrameIndex record in
     let* generation :=
       gets (λ r, SymbolResolver.currentSegmentGeneration (d_symbol_resolver r)) in
     ret (Some (Allocation.mk record f_index generation))) (with_input rest r).
Proof. intros Hw Hin. unfold dispatch, parseAllocationRecord. by read_step. Qed.

Lemma Py_GetStackFrame_root r max_stacks : Py_GetStackFrame r 0 max_stacks = Ret [].
Proof. reflexivity. Qed.

(** An ALLOCATION record for a thread without an entry in the stack table:
    trace index 0, and nothing but the input moves. *)
Lemma allocation_without_stack_step r record (bs rest : list byte) :
  d_stack_traces r !! AllocationRecord.tid record = None →
  encodes (RAllocation record) bs →
  d_input r = bs ++ rest →
  record_step r =
    (Ret (Some (Allocation.mk record 0
                  (SymbolResolver.currentSegmentGeneration (d_symbol_resolver r)))),
     with_input rest r)
  ∧ nextAllocationRecord r =
    (Ret (Some (Allocation.mk record 0
                  (SymbolResolver.currentSegmentGeneration (d_symbol_resolver r)))),
     with_input rest r).
Proof.
  intros Hnone Henc Hin.
  apply encodes_allocation_inv in Henc as (tag & payload & -> & Htag & Hpay).
  rewrite <- app_assoc in Hin.
  pose proof (record_step_tag _ _ _ _ Htag Hin) as Hstep.
  erewrite dispatch_allocation in Hstep by done.
  unfold bind in Hstep at 1.
  rewrite getAllocationFrameIndex_no_stack in Hstep by done.
  split; [exact Hstep|].
  by rewrite (nextAllocationRecord_of_step _ _ _ Hstep).
Qed.

Lemma parseSegment_encoded seg (tag payload rest : list byte) r :
  is_wire RecordType_wire (Some SEGMENT) tag → is_wire Segment_wire seg payload →
  d_input r = tag ++ payload ++ rest →
  parseSegment r = (Ret seg, with_input rest r).
Proof.
  intros Htag Hpay Hin. unfold parseSegment. read_step.
  rewrite bool_decide_eq_true_2 by done. unfold bind at 1. rewrite cassert_true.
  etrans; [eapply read_as_wire; [done | reflexivity] | reflexivity].
Qed.

Lemma emplace_back_fits segments s r :
  N.of_nat (length segments) < Segment_vector_max_size →
  emplace_back segments s r = (Ret (segments ++ [s]), r).
Proof. intros Hfits. unfold emplace_back. by rewrite bool_decide_eq_false_2 by lia. Qed.

Lemma for_loop_parseSegment segments (body rest : list byte) acc r :
  encodes_segments segments body →
  N.of_nat (length acc + length segments) ≤ Segment_vector_max_size →
  d_input r = body ++ rest →
  for_loop (length segments)
    (λ segments, let* s := parseSegment in emplace_back segments s) acc r
  = (Ret (acc ++ segments), with_input rest r).
Proof.
  intros Henc. revert acc r.
  induction Henc as [|seg segs tag payload body Htag Hpay Henc IH];
    intros acc r Hfits Hin.
  - simpl in *. unfold ret. rewrite app_nil_r. f_equal.
    destruct r; simpl in *; by subst.
  - simpl in *. rewrite <- !app_assoc in Hin.
    erewrite bind_ret_l; cycle 1.
    { erewrite bind_ret_l by by eapply parseSegment_encoded.
      apply emplace_back_fits. lia. }
    rewrite IH; [by rewrite <- app_assoc | rewrite length_app; simpl; lia | done].
Qed.

(** The vector handed to [addSegments]: as many value-initialised
    segments as the header announces, then the segments parsed. *)
Lemma parseSegmentHeader_encoded filename addr segments
    (file_bs count_bs addr_bs body rest : list byte) r :
  is_cstring filename file_bs →
  is_wire size_t_wire (N.of_nat (length segments)) count_bs →
  is_wire uintptr_t_wire addr addr_bs →
  encodes_segments segments body →
  2 * N.of_nat (length segments) ≤ Segment_vector_max_size →
  d_input r = file_bs ++ count_bs ++ addr_bs ++ body ++ rest →
  parseSegmentHeader r =
    (Ret tt, with_symbol_resolver
       (SymbolResolver.addSegments filename addr
          (replicate (length segments) Segment.zero ++ segments) (d_symbol_resolver r))
       (with_input rest r)).
Proof.
  intros Hfile Hcount Haddr Hbody Hfits Hin. unfold parseSegmentHeader.
  do 3 read_step. rewrite bool_decide_eq_false_2 by lia. rewrite Nat2N.id.
  erewrite bind_ret_l; cycle 1.
  { eapply for_loop_parseSegment; [done | rewrite length_replicate; lia | done]. }
  reflexivity.
Qed.

(** C4 (where the code departs from the claim): on a SEGMENT_HEADER
    record announcing [n] segments the reader parses exactly the [n]
    SEGMENT sub-records that follow, but the vector it hands to
    [SymbolResolver::addSegments] holds [2 * n] entries: [n]
    value-initialised placeholders ([segments(num_segments)] sizes the
    vector instead of reserving it) and behind them the [n] parsed
    segments. *)
Theorem segment_header_registers_placeholders r filename addr segments
    (bs rest : list byte) :
  encodes (RSegmentHeader filename addr segments) bs →
  d_input r = bs ++ rest →
  let registered := replicate (length segments) Segment.zero ++ segments in
  record_step r =
    (Ret None,
     with_symbol_resolver
       (SymbolResolver.addSegments filename addr registered (d_symbol_resolver r))
       (with_input rest r))
  ∧ length registered = (2 * length segments)%nat.
Proof.
  intros Henc Hin registered. split.
  - apply encodes_segment_header_inv in Henc
      as (tag & file_bs & count_bs & addr_bs & body & -> & Htag & Hfile & Hcount
          & Haddr & Hbody & Hfits).
    rewrite <- !app_assoc in Hin.
    rewrite (record_step_tag _ _ _ _ Htag Hin). cbn [dispatch]. unfold bind at 1.
    by rewrite (parseSegmentHeader_encoded filename addr segments
                  file_bs count_bs addr_bs body rest) by done.
  - unfold registered. rewrite length_app, length_replicate. lia.
Qed.
End Allocation_records.

(** ** The header *)
Section Header.
Context `{Layout} `{Build} `{Collaborators}.

Lemma readHeader_magic_short source :
  (length source < length MAGIC)%nat →
  RecordReader_new source = (Throw IoError, starved (fresh_reader source)).
Proof.
  intros Hlen. unfold RecordReader_new, readHeader.
  erewrite bind_throw_l; [done|]. by apply read_short.
Qed.

Lemma readHeader_magic_differs source :
  magic_differs source →
  RecordReader_new source =
    (Throw (ios_failure
       "The provided input file does not look like a binary generated by pensieve."),
     with_header (HeaderRecord.with_magic (take (length MAGIC) source) HeaderRecord.empty)
       (fresh_reader (drop (length MAGIC) source))).
Proof.
  intros [Hlen Hne]. unfold RecordReader_new, readHeader, bind, read, Source.read.
  simpl. rewrite decide_True by done. simpl.
  by rewrite bool_decide_eq_false_2 by done.
Qed.

Lemma readHeader_version_short source :
  take (length MAGIC) source = MAGIC →
  (length (drop (length MAGIC) source) < sizeof version_wire)%nat →
  RecordReader_new source = (Throw IoError, starved (after_magic source)).
Proof.
  intros Hmagic Hlen.
  assert (length MAGIC ≤ length source)%nat
    by (rewrite <- Hmagic at 1; rewrite length_take; lia).
  unfold RecordReader_new, readHeader, bind at 1, read, Source.read.
  simpl. rewrite decide_True by done. unfold bind at 1. simpl.
  rewrite Hmagic, bool_decide_eq_true_2 by done. simpl.
  erewrite bind_throw_l; [done|]. by apply read_as_short.
Qed.

Lemma readHeader_version_differs source :
  version_differs source →
  RecordReader_new source =
    (Throw (ios_failure
       "The provided input file is incompatible with this version of pensieve."),
     with_header
       (HeaderRecord.with_version
          (decode version_wire (take (sizeof version_wire) (drop (length MAGIC) source)))
          (HeaderRecord.with_magic MAGIC HeaderRecord.empty))
       (fresh_reader (drop (sizeof version_wire) (drop (length MAGIC) source)))).
Proof.
  intros (Hmagic & Hlen & Hne).
  assert (length MAGIC ≤ length source)%nat
    by (rewrite <- Hmagic at 1; rewrite length_take; lia).
  unfold RecordReader_new, readHeader, bind at 1, read, Source.read.
  simpl. rewrite decide_True by done. unfold bind at 1. simpl.
  rewrite Hmagic, bool_decide_eq_true_2 by done. simpl.
  unfold bind at 1, read_as, bind at 1, read, Source.read. simpl.
  rewrite decide_True by done. simpl. unfold bind at 1. simpl.
  by rewrite bool_decide_eq_false_2 by done.
Qed.

Lemma returns_or_IoError_bind {A B} (m : M A) (k : A → M B) :
  returns_or_IoError m → (∀ a, returns_or_IoError (k a)) →
  returns_or_IoError (bind m k).
Proof.
  intros Hm Hk r. unfold bind. destruct (Hm r) as [[a Ha]|Ha];
    destruct (m r) as [[a'| | |] r']; simpl in *; try done.
  - apply Hk.
  - right. by injection Ha as ->.
Qed.

Lemma returns_or_IoError_read n : returns_or_IoError (read n).
Proof.
  intros r. unfold read. destruct (Source.read _ n (d_input r)) as [[bs|] rest]; eauto.
Qed.

Lemma returns_or_IoError_getline d : returns_or_IoError (getline d).
Proof.
  intros r. unfold getline.
  destruct (Source.getline _ d (d_input r)) as [[bs|] rest]; eauto.
Qed.

Lemma returns_or_IoError_read_as {A} (w : wire A) : returns_or_IoError (read_as w).
Proof.
  unfold read_as. apply returns_or_IoError_bind; [apply returns_or_IoError_read|].
  intros bs r. left. by eexists.
Qed.

Lemma returns_or_IoError_modify f : returns_or_IoError (modify f).
Proof. intros r. left. by eexists. Qed.

#[local] Instance same_magic_version_preorder : PreOrder same_magic_version.
Proof.
  split.
  - by intros r.
  - intros r1 r2 r3 [? ?] [? ?]. unfold same_magic_version. split; congruence.
Qed.

Lemma read_same_magic_version n : respects same_magic_version (read n).
Proof. intros r. pose proof (read_same_header n r) as Hh. split; by rewrite Hh. Qed.

Lemma getline_same_magic_version d : respects same_magic_version (getline d).
Proof. intros r. pose proof (getline_same_header d r) as Hh. split; by rewrite Hh. Qed.

Lemma read_enough n r :
  (n ≤ length (d_input r))%nat →
  read n r = (Ret (take n (d_input r)), with_input (drop n (d_input r)) r).
Proof. intros Hn. unfold read, Source.read. by rewrite decide_True by done. Qed.

(** With magic and version as supported, the rest of [readHeader] throws
    nothing but [IoError] and leaves both fields in place. *)
Lemma readHeader_accepted source :
  take (length MAGIC) source = MAGIC →
  (sizeof version_wire ≤ length (drop (length MAGIC) source))%nat →
  decode version_wire (take (sizeof version_wire) (drop (length MAGIC) source))
    = CURRENT_HEADER_VERSION →
  (fst (RecordReader_new source) = Ret tt ∨ fst (RecordReader_new source) = Throw IoError)
  ∧ HeaderRecord.magic (d_header (snd (RecordReader_new source))) = MAGIC
  ∧ HeaderRecord.version (d_header (snd (RecordReader_new source)))
    = CURRENT_HEADER_VERSION.
Proof.
  intros Hmagic Hlen Hver.
  assert (length MAGIC ≤ length source)%nat
    by (rewrite <- Hmagic at 1; rewrite length_take; lia).
  assert (∃ (tail : M unit) r0,
            RecordReader_new source = tail r0 ∧ returns_or_IoError tail ∧
            respects same_magic_version tail ∧
            HeaderRecord.magic (d_header r0) = MAGIC ∧
            HeaderRecord.version (d_header r0) = CURRENT_HEADER_VERSION)
    as (tail & r0 & -> & Hout & Hkeep & Hm & Hv).
  { do 2 eexists. split.
    - unfold RecordReader_new, readHeader.
      erewrite bind_ret_l by by apply read_enough.
      erewrite bind_ret_l by reflexivity.
      cbn [d_input fresh_reader]. rewrite Hmagic, bool_decide_eq_true_2 by done.
      cbn [negb]. unfold read_as at 1.
      erewrite bind_ret_l; cycle 1.
      { erewrite bind_ret_l by by apply read_enough. reflexivity. }
      erewrite bind_ret_l by reflexivity.
      cbn [d_input with_input with_header fresh_reader].
      rewrite Hver, bool_decide_eq_true_2 by done. cbn [negb]. reflexivity.
    - split; [|split; [|done]].
      + repeat first
          [ apply returns_or_IoError_read_as | apply returns_or_IoError_getline
          | apply returns_or_IoError_modify
          | apply returns_or_IoError_bind; [ | intros ? ] ].
      + repeat first
          [ apply read_same_magic_version
          | apply getline_same_magic_version
          | apply (respects_modify same_magic_version); intros ?; done
          | apply (respects_bind same_magic_version); [ | intros ? ] ]. }
  destruct (Hkeep r0) as [Hm' Hv'].
  split; [|split; congruence].
  destruct (Hout r0) as [[[] Ha]|Ha]; auto.
Qed.
End Header.

Lemma Source_getline_Some consumed d (s line rest : list byte) :
  Source.getline consumed d s = (Some line, rest) → s = line ++ d :: rest ∧ d ∉ line.
Proof.
  unfold Source.getline.
  destruct (Source.split_at d s) as [[line' rest']|] eqn:E; [|done].
  intros [= <- <-]. revert line' E.
  induction s as [|b s IH]; intros line' E; simpl in E; [done|].
  case_decide.
  - injection E as <- <-. subst. split; [done | apply not_elem_of_nil].
  - destruct (Source.split_at d s) as [[l r]|]; [|done].
    injection E as <- <-. destruct (IH l eq_refl) as [-> Hl].
    split; [done|]. apply not_elem_of_cons. by split.
Qed.

Section Header_success.
Context `{Layout} `{Collaborators}.

(** What a successful construction has read. *)
Lemma readHeader_success (source : Source.t) r :
  RecordReader_new source = (Ret tt, r) →
  ∃ version_bs native_bs stats_bs command_line,
    source = MAGIC ++ version_bs ++ native_bs ++ stats_bs ++ command_line
               ++ x00 :: d_input r
    ∧ is_wire version_wire CURRENT_HEADER_VERSION version_bs
    ∧ length native_bs = sizeof native_traces_wire
    ∧ length stats_bs = sizeof stats_wire
    ∧ (x00 ∉ command_line)
    ∧ d_header r =
        HeaderRecord.mk MAGIC CURRENT_HEADER_VERSION (decode native_traces_wire native_bs)
          (decode stats_wire stats_bs) command_line.
Proof.
  unfold RecordReader_new, readHeader, read_as, bind, read, getline, modify, throw, ret.
  simpl.
  destruct (Source.read _ (length MAGIC) source) as [[magic|] s1] eqn:E1; [|done].
  simpl. case_bool_decide as Hmagic; [|done]. simpl.
  destruct (Source.read _ (sizeof version_wire) s1) as [[version_bs|] s2] eqn:E2; [|done].
  simpl. case_bool_decide as Hver; [|done]. simpl.
  destruct (Source.read _ (sizeof native_traces_wire) s2) as [[native_bs|] s3] eqn:E3;
    [|done].
  simpl.
  destruct (Source.read _ (sizeof stats_wire) s3) as [[stats_bs|] s4] eqn:E4; [|done].
  simpl.
  destruct (Source.getline _ x00 s4) as [[command_line|] s5] eqn:E5; [|done].
  simpl. intros [= <-]. simpl.
  apply Source_read_Some in E1 as [-> _]. apply Source_read_Some in E2 as [-> Hl2].
  apply Source_read_Some in E3 as [-> Hl3]. apply Source_read_Some in E4 as [-> Hl4].
  apply Source_getline_Some in E5 as [-> Hcmd]. subst magic.
  exists version_bs, native_bs, stats_bs, command_line.
  rewrite Hver. by repeat split.
Qed.
End Header_success.

Section Header_claim.
Context `{Layout} `{Build} `{Collaborators}.

(** C6: constructing the reader ends in the format error
    ([std::ios_base::failure]) exactly when the magic bytes of the stream
    differ from [MAGIC] or, the magic matching, its version differs from
    [CURRENT_HEADER_VERSION]; at that point nothing beyond the magic and the
    version field has been consumed, so no record has been read.  When the
    constructor returns, the stream started with a header of supported
    magic and version, the stored header holds the fields parsed from it,
    and [getHeader], which does not touch the stream, gives that same
    header after any number of later decode calls. *)
Theorem header_validation (source : Source.t) :
  ((∃ what, fst (RecordReader_new source) = Throw (ios_failure what))
     ↔ magic_differs source ∨ version_differs source)
  ∧ ((∃ what, fst (RecordReader_new source) = Throw (ios_failure what)) →
       ∃ n, (n ≤ length MAGIC + sizeof version_wire)%nat ∧
            d_input (snd (RecordReader_new source)) = drop n source)
  ∧ (∀ r, RecordReader_new source = (Ret tt, r) →
       (∃ version_bs native_bs stats_bs command_line,
          source = MAGIC ++ version_bs ++ native_bs ++ stats_bs ++ command_line
                     ++ x00 :: d_input r
          ∧ is_wire version_wire CURRENT_HEADER_VERSION version_bs
          ∧ length native_bs = sizeof native_traces_wire
          ∧ length stats_bs = sizeof stats_wire
          ∧ (x00 ∉ command_line)
          ∧ getHeader r =
              HeaderRecord.mk MAGIC CURRENT_HEADER_VERSION
                (decode native_traces_wire native_bs) (decode stats_wire stats_bs)
                command_line)
       ∧ ∀ k, getHeader (snd (decode_calls k r)) = getHeader r).
Proof.
  assert (∀ s : Source.t, take (length MAGIC) s = MAGIC → (length MAGIC ≤ length s)%nat)
    as Hfull.
  { intros s Hs. rewrite <- Hs at 1. rewrite length_take. lia. }
  assert (∀ r, RecordReader_new source = (Ret tt, r) →
            (∃ version_bs native_bs stats_bs command_line,
               source = MAGIC ++ version_bs ++ native_bs ++ stats_bs ++ command_line
                          ++ x00 :: d_input r
               ∧ is_wire version_wire CURRENT_HEADER_VERSION version_bs
               ∧ length native_bs = sizeof native_traces_wire
               ∧ length stats_bs = sizeof stats_wire
               ∧ (x00 ∉ command_line)
               ∧ getHeader r =
                   HeaderRecord.mk MAGIC CURRENT_HEADER_VERSION
                     (decode native_traces_wire native_bs) (decode stats_wire stats_bs)
                     command_line)
            ∧ ∀ k, getHeader (snd (decode_calls k r)) = getHeader r) as Hsuccess.
  { intros r Hnew. split; [by apply readHeader_success|].
    intros k. apply decode_calls_same_header. }
  cut (((∃ what, fst (RecordReader_new source) = Throw (ios_failure what))
          ↔ magic_differs source ∨ version_differs source)
       ∧ ((∃ what, fst (RecordReader_new source) = Throw (ios_failure what)) →
            ∃ n, (n ≤ length MAGIC + sizeof version_wire)%nat ∧
                 d_input (snd (RecordReader_new source)) = drop n source)).
  { intros [Hiff Hconsumed]. split; [exact Hiff | split; [exact Hconsumed | exact Hsuccess]]. }
  clear Hsuccess.
  destruct (decide (length MAGIC ≤ length source)%nat) as [Hlen|Hlen].
  - destruct (decide (take (length MAGIC) source = MAGIC)) as [Hmagic|Hmagic].
    + destruct (decide (sizeof version_wire ≤ length (drop (length MAGIC) source))%nat)
        as [Hvlen|Hvlen].
      * destruct (decide (decode version_wire
                            (take (sizeof version_wire) (drop (length MAGIC) source))
                          = CURRENT_HEADER_VERSION)) as [Hver|Hver].
        -- (* accepted: the constructor returns or runs the source dry *)
           destruct (readHeader_accepted source Hmagic Hvlen Hver) as (Hout & _).
           split; [split|].
           ++ intros [what Hwhat]. destruct Hout as [Hout|Hout]; congruence.
           ++ intros [[_ Hne]|(_ & _ & Hne)]; done.
           ++ intros [what Hwhat]. destruct Hout as [Hout|Hout]; congruence.
        -- (* the version differs *)
           rewrite readHeader_version_differs by done. simpl.
           split; [split|].
           ++ intros _. by right.
           ++ intros _. by eexists.
           ++ intros _. exists (length MAGIC + sizeof version_wire)%nat.
              split; [lia|]. by rewrite drop_drop.
      * (* the stream ends inside the version field *)
        rewrite readHeader_version_short by (done || lia). simpl.
        split; [split|].
        -- by intros [what Hwhat].
        -- intros [[_ Hne]|(_ & Hl & _)]; [done | lia].
        -- by intros [what Hwhat].
    + (* the magic differs *)
      rewrite readHeader_magic_differs by done. simpl.
      split; [split|].
      * intros _. by left.
      * intros _. by eexists.
      * intros _. exists (length MAGIC). split; [lia | done].
  - (* the stream ends inside the magic *)
    rewrite readHeader_magic_short by lia. simpl.
    split; [split|].
    + by intros [what Hwhat].
    + intros [[Hl _]|(Hm & _ & _)]; [done | by apply Hfull in Hm].
    + by intros [what Hwhat].
Qed.
End Header_claim.

(** ** The stack walks *)

(** A loop guarded like the walks': the counter [cnt] is compared with
    [max] and bumped (modulo [m]) only while [idx] is not 0, and the body
    leaves the counter alone.  Started [k] short of [max], such a loop is
    left after at most [k] turns, whatever the body does to [idx]. *)
Section Bounded_loop.
Context {St : Type} (idx cnt : St → N) (m max : N).
Context (cond : St → bool * St) (body : St → outcome St).
Hypothesis cond_root : ∀ s, idx s = 0 → cond s = (false, s).
Hypothesis cond_step : ∀ s, idx s ≠ 0 →
  fst (cond s) = negb (bool_decide (cnt s = max)) ∧
  cnt (snd (cond s)) = (cnt s + 1) mod m ∧ idx (snd (cond s)) = idx s.
Hypothesis body_cnt : ∀ s s', body s = Ret s' → cnt s' = cnt s.
Hypothesis max_fits : max < m.

Lemma while_loop_bounded (k : nat) (s : St) :
  cnt s + N.of_nat k = max →
  ∃ o n, (∀ fuel, (k < fuel)%nat → while_loop fuel cond body s = Some (o, n))
         ∧ (n ≤ k)%nat
         ∧ ((∃ s', o = Ret s' ∧ (idx s' = 0 ∨ n = k))
            ∨ (∃ s0, body s0 = o ∧ ∀ s', o ≠ Ret s')).
Proof.
  revert s. induction k as [|k IH]; intros s Hcnt.
  - destruct (decide (idx s = 0)) as [Hroot|Hroot].
    + exists (Ret s), O. split; [|split; [lia|]].
      * intros [|fuel] Hfuel; [lia|]. simpl. by rewrite cond_root.
      * left. eauto.
    + destruct (cond_step s Hroot) as (Hb & _ & _).
      rewrite bool_decide_eq_true_2 in Hb by lia. simpl in Hb.
      destruct (cond s) as [b s1] eqn:Hcond. simpl in *. subst b.
      exists (Ret s1), O. split; [|split; [lia|]].
      * intros [|fuel] Hfuel; [lia|]. simpl. by rewrite Hcond.
      * left. eauto.
  - destruct (decide (idx s = 0)) as [Hroot|Hroot].
    + exists (Ret s), O. split; [|split; [lia|]].
      * intros [|fuel] Hfuel; [lia|]. simpl. by rewrite cond_root.
      * left. eauto.
    + destruct (cond_step s Hroot) as (Hb & Hc & _).
      rewrite bool_decide_eq_false_2 in Hb by lia. simpl in Hb.
      rewrite N.mod_small in Hc by lia.
      destruct (cond s) as [b s1] eqn:Hcond. simpl in *. subst b.
      destruct (body s1) as [s2| | |] eqn:Hbody.
      * destruct (IH s2) as (o & n & Hrun & Hn & Hstop).
        { rewrite (body_cnt _ _ Hbody). lia. }
        exists o, (S n). split; [|split; [lia|]].
        -- intros [|fuel] Hfuel; [lia|]. simpl. rewrite Hcond, Hbody.
           by rewrite Hrun by lia.
        -- destruct Hstop as [(s' & -> & Hs')|Hfault]; [|by right].
           left. exists s'. split; [done|]. destruct Hs'; [by left | right; lia].
      * exists (Throw e), 1%nat. split; [|split; [lia|]].
        -- intros [|fuel] Hfuel; [lia|]. simpl. by rewrite Hcond, Hbody.
        -- right. by exists s1.
      * exists AssertFail, 1%nat. split; [|split; [lia|]].
        -- intros [|fuel] Hfuel; [lia|]. simpl. by rewrite Hcond, Hbody.
        -- right. by exists s1.
      * exists Undefined, 1%nat. split; [|split; [lia|]].
        -- intros [|fuel] Hfuel; [lia|]. simpl. by rewrite Hcond, Hbody.
        -- right. by exists s1.
Qed.
End Bounded_loop.

Section Walks.
Context `{Layout} `{Build} `{Collaborators}.

Lemma walk_cond_root {A} max_stacks (w : walk A) :
  current_index w = 0 → walk_cond max_stacks w = (false, w).
Proof. intros Hroot. unfold walk_cond. by rewrite bool_decide_eq_false_2 by naive_solver. Qed.

Lemma walk_cond_step {A} max_stacks (w : walk A) :
  current_index w ≠ 0 →
  walk_cond max_stacks w =
    (negb (bool_decide (stacks_obtained w = max_stacks)),
     mkWalk (current_index w) ((stacks_obtained w + 1) mod size_t_modulus) (list_ w)).
Proof. intros Hroot. unfold walk_cond. by rewrite bool_decide_eq_true_2 by done. Qed.

Lemma Py_GetStackFrame_body_counter r s s' :
  Py_GetStackFrame_body r s = Ret s' →
  stacks_obtained (fst s') = stacks_obtained (fst s).
Proof.
  destruct s as [w current_lineno]. unfold Py_GetStackFrame_body.
  destruct (FrameTree.nextNode _ _) as [node|]; [|done].
  destruct (d_frame_map r !! _) as [frame|]; [|done].
  by intros [= <-].
Qed.

Lemma Py_GetNativeStackFrame_body_counter r generation w w' :
  Py_GetNativeStackFrame_body r generation w = Ret w' →
  stacks_obtained w' = stacks_obtained w.
Proof.
  unfold Py_GetNativeStackFrame_body.
  destruct (d_native_frames r !! _) as [frame|]; [|done].
  destruct (SymbolResolver.resolve _ _ _ _); by intros [= <-].
Qed.

Lemma chain_links_length depth frames index :
  (length (chain_links depth frames index) ≤ depth)%nat.
Proof.
  revert index. induction depth as [|depth IH]; intros index; simpl; [lia|].
  case_bool_decide; simpl; [lia|].
  destruct (frames !! _) as [frame|]; simpl; [|lia].
  specialize (IH (UnresolvedNativeFrame.index frame)). lia.
Qed.

Lemma tree_frames_length depth r index :
  (length (tree_frames depth r index) ≤ depth)%nat.
Proof.
  revert index. induction depth as [|depth IH]; intros index; simpl; [lia|].
  case_bool_decide; simpl; [lia|].
  destruct (FrameTree.nextNode _ _) as [node|]; simpl; [|lia].
  destruct (d_frame_map r !! _) as [frame|]; simpl; [|lia].
  specialize (IH (FrameTree.parent_index node)). lia.
Qed.

(** Links that stay inside the tables lead to the sentinel or on for as
    long as the depth allows. *)
Lemma chain_closed depth frames index :
  links_in_table frames → index ≤ N.of_nat (length frames) →
  chain_end depth frames index = 0 ∨ length (chain_links depth frames index) = depth.
Proof.
  intros Htable. revert index. induction depth as [|depth IH]; intros index Hindex.
  - by right.
  - simpl. case_bool_decide; [by left|].
    destruct (lookup_lt_is_Some_2 frames (N.to_nat (index - 1))) as [frame Hframe];
      [lia|].
    rewrite Hframe.
    destruct (IH (UnresolvedNativeFrame.index frame)) as [Hend|Hlen].
    + unfold links_in_table in Htable. rewrite Forall_forall in Htable.
      apply Htable. by eapply list_elem_of_lookup_2.
    + by left.
    + right. simpl. by rewrite Hlen.
Qed.

Lemma tree_closed_end depth r index :
  tree_closed r → in_tree r index →
  tree_end depth r index = 0 ∨ length (tree_frames depth r index) = depth.
Proof.
  intros Hclosed. revert index. induction depth as [|depth IH]; intros index Hindex.
  - by right.
  - simpl. case_bool_decide as Hroot; [by left|].
    destruct Hindex as [Hindex|[node Hnode]]; [done|]. rewrite Hnode.
    destruct (Hclosed index node Hroot Hnode) as [[frame Hframe] Hparent].
    rewrite Hframe.
    destruct (IH (FrameTree.parent_index node) Hparent) as [Hend|Hlen].
    + by left.
    + right. simpl. by rewrite Hlen.
Qed.

(** One turn of a loop, by what the guard and the body give. *)
Lemma while_loop_stop {St} fuel (cond : St → bool * St) body s s1 :
  cond s = (false, s1) → while_loop (S fuel) cond body s = Some (Ret s1, O).
Proof. intros Hcond. simpl. by rewrite Hcond. Qed.

Lemma while_loop_turn {St} fuel (cond : St → bool * St) body s s1 s2 :
  cond s = (true, s1) → body s1 = Ret s2 →
  while_loop (S fuel) cond body s
  = match while_loop fuel cond body s2 with
    | Some (o, n) => Some (o, S n)
    | None => None
    end.
Proof. intros Hcond Hbody. simpl. by rewrite Hcond, Hbody. Qed.

Lemma while_loop_fault {St} fuel (cond : St → bool * St) body s s1 o :
  cond s = (true, s1) → body s1 = o → (∀ s2, o ≠ Ret s2) →
  while_loop (S fuel) cond body s = Some (o, 1%nat).
Proof.
  intros Hcond Hbody Hfault. simpl. rewrite Hcond, Hbody.
  destruct o as [s2| | |]; [by destruct (Hfault s2)|done..].
Qed.

Lemma Py_GetNativeStackFrame_body_link r generation w frame :
  d_native_frames r !! N.to_nat (current_index w - 1) = Some frame →
  Py_GetNativeStackFrame_body r generation w
  = Ret (mkWalk (UnresolvedNativeFrame.index frame) (stacks_obtained w)
           (list_ w ++ link_frames r generation frame)).
Proof.
  intros Hframe. unfold Py_GetNativeStackFrame_body, link_frames. rewrite Hframe.
  destruct (SymbolResolver.resolve _ _ _ _) as [resolved_frames|]; simpl; [done|].
  by rewrite app_nil_r.
Qed.

(** The native loop, from any state of its variables and over any chain
    table: what it does is read off the table by [chain_links] and
    [chain_end]. *)
Lemma native_loop_exact r generation max_stacks (k : nat) (w : walk ResolvedFrame) :
  max_stacks < size_t_modulus →
  stacks_obtained w + N.of_nat k = max_stacks →
  let links := chain_links k (d_native_frames r) (current_index w) in
  let last_index := chain_end k (d_native_frames r) (current_index w) in
  (last_index = 0 ∨ length links = k →
   ∃ w',
     (∀ fuel, (k < fuel)%nat →
        while_loop fuel (walk_cond max_stacks) (Py_GetNativeStackFrame_body r generation) w
        = Some (Ret w', length links))
     ∧ current_index w' = last_index
     ∧ list_ w' = list_ w ++ flat_map (link_frames r generation) links)
  ∧ (last_index ≠ 0 → (length links < k)%nat →
     d_native_frames r !! N.to_nat (last_index - 1) = None
     ∧ ∀ fuel, (k < fuel)%nat →
         while_loop fuel (walk_cond max_stacks) (Py_GetNativeStackFrame_body r generation) w
         = Some (Undefined, S (length links))).
Proof.
  intros Hmax. revert w. induction k as [|k IH]; intros w Hcnt; cbn zeta.
  - cbn [chain_links chain_end length flat_map]. split; [|lia].
    intros _. destruct (decide (current_index w = 0)) as [Hroot|Hroot].
    + exists w. split; [|by rewrite app_nil_r].
      intros [|fuel] Hfuel; [lia|]. apply while_loop_stop. by apply walk_cond_root.
    + exists (mkWalk (current_index w)
                ((stacks_obtained w + 1) mod size_t_modulus) (list_ w)).
      split; [|by rewrite app_nil_r].
      intros [|fuel] Hfuel; [lia|]. apply while_loop_stop.
      rewrite walk_cond_step by done. by rewrite bool_decide_eq_true_2 by lia.
  - cbn [chain_links chain_end].
    destruct (decide (current_index w = 0)) as [Hroot|Hroot].
    + rewrite bool_decide_eq_true_2 by done. split; [|done].
      intros _. exists w. split; [|by rewrite app_nil_r].
      intros [|fuel] Hfuel; [lia|]. apply while_loop_stop. by apply walk_cond_root.
    + rewrite bool_decide_eq_false_2 by done.
      assert (walk_cond max_stacks w
              = (true, mkWalk (current_index w)
                         ((stacks_obtained w + 1) mod size_t_modulus) (list_ w)))
        as Hcond.
      { rewrite walk_cond_step by done. by rewrite bool_decide_eq_false_2 by lia. }
      destruct (d_native_frames r !! N.to_nat (current_index w - 1))
        as [frame|] eqn:Hframe.
      * pose proof (Py_GetNativeStackFrame_body_link r generation
                      (mkWalk (current_index w)
                         ((stacks_obtained w + 1) mod size_t_modulus) (list_ w))
                      frame Hframe) as Hbody.
        cbn [current_index stacks_obtained list_] in Hbody.
        destruct (IH (mkWalk (UnresolvedNativeFrame.index frame)
                        ((stacks_obtained w + 1) mod size_t_modulus)
                        (list_ w ++ link_frames r generation frame)))
          as [Hreturns Hfaults].
        { simpl. rewrite N.mod_small by lia. lia. }
        cbn [current_index list_] in Hreturns, Hfaults. cbn [length flat_map].
        split.
        -- intros Hstop. destruct Hreturns as (w' & Hrun & Hindex & Hlist); [lia|].
           exists w'. split; [|split; [done|]].
           ++ intros [|fuel] Hfuel; [lia|].
              rewrite (while_loop_turn _ _ _ _ _ _ Hcond Hbody).
              by rewrite Hrun by lia.
           ++ by rewrite Hlist, app_assoc.
        -- intros Hne Hlen. destruct Hfaults as [Hnone Hrun]; [done|lia|].
           split; [done|]. intros [|fuel] Hfuel; [lia|].
           rewrite (while_loop_turn _ _ _ _ _ _ Hcond Hbody).
           by rewrite Hrun by lia.
      * cbn [length flat_map]. split; [intros [?|?]; done|].
        intros _ _. split; [done|]. intros [|fuel] Hfuel; [lia|].
        apply (while_loop_fault _ _ _ _ _ _ Hcond); [|done].
        unfold Py_GetNativeStackFrame_body. cbn [current_index]. by rewrite Hframe.
Qed.

(** The Python loop likewise, by [tree_frames] and [tree_end]. *)
Lemma python_loop_exact r max_stacks (k : nat) (w : walk (Frame.t * Z))
    (current_lineno : Z) :
  max_stacks < size_t_modulus →
  stacks_obtained w + N.of_nat k = max_stacks →
  let frames := tree_frames k r (current_index w) in
  let last_index := tree_end k r (current_index w) in
  (last_index = 0 ∨ length frames = k →
   ∃ s,
     (∀ fuel, (k < fuel)%nat →
        while_loop fuel (Py_GetStackFrame_cond max_stacks) (Py_GetStackFrame_body r)
          (w, current_lineno)
        = Some (Ret s, length frames))
     ∧ current_index (fst s) = last_index
     ∧ list_ (fst s) = list_ w ++ walk_entries current_lineno frames)
  ∧ (last_index ≠ 0 → (length frames < k)%nat →
     ∃ o,
       (∀ fuel, (k < fuel)%nat →
          while_loop fuel (Py_GetStackFrame_cond max_stacks) (Py_GetStackFrame_body r)
            (w, current_lineno)
          = Some (o, S (length frames)))
       ∧ match FrameTree.nextNode (d_tree r) last_index with
         | None => o = Undefined
         | Some node =>
             d_frame_map r !! FrameTree.frame_id node = None ∧ o = Throw out_of_range
         end).
Proof.
  intros Hmax. revert w current_lineno.
  induction k as [|k IH]; intros w current_lineno Hcnt; cbn zeta.
  - cbn [tree_frames tree_end length walk_entries]. split; [|lia].
    intros _. destruct (decide (current_index w = 0)) as [Hroot|Hroot].
    + exists (w, current_lineno). split; [|by rewrite app_nil_r].
      intros [|fuel] Hfuel; [lia|]. apply while_loop_stop.
      unfold Py_GetStackFrame_cond. cbn [fst snd]. by rewrite walk_cond_root.
    + exists (mkWalk (current_index w)
                ((stacks_obtained w + 1) mod size_t_modulus) (list_ w),
              current_lineno).
      split; [|by rewrite app_nil_r].
      intros [|fuel] Hfuel; [lia|]. apply while_loop_stop.
      unfold Py_GetStackFrame_cond. cbn [fst snd].
      rewrite walk_cond_step by done. by rewrite bool_decide_eq_true_2 by lia.
  - cbn [tree_frames tree_end].
    destruct (decide (current_index w = 0)) as [Hroot|Hroot].
    + rewrite bool_decide_eq_true_2 by done. split; [|done].
      intros _. exists (w, current_lineno). split; [|by rewrite app_nil_r].
      intros [|fuel] Hfuel; [lia|]. apply while_loop_stop.
      unfold Py_GetStackFrame_cond. cbn [fst snd]. by rewrite walk_cond_root.
    + rewrite bool_decide_eq_false_2 by done.
      assert (Py_GetStackFrame_cond max_stacks (w, current_lineno)
              = (true, (mkWalk (current_index w)
                          ((stacks_obtained w + 1) mod size_t_modulus) (list_ w),
                        current_lineno)))
        as Hcond.
      { unfold Py_GetStackFrame_cond. cbn [fst snd].
        rewrite walk_cond_step by done. by rewrite bool_decide_eq_false_2 by lia. }
      destruct (FrameTree.nextNode (d_tree r) (current_index w)) as [node|] eqn:Hnode;
        [destruct (d_frame_map r !! FrameTree.frame_id node) as [frame|] eqn:Hframe|].
      * assert (Py_GetStackFrame_body r
                  (mkWalk (current_index w)
                     ((stacks_obtained w + 1) mod size_t_modulus) (list_ w),
                   current_lineno)
                = Ret (mkWalk (FrameTree.parent_index node)
                         ((stacks_obtained w + 1) mod size_t_modulus)
                         (list_ w ++ [(frame, current_lineno)]),
                       Frame.parent_lineno frame)) as Hbody.
        { unfold Py_GetStackFrame_body. cbn [current_index]. by rewrite Hnode, Hframe. }
        destruct (IH (mkWalk (FrameTree.parent_index node)
                        ((stacks_obtained w + 1) mod size_t_modulus)
                        (list_ w ++ [(frame, current_lineno)]))
                    (Frame.parent_lineno frame))
          as [Hreturns Hfaults].
        { simpl. rewrite N.mod_small by lia. lia. }
        cbn [current_index list_] in Hreturns, Hfaults. cbn [length walk_entries].
        split.
        -- intros Hstop. destruct Hreturns as (s & Hrun & Hindex & Hlist); [lia|].
           exists s. split; [|split; [done|]].
           ++ intros [|fuel] Hfuel; [lia|].
              rewrite (while_loop_turn _ _ _ _ _ _ Hcond Hbody).
              by rewrite Hrun by lia.
           ++ by rewrite Hlist, <- app_assoc.
        -- intros Hne Hlen. destruct Hfaults as (o & Hrun & Hwhy); [done|lia|].
           exists o. split; [|done]. intros [|fuel] Hfuel; [lia|].
           rewrite (while_loop_turn _ _ _ _ _ _ Hcond Hbody).
           by rewrite Hrun by lia.
      * cbn [length]. split; [intros [?|?]; done|].
        intros _ _. exists (Throw out_of_range). rewrite Hnode. split; [|done].
        intros [|fuel] Hfuel; [lia|].
        apply (while_loop_fault _ _ _ _ _ _ Hcond); [|done].
        unfold Py_GetStackFrame_body. cbn [current_index]. by rewrite Hnode, Hframe.
      * cbn [length]. split; [intros [?|?]; done|].
        intros _ _. exists Undefined. rewrite Hnode. split; [|done].
        intros [|fuel] Hfuel; [lia|].
        apply (while_loop_fault _ _ _ _ _ _ Hcond); [|done].
        unfold Py_GetStackFrame_body. cbn [current_index]. by rewrite Hnode.
Qed.

(** C8 (as the code has it): what the two walks do on any reader state,
    cyclic or dangling links included, from any starting index and under
    any depth bound that is a [size_t].  The links a walk follows are read
    off the tables: from [index] toward the root, until the 0 sentinel, a
    link that leads outside the tables, or [max_stacks] links, whichever
    comes first.  There are at most [max_stacks] of them.  A walk whose
    links reach the sentinel or the bound leaves its loop having followed
    exactly those links, stands at the sentinel or has followed
    [max_stacks] links, and has collected their frames; any fuel above
    [max_stacks] gives this result.  A walk whose links lead outside the
    tables before that faults at the offending link, one turn after the
    last good one: the Python walk by undefined behaviour where the tree
    has no such node and by [std::out_of_range] where the frame table does
    not know the frame of the node, the native walk by undefined behaviour.
    So on link data that stays inside the tables, cyclic or not, both walks
    return. *)
Theorem walks_follow_links r (index generation max_stacks : N) :
  max_stacks < size_t_modulus →
  let depth := N.to_nat max_stacks in
  let frames := tree_frames depth r index in
  let python_end := tree_end depth r index in
  let links := chain_links depth (d_native_frames r) index in
  let native_end := chain_end depth (d_native_frames r) index in
  ((length frames ≤ depth)%nat
   ∧ (python_end = 0 ∨ length frames = depth →
      Py_GetStackFrame r index max_stacks = Ret (walk_entries (-1) frames)
      ∧ ∃ s, (∀ fuel, (depth < fuel)%nat →
                Py_GetStackFrame_loop fuel r index max_stacks
                = Some (Ret s, length frames))
             ∧ current_index (fst s) = python_end
             ∧ list_ (fst s) = walk_entries (-1) frames)
   ∧ (python_end ≠ 0 → (length frames < depth)%nat →
      match FrameTree.nextNode (d_tree r) python_end with
      | None =>
          Py_GetStackFrame r index max_stacks = Undefined
          ∧ ∀ fuel, (depth < fuel)%nat →
              Py_GetStackFrame_loop fuel r index max_stacks
              = Some (Undefined, S (length frames))
      | Some node =>
          d_frame_map r !! FrameTree.frame_id node = None
          ∧ Py_GetStackFrame r index max_stacks = Throw out_of_range
          ∧ ∀ fuel, (depth < fuel)%nat →
              Py_GetStackFrame_loop fuel r index max_stacks
              = Some (Throw out_of_range, S (length frames))
      end)
   ∧ (tree_closed r → in_tree r index →
      Py_GetStackFrame r index max_stacks = Ret (walk_entries (-1) frames)))
  ∧ ((length links ≤ depth)%nat
     ∧ (native_end = 0 ∨ length links = depth →
        Py_GetNativeStackFrame r index generation max_stacks
        = Ret (flat_map (link_frames r generation) links)
        ∧ ∃ w, (∀ fuel, (depth < fuel)%nat →
                  Py_GetNativeStackFrame_loop fuel r index generation max_stacks
                  = Some (Ret w, length links))
               ∧ current_index w = native_end
               ∧ list_ w = flat_map (link_frames r generation) links)
     ∧ (native_end ≠ 0 → (length links < depth)%nat →
        d_native_frames r !! N.to_nat (native_end - 1) = None
        ∧ Py_GetNativeStackFrame r index generation max_stacks = Undefined
        ∧ ∀ fuel, (depth < fuel)%nat →
            Py_GetNativeStackFrame_loop fuel r index generation max_stacks
            = Some (Undefined, S (length links)))
     ∧ (links_in_table (d_native_frames r) →
        index ≤ N.of_nat (length (d_native_frames r)) →
        Py_GetNativeStackFrame r index generation max_stacks
        = Ret (flat_map (link_frames r generation) links))).
Proof.
  intros Hmax depth frames python_end links native_end.
  destruct (python_loop_exact r max_stacks depth (mkWalk index 0 []) (-1)%Z Hmax)
    as [Hpy_returns Hpy_faults]; [simpl; lia|].
  destruct (native_loop_exact r generation max_stacks depth (mkWalk index 0 []) Hmax)
    as [Hnat_returns Hnat_faults]; [simpl; lia|].
  cbn [current_index list_ app] in *.
  fold frames python_end in Hpy_returns, Hpy_faults.
  fold links native_end in Hnat_returns, Hnat_faults.
  assert (python_end = 0 ∨ length frames = depth →
          Py_GetStackFrame r index max_stacks = Ret (walk_entries (-1) frames))
    as Hpy.
  { intros Hstop. destruct (Hpy_returns Hstop) as (s & Hrun & _ & Hlist).
    unfold Py_GetStackFrame, Py_GetStackFrame_loop.
    fold depth. rewrite Hrun by lia. by rewrite Hlist. }
  assert (native_end = 0 ∨ length links = depth →
          Py_GetNativeStackFrame r index generation max_stacks
          = Ret (flat_map (link_frames r generation) links)) as Hnat.
  { intros Hstop. destruct (Hnat_returns Hstop) as (w & Hrun & _ & Hlist).
    unfold Py_GetNativeStackFrame, Py_GetNativeStackFrame_loop.
    fold depth. rewrite Hrun by lia. by rewrite Hlist. }
  split; (split; [|split; [|split]]).
  - apply tree_frames_length.
  - intros Hstop. split; [by apply Hpy|]. by apply Hpy_returns.
  - intros Hne Hlen. destruct (Hpy_faults Hne Hlen) as (o & Hrun & Hwhy).
    unfold Py_GetStackFrame, Py_GetStackFrame_loop. fold depth. rewrite Hrun by lia.
    destruct (FrameTree.nextNode (d_tree r) python_end) as [node|].
    + destruct Hwhy as [Hframe ->]. by repeat split.
    + subst o. by split.
  - intros Hclosed Hindex. apply Hpy. by apply tree_closed_end.
  - apply chain_links_length.
  - intros Hstop. split; [by apply Hnat|]. by apply Hnat_returns.
  - intros Hne Hlen. destruct (Hnat_faults Hne Hlen) as [Hnone Hrun].
    split; [done|]. split; [|exact Hrun].
    unfold Py_GetNativeStackFrame, Py_GetNativeStackFrame_loop. fold depth.
    by rewrite Hrun by lia.
  - intros Htable Hindex. apply Hnat. by apply chain_closed.
Qed.
End Walks.

Section Native_walk.
Context `{Layout} `{Build} `{Collaborators}.

Lemma native_loop_links r generation max_stacks (k : nat) (w : walk ResolvedFrame) :
  max_stacks < size_t_modulus →
  links_in_table (d_native_frames r) →
  current_index w ≤ N.of_nat (length (d_native_frames r)) →
  stacks_obtained w + N.of_nat k = max_stacks →
  ∃ w',
    while_loop (S k) (walk_cond max_stacks) (Py_GetNativeStackFrame_body r generation) w
      = Some (Ret w', length (chain_links k (d_native_frames r) (current_index w)))
    ∧ list_ w' = list_ w ++
        flat_map (link_frames r generation)
          (chain_links k (d_native_frames r) (current_index w)).
Proof.
  intros Hmax Htable. revert w. induction k as [|k IH]; intros w Hidx Hcnt.
  - cbn [while_loop chain_links flat_map length]. rewrite app_nil_r.
    destruct (decide (current_index w = 0)) as [Hroot|Hroot].
    + rewrite walk_cond_root by done. eauto.
    + rewrite walk_cond_step by done.
      rewrite bool_decide_eq_true_2 by lia. simpl. eauto.
  - destruct (decide (current_index w = 0)) as [Hroot|Hroot].
    + cbn [while_loop chain_links]. rewrite walk_cond_root by done.
      rewrite bool_decide_eq_true_2 by done. simpl. rewrite app_nil_r. eauto.
    + cbn [chain_links]. rewrite bool_decide_eq_false_2 by done.
      remember (S k) as fuel eqn:Hfuel. cbn [while_loop]. subst fuel.
      rewrite walk_cond_step by done.
      rewrite bool_decide_eq_false_2 by lia. cbn [negb].
      destruct (lookup_lt_is_Some_2 (d_native_frames r)
                  (N.to_nat (current_index w - 1))) as [frame Hframe]; [lia|].
      unfold Py_GetNativeStackFrame_body at 1. cbn [current_index]. rewrite Hframe.
      assert (UnresolvedNativeFrame.index frame ≤ N.of_nat (length (d_native_frames r)))
        as Hnext.
      { unfold links_in_table in Htable. rewrite Forall_forall in Htable.
        apply Htable. by eapply list_elem_of_lookup_2. }
      set (out := link_frames r generation frame).
      destruct (IH (mkWalk (UnresolvedNativeFrame.index frame)
                      ((stacks_obtained w + 1) mod size_t_modulus) (list_ w ++ out)))
        as (w' & Hrun & Hlist).
      { done. }
      { simpl. rewrite N.mod_small by lia. lia. }
      cbn [current_index list_ stacks_obtained] in Hrun, Hlist.
      exists w'. split.
      * unfold out, link_frames in Hrun.
        destruct (SymbolResolver.resolve _ _ _ _) as [resolved_frames|];
          unfold default in Hrun; cbn [from_option id list_ stacks_obtained] in *.
        -- by rewrite Hrun.
        -- rewrite app_nil_r in Hrun. by rewrite Hrun.
      * rewrite Hlist. cbn [flat_map]. by rewrite app_assoc.
Qed.

(** C10: on a chain table whose links stay inside the table, the native
    walk returns the frames of the links it follows, concatenated in order.
    The links followed are those reached from [index] within [max_stacks]
    steps, read off the table without consulting the resolver, so a link
    counts against the bound whether or not it resolves; a link the
    resolver knows nothing about adds no frame ([link_frames] is empty for
    it) and one that resolves to several inlined frames adds them all. *)
Theorem native_walk_output r (index generation max_stacks : N) :
  max_stacks < size_t_modulus →
  links_in_table (d_native_frames r) →
  index ≤ N.of_nat (length (d_native_frames r)) →
  let links := chain_links (N.to_nat max_stacks) (d_native_frames r) index in
  Py_GetNativeStackFrame r index generation max_stacks
    = Ret (flat_map (link_frames r generation) links)
  ∧ (∃ w, Py_GetNativeStackFrame_loop (S (N.to_nat max_stacks)) r index generation
            max_stacks = Some (Ret w, length links))
  ∧ (length links ≤ N.to_nat max_stacks)%nat
  ∧ (∀ frame, SymbolResolver.resolve symbolize (d_symbol_resolver r)
                (UnresolvedNativeFrame.ip frame) generation = None →
              link_frames r generation frame = []).
Proof.
  intros Hmax Htable Hindex links.
  destruct (native_loop_links r generation max_stacks (N.to_nat max_stacks)
              (mkWalk index 0 [])) as (w & Hrun & Hlist); try done.
  { simpl. lia. }
  cbn [current_index list_ app] in Hrun, Hlist. fold links in Hrun, Hlist.
  split; [|split; [|split]].
  - unfold Py_GetNativeStackFrame, Py_GetNativeStackFrame_loop. by rewrite Hrun, Hlist.
  - by exists w.
  - apply chain_links_length.
  - intros frame Hnone. unfold link_frames. by rewrite Hnone.
Qed.
End Native_walk.

(** ** Line correction *)
Section Correction.
Context `{Layout} `{Build} `{Collaborators}.

Lemma correctAllocationFrame_empty tid lineno r :
  stack_of tid r = [] → correctAllocationFrame tid lineno r = (Ret tt, r).
Proof.
  intros Hempty. unfold correctAllocationFrame, bind, gets. by rewrite Hempty.
Qed.

(** The reader [correctAllocationFrame] leaves behind when the top of the
    stack names a frame of the table. *)
Lemma correctAllocationFrame_top tid lineno r stack back partial_frame :
  d_stack_traces r !! tid = Some stack →
  last stack = Some back →
  d_frame_map r !! back = Some partial_frame →
  let allocation_frame :=
    Frame.mk (Frame.function_name partial_frame) (Frame.filename partial_frame)
      (Frame.parent_lineno partial_frame) lineno in
  let found := FrameCollection.getIndex mint allocation_frame (d_allocation_frames r) in
  ∃ r1,
    correctAllocationFrame tid lineno r = (Ret tt, r1)
    ∧ d_input r1 = d_input r
    ∧ d_stack_traces r1 = <[tid := set_back (fst (snd found)) stack]> (d_stack_traces r)
    ∧ d_allocation_frames r1 = fst found
    ∧ d_frame_map r1 =
        (if snd (snd found)
         then match d_frame_map r !! fst (snd found) with
              | Some _ => d_frame_map r
              | None => <[fst (snd found) := allocation_frame]> (d_frame_map r)
              end
         else d_frame_map r)
    ∧ d_tree r1 = d_tree r
    ∧ d_native_frames r1 = d_native_frames r
    ∧ d_symbol_resolver r1 = d_symbol_resolver r.
Proof.
  intros Hstack Hlast Hframe allocation_frame found.
  unfold correctAllocationFrame, bind at 1, gets.
  unfold stack_of at 1. rewrite Hstack. simpl. rewrite Hlast.
  unfold bind at 1. rewrite Hframe.
  fold allocation_frame. unfold bind at 1. fold found.
  destruct found as [c [allocation_index is_new_frame]] eqn:Hfound. simpl.
  destruct is_new_frame.
  - unfold bind, frame_map_insert, modify, ret, stack_of. simpl.
    destruct (d_frame_map r !! allocation_index); simpl; rewrite Hstack;
      eexists; (split; [reflexivity|]); simpl; by repeat split.
  - unfold bind, modify, ret, stack_of. simpl. rewrite Hstack.
    eexists; (split; [reflexivity|]); simpl; by repeat split.
Qed.

Lemma getAllocationFrameIndex_stack record r stack r1 :
  d_stack_traces r !! AllocationRecord.tid record = Some stack →
  correctAllocationFrame (AllocationRecord.tid record)
    (AllocationRecord.py_lineno record) r = (Ret tt, r1) →
  getAllocationFrameIndex record r =
    (Ret (snd (FrameTree.getTraceIndex (d_tree r1)
                 (stack_of (AllocationRecord.tid record) r1))),
     with_tree (fst (FrameTree.getTraceIndex (d_tree r1)
                       (stack_of (AllocationRecord.tid record) r1))) r1).
Proof.
  intros Hstack Hcorrect. unfold getAllocationFrameIndex, bind at 1, gets.
  rewrite Hstack. unfold bind. rewrite Hcorrect.
  by destruct (FrameTree.getTraceIndex _ _).
Qed.

(** An ALLOCATION record for a thread whose top frame is in the table. *)
Lemma allocation_rewrites_top r record (bs rest : list byte) stack back partial_frame :
  d_stack_traces r !! AllocationRecord.tid record = Some stack →
  last stack = Some back →
  d_frame_map r !! back = Some partial_frame →
  encodes (RAllocation record) bs →
  d_input r = bs ++ rest →
  let allocation_frame :=
    Frame.mk (Frame.function_name partial_frame) (Frame.filename partial_frame)
      (Frame.parent_lineno partial_frame) (AllocationRecord.py_lineno record) in
  let found := FrameCollection.getIndex mint allocation_frame (d_allocation_frames r) in
  let stack' := set_back (fst (snd found)) stack in
  ∃ r',
    record_step r =
      (Ret (Some (Allocation.mk record (snd (FrameTree.getTraceIndex (d_tree r) stack'))
                    (SymbolResolver.currentSegmentGeneration (d_symbol_resolver r)))), r')
    ∧ d_input r' = rest
    ∧ d_stack_traces r' = <[AllocationRecord.tid record := stack']> (d_stack_traces r)
    ∧ d_allocation_frames r' = fst found
    ∧ d_frame_map r' =
        (if snd (snd found)
         then match d_frame_map r !! fst (snd found) with
              | Some _ => d_frame_map r
              | None => <[fst (snd found) := allocation_frame]> (d_frame_map r)
              end
         else d_frame_map r)
    ∧ d_tree r' = fst (FrameTree.getTraceIndex (d_tree r) stack')
    ∧ d_native_frames r' = d_native_frames r
    ∧ d_symbol_resolver r' = d_symbol_resolver r.
Proof.
  intros Hstack Hlast Hframe Henc Hin allocation_frame found stack'.
  apply encodes_allocation_inv in Henc as (tag & payload & -> & Htag & Hpay).
  rewrite <- app_assoc in Hin.
  rewrite (record_step_tag _ _ _ _ Htag Hin).
  erewrite dispatch_allocation by (done || reflexivity).
  destruct (correctAllocationFrame_top (AllocationRecord.tid record)
              (AllocationRecord.py_lineno record)
              (with_input rest (with_input (payload ++ rest) r))
              stack back partial_frame Hstack Hlast Hframe)
    as (r1 & Hcorrect & Hi & Hs & Hc & Hm & Ht & Hn & Hr).
  cbv zeta in Hs, Hc, Hm.
  cbn [d_allocation_frames with_input d_stack_traces d_frame_map d_input d_tree
       d_native_frames d_symbol_resolver] in Hi, Hs, Hc, Hm, Ht, Hn, Hr.
  fold allocation_frame found in Hs, Hc, Hm. fold stack' in Hs.
  unfold bind at 1.
  erewrite getAllocationFrameIndex_stack by (exact Hstack || exact Hcorrect).
  unfold bind, gets, ret.
  assert (stack_of (AllocationRecord.tid record) r1 = stack') as ->
    by (unfold stack_of; by rewrite Hs, lookup_insert_eq).
  rewrite Ht. eexists. split; [by cbn [d_symbol_resolver with_tree]; rewrite Hr|].
  cbn [with_tree d_input d_stack_traces d_allocation_frames d_frame_map d_tree
       d_native_frames d_symbol_resolver].
  by repeat split.
Qed.

Lemma FrameCollection_find_elem_of frame c id :
  FrameCollection.find frame c = Some id → (frame, id) ∈ c.
Proof.
  induction c as [|[f i] c IH]; simpl; [done|].
  case_decide; [intros [= <-]; subst; left | intros Hf; right; by apply IH].
Qed.

(** C2 (as the code has it): when an allocation is processed for a thread
    whose stack is not empty and whose top frame is in the frame table, the
    top of the stored stack is overwritten with the precise frame
    identifier and stays overwritten once decode_next has returned: the
    thread's stack is the old one with its last entry replaced (the other
    threads keep theirs), the returned trace index is that of the rewritten
    stack, and the rewritten top names a frame of the table, from which
    the next allocation on this thread will be corrected. *)
Theorem correction_persists r record (bs rest : list byte) stack back partial_frame :
  precise_frames_registered r →
  d_stack_traces r !! AllocationRecord.tid record = Some stack →
  last stack = Some back →
  d_frame_map r !! back = Some partial_frame →
  encodes (RAllocation record) bs →
  d_input r = bs ++ rest →
  let precise :=
    Frame.mk (Frame.function_name partial_frame) (Frame.filename partial_frame)
      (Frame.parent_lineno partial_frame) (AllocationRecord.py_lineno record) in
  let allocation_index :=
    fst (snd (FrameCollection.getIndex mint precise (d_allocation_frames r))) in
  ∃ allocation r',
    nextAllocationRecord r = (Ret (Some allocation), r')
    ∧ Allocation.record allocation = record
    ∧ Allocation.frame_index allocation
      = snd (FrameTree.getTraceIndex (d_tree r) (removelast stack ++ [allocation_index]))
    ∧ d_stack_traces r' !! AllocationRecord.tid record
      = Some (removelast stack ++ [allocation_index])
    ∧ (∀ tid, tid ≠ AllocationRecord.tid record →
              d_stack_traces r' !! tid = d_stack_traces r !! tid)
    ∧ last (removelast stack ++ [allocation_index]) = Some allocation_index
    ∧ is_Some (d_frame_map r' !! allocation_index).
Proof.
  intros Hreg Hstack Hlast Hframe Henc Hin precise allocation_index.
  destruct (allocation_rewrites_top r record bs rest stack back partial_frame
              Hstack Hlast Hframe Henc Hin)
    as (r' & Hstep & _ & Hstacks & Hcoll & Hmap & _).
  cbv zeta in Hstep, Hstacks, Hcoll, Hmap. fold precise in Hstep, Hstacks, Hcoll, Hmap.
  fold allocation_index in Hstep, Hstacks, Hmap.
  eexists _, r'. split; [|split; [|split; [|split; [|split; [|split]]]]].
  - by rewrite (nextAllocationRecord_of_step _ _ _ Hstep).
  - done.
  - done.
  - by rewrite Hstacks, lookup_insert_eq.
  - intros tid Htid. by rewrite Hstacks, lookup_insert_ne.
  - apply last_snoc.
  - rewrite Hmap. unfold allocation_index.
    unfold FrameCollection.getIndex.
    destruct (FrameCollection.find precise (d_allocation_frames r)) as [id|] eqn:Hfind.
    + simpl. eapply Hreg. by apply FrameCollection_find_elem_of.
    + simpl. destruct (d_frame_map r !! mint _) eqn:E; [by rewrite E|].
      by rewrite lookup_insert_eq.
Qed.
End Correction.

(** ** The reader follows the protocol *)
Section Simulation_steps.
Context `{Layout} `{Build} `{Collaborators}.

Lemma Forall2_removelast {A B} (R : A → B → Prop) l g :
  Forall2 R l g → Forall2 R (removelast l) (removelast g).
Proof.
  induction 1 as [|x y l g Hxy Hlg IH]; simpl; [constructor|].
  destruct Hlg; [constructor|]. by constructor.
Qed.

Lemma Forall2_last {A B} (R : A → B → Prop) l g x :
  Forall2 R l g → last l = Some x → ∃ y, last g = Some y ∧ R x y.
Proof.
  induction 1 as [|x' y l g Hxy Hlg IH]; [done|].
  destruct Hlg as [|x'' y'' l g].
  - simpl. intros [= <-]. eauto.
  - intros Hlast. apply IH. by rewrite <- Hlast.
Qed.

Lemma Forall2_set_back {A} (R R' : N → A → Prop) l g back x :
  Forall2 R l g → last l = Some back →
  (∀ c y, R c y → R' c y) → (∀ y, R' x y) →
  Forall2 R' (set_back x l) g.
Proof.
  intros Hlg Hlast Hmono Hx. unfold set_back.
  destruct (Forall2_last _ _ _ _ Hlg Hlast) as (y & Hy & _).
  apply last_Some in Hy as [g' ->].
  apply Forall2_app.
  - rewrite <- (removelast_last g' y).
    eapply Forall2_impl; [by apply Forall2_removelast | done].
  - constructor; [apply Hx | constructor].
Qed.

Lemma stack_of_insert tid tid' stack r r' :
  d_stack_traces r' = <[tid := stack]> (d_stack_traces r) →
  stack_of tid' r' = if decide (tid = tid') then stack else stack_of tid' r.
Proof.
  intros Hs. unfold stack_of. rewrite Hs, lookup_insert.
  by case_decide.
Qed.

Lemma Protocol_stack_of_insert tid tid' stack stacks defined :
  Protocol.stack_of tid' (Protocol.mk (<[tid := stack]> stacks) defined)
  = if decide (tid = tid') then stack
    else Protocol.stack_of tid' (Protocol.mk stacks defined).
Proof.
  unfold Protocol.stack_of. simpl. rewrite lookup_insert. by case_decide.
Qed.

(** Readers with the same stacks, frames and precise frames simulate the
    same protocol states. *)
Lemma simulates_tables p r r' :
  d_stack_traces r' = d_stack_traces r → d_frame_map r' = d_frame_map r →
  d_allocation_frames r' = d_allocation_frames r →
  simulates p r → simulates p r'.
Proof.
  intros Hs Hm Hc (Hdom & Hstk & Hdef & Hsrc & Hreg).
  unfold simulates, precise_frames_registered, stack_of in *.
  rewrite Hs, Hm, Hc. done.
Qed.

Lemma simulates_stack_nonempty p r tid :
  simulates p r → Protocol.stack_of tid p ≠ [] → stack_of tid r ≠ [].
Proof.
  intros (_ & Hstk & _) Hne Hempty. specialize (Hstk tid).
  rewrite Hempty in Hstk. by inversion Hstk.
Qed.

Lemma simulates_push p r r' tid frame_id :
  simulates p r →
  d_stack_traces r' = <[tid := stack_of tid r ++ [frame_id]]> (d_stack_traces r) →
  d_frame_map r' = d_frame_map r →
  d_allocation_frames r' = d_allocation_frames r →
  simulates (Protocol.mk (<[tid := Protocol.stack_of tid p ++ [frame_id]]>
                            (Protocol.stacks p)) (Protocol.defined p)) r'.
Proof.
  intros (Hdom & Hstk & Hdef & Hsrc & Hreg) Hs Hm Hc.
  split; [|split; [|split; [|split]]].
  - intros t. simpl. rewrite Hs, !lookup_insert. case_decide; [done | apply Hdom].
  - intros t. rewrite (stack_of_insert _ _ _ _ _ Hs), Protocol_stack_of_insert, Hm.
    case_decide.
    + apply Forall2_app; [destruct p; apply Hstk|]. constructor; [by left | constructor].
    + destruct p; apply Hstk.
  - simpl. by rewrite Hm.
  - simpl. by rewrite Hm.
  - unfold precise_frames_registered. by rewrite Hc, Hm.
Qed.

Lemma simulates_pop p r r' tid :
  simulates p r →
  d_stack_traces r' = <[tid := removelast (stack_of tid r)]> (d_stack_traces r) →
  d_frame_map r' = d_frame_map r →
  d_allocation_frames r' = d_allocation_frames r →
  simulates (Protocol.mk (<[tid := removelast (Protocol.stack_of tid p)]>
                            (Protocol.stacks p)) (Protocol.defined p)) r'.
Proof.
  intros (Hdom & Hstk & Hdef & Hsrc & Hreg) Hs Hm Hc.
  split; [|split; [|split; [|split]]].
  - intros t. simpl. rewrite Hs, !lookup_insert. case_decide; [done | apply Hdom].
  - intros t. rewrite (stack_of_insert _ _ _ _ _ Hs), Protocol_stack_of_insert, Hm.
    case_decide.
    + apply Forall2_removelast. destruct p; apply Hstk.
    + destruct p; apply Hstk.
  - simpl. by rewrite Hm.
  - simpl. by rewrite Hm.
  - unfold precise_frames_registered. by rewrite Hc, Hm.
Qed.

Lemma simulates_define p r r' id frame :
  simulates p r →
  d_stack_traces r' = d_stack_traces r →
  d_frame_map r' = <[id := frame]> (d_frame_map r) →
  d_allocation_frames r' = d_allocation_frames r →
  simulates (Protocol.mk (Protocol.stacks p) ({[id]} ∪ Protocol.defined p)) r'.
Proof.
  intros (Hdom & Hstk & Hdef & Hsrc & Hreg) Hs Hm Hc.
  assert (∀ c, is_Some (d_frame_map r !! c) → is_Some (d_frame_map r' !! c)) as Hgrow.
  { intros c Hc'. rewrite Hm, lookup_insert. by case_decide. }
  split; [|split; [|split; [|split]]].
  - intros t. simpl. rewrite Hs. apply Hdom.
  - intros t. unfold stack_of. rewrite Hs.
    eapply Forall2_impl; [destruct p; apply Hstk|].
    intros c g [->|Hin]; [by left | right; by apply Hgrow].
  - simpl. intros c [->%elem_of_singleton|Hin]%elem_of_union.
    + by rewrite Hm, lookup_insert_eq.
    + by apply Hgrow, Hdef.
  - simpl. intros c. rewrite Hm, lookup_insert. case_decide.
    + subst. intros _. left. by apply elem_of_union_l, elem_of_singleton.
    + intros Hin. destruct (Hsrc c Hin) as [?|?]; [left; by apply elem_of_union_r | by right].
  - unfold precise_frames_registered. rewrite Hc. intros f i Hfi. apply Hgrow; by eapply Hreg.
Qed.

(** The reader after a correction: the top of one stack is rewritten to
    the identifier [found] holds, which is registered if it is new. *)
Lemma simulates_correct p r r' tid stack back allocation_frame :
  simulates p r →
  d_stack_traces r !! tid = Some stack → last stack = Some back →
  let found := FrameCollection.getIndex mint allocation_frame (d_allocation_frames r) in
  d_stack_traces r' = <[tid := set_back (fst (snd found)) stack]> (d_stack_traces r) →
  d_allocation_frames r' = fst found →
  d_frame_map r' =
    (if snd (snd found)
     then match d_frame_map r !! fst (snd found) with
          | Some _ => d_frame_map r
          | None => <[fst (snd found) := allocation_frame]> (d_frame_map r)
          end
     else d_frame_map r) →
  simulates p r'.
Proof.
  intros (Hdom & Hstk & Hdef & Hsrc & Hreg) Hstack Hlast found Hs Hc Hm.
  assert (∀ c, is_Some (d_frame_map r !! c) → is_Some (d_frame_map r' !! c)) as Hgrow.
  { intros c Hc'. rewrite Hm. destruct (snd (snd found)); [|done].
    destruct (d_frame_map r !! fst (snd found)); [done|].
    rewrite lookup_insert. by case_decide. }
  assert (is_Some (d_frame_map r' !! fst (snd found))) as Hidx.
  { rewrite Hm. subst found. unfold FrameCollection.getIndex in *.
    destruct (FrameCollection.find allocation_frame (d_allocation_frames r))
      as [id|] eqn:Hfind; simpl.
    - eapply Hreg. by apply FrameCollection_find_elem_of.
    - destruct (d_frame_map r !! mint _) eqn:E; [by rewrite E|].
      by rewrite lookup_insert_eq. }
  split; [|split; [|split; [|split]]].
  - intros t. rewrite Hs, lookup_insert. case_decide; [|apply Hdom].
    subst t. split; [done|]. intros Hnone. apply Hdom in Hnone. congruence.
  - intros t. rewrite (stack_of_insert _ _ _ _ _ Hs). case_decide.
    + subst t. specialize (Hstk tid). unfold stack_of in Hstk at 1.
      rewrite Hstack in Hstk. simpl in Hstk.
      eapply Forall2_set_back; [exact Hstk | exact Hlast | | ].
      * intros c g [->|Hin]; [by left | right; by apply Hgrow].
      * intros g. by right.
    + eapply Forall2_impl; [apply Hstk|].
      intros c g [->|Hin]; [by left | right; by apply Hgrow].
  - intros c Hc'. by apply Hgrow, Hdef.
  - intros c. rewrite Hm. subst found. unfold FrameCollection.getIndex.
    destruct (FrameCollection.find allocation_frame (d_allocation_frames r)); simpl;
      [apply Hsrc|].
    destruct (d_frame_map r !! mint _) eqn:E; [apply Hsrc|].
    rewrite lookup_insert. case_decide; [|apply Hsrc].
    intros _. right. by eexists.
  - unfold precise_frames_registered. rewrite Hc. subst found.
    unfold FrameCollection.getIndex in *.
    destruct (FrameCollection.find allocation_frame (d_allocation_frames r)); simpl in *.
    + intros f i Hfi. apply Hgrow; by eapply Hreg.
    + intros f i [Hfi|Hfi]%elem_of_app.
      * apply Hgrow; by eapply Hreg.
      * apply list_elem_of_singleton in Hfi as [= -> ->]. exact Hidx.
Qed.
End Simulation_steps.

Section Trace_decoding.
Context `{Layout} `{Build} `{Collaborators}.

(** One turn of the loop on the image of a record the protocol allows:
    the turn ends normally, consumes exactly the record, keeps the reader in
    step with the protocol, and returns an allocation when, and only when,
    the record is an ALLOCATION. *)
Lemma record_step_simulates p r rec (bs rest : list byte) :
  simulates p r → Protocol.ok mint p rec → encodes rec bs → d_input r = bs ++ rest →
  ∃ o r',
    record_step r = (Ret o, r') ∧ d_input r' = rest
    ∧ simulates (Protocol.next p rec) r'
    ∧ match rec with
      | RAllocation a =>
          ∃ alloc, o = Some alloc ∧ Allocation.record alloc = a ∧
            (Protocol.stacks p !! AllocationRecord.tid a = None →
             Allocation.frame_index alloc = 0)
      | _ => o = None
      end.
Proof.
  intros Hsim Hok Henc Hin. destruct rec as [a|e|id fn file pl|frame| |file addr segs].
  - (* ALLOCATION *)
    destruct (d_stack_traces r !! AllocationRecord.tid a) as [stack|] eqn:Hstack.
    + destruct (last stack) as [back|] eqn:Hlast.
      * assert (is_Some (d_frame_map r !! back)) as [partial_frame Hpartial].
        { destruct Hsim as (_ & Hstk & Hdef & _).
          specialize (Hstk (AllocationRecord.tid a)). unfold stack_of in Hstk at 1.
          rewrite Hstack in Hstk. simpl in Hstk.
          destruct (Forall2_last _ _ _ _ Hstk Hlast) as (y & Hy & [->|Hin']); [|done].
          simpl in Hok. rewrite Hy in Hok. by apply Hdef. }
        destruct (allocation_rewrites_top r a bs rest stack back partial_frame
                    Hstack Hlast Hpartial Henc Hin)
          as (r' & Hstep & Hi & Hs & Hc & Hm & _).
        eexists _, r'. split; [exact Hstep|]. split; [done|]. split.
        -- simpl. by eapply simulates_correct.
        -- eexists. split; [done|]. split; [done|]. intros Hnone.
           destruct Hsim as (Hdom & _). apply Hdom in Hnone. congruence.
      * apply last_None in Hlast. subst stack.
        apply encodes_allocation_inv in Henc as (tag & payload & -> & Htag & Hpay).
        rewrite <- app_assoc in Hin.
        rewrite (record_step_tag _ _ _ _ Htag Hin).
        erewrite dispatch_allocation by (done || reflexivity).
        unfold bind at 1.
        erewrite getAllocationFrameIndex_stack; cycle 1.
        { exact Hstack. }
        { apply correctAllocationFrame_empty. unfold stack_of. simpl. by rewrite Hstack. }
        unfold stack_of. cbn [d_stack_traces with_input]. rewrite Hstack.
        unfold bind, gets, ret. simpl.
        eexists _, _. split; [reflexivity|]. split; [done|]. split.
        -- by apply (simulates_tables p r).
        -- eexists. by repeat split.
    + destruct (allocation_without_stack_step r a bs rest Hstack Henc Hin) as [Hstep _].
      eexists _, _. split; [exact Hstep|]. split; [done|]. split.
      * by apply (simulates_tables p r).
      * eexists. by repeat split.
  - (* FRAME *)
    apply encodes_frame_inv in Henc as (tag & payload & -> & Htag & Hpay).
    rewrite <- app_assoc in Hin.
    rewrite (record_step_tag _ _ _ _ Htag Hin). cbn [dispatch]. unfold bind at 1.
    simpl in Hok. unfold Protocol.next.
    destruct (FrameSeqEntry.action e) as [[]|] eqn:Hact.
    + erewrite parseFrame_push by (done || reflexivity).
      eexists _, _. split; [reflexivity|]. split; [done|]. split; [|done].
      by eapply simulates_push.
    + erewrite parseFrame_pop; [| done | reflexivity | done |]; cycle 1.
      { by apply (simulates_stack_nonempty p r). }
      eexists _, _. split; [reflexivity|]. split; [done|]. split; [|done].
      by eapply simulates_pop.
    + erewrite parseFrame_no_action by (done || reflexivity).
      eexists _, _. split; [reflexivity|]. split; [done|]. split; [|done].
      by apply (simulates_tables p r).
  - (* FRAME_INDEX *)
    apply encodes_frame_index_inv in Henc
      as (tag & id_bs & fn_bs & file_bs & line_bs & -> & Htag & Hid & Hfn & Hfile & Hline).
    rewrite <- !app_assoc in Hin.
    rewrite (record_step_tag _ _ _ _ Htag Hin). cbn [dispatch]. unfold bind at 1.
    destruct Hok as [Hnew Hmint].
    assert (d_frame_map r !! id = None) as Hfree.
    { destruct Hsim as (_ & _ & _ & Hsrc & _).
      destruct (d_frame_map r !! id) eqn:E; [|done].
      destruct (Hsrc id) as [?|[k Hk]]; [by rewrite E | done | by destruct (Hmint k)]. }
    rewrite (parseFrameIndex_fresh id fn file pl id_bs fn_bs file_bs line_bs rest)
      by done.
    eexists _, _. split; [reflexivity|]. split; [done|]. split; [|done].
    by eapply simulates_define.
  - (* NATIVE_TRACE_INDEX *)
    apply encodes_native_trace_index_inv in Henc as (tag & payload & -> & Htag & Hpay).
    rewrite <- app_assoc in Hin.
    rewrite (record_step_tag _ _ _ _ Htag Hin). cbn [dispatch]. unfold bind at 1.
    unfold parseNativeFrameIndex. read_step. unfold modify.
    eexists _, _. split; [reflexivity|]. split; [done|]. split; [|done].
    by apply (simulates_tables p r).
  - (* MEMORY_MAP_START *)
    apply encodes_memory_map_start_inv in Henc.
    assert (d_input r = bs ++ rest) as Hin' by done.
    rewrite (record_step_tag _ _ _ _ Henc Hin'). cbn [dispatch]. unfold bind, modify, ret.
    eexists _, _. split; [reflexivity|]. split; [done|]. split; [|done].
    by apply (simulates_tables p r).
  - (* SEGMENT_HEADER *)
    apply encodes_segment_header_inv in Henc
      as (tag & file_bs & count_bs & addr_bs & body & -> & Htag & Hfile & Hcount
          & Haddr & Hbody & Hfits).
    rewrite <- !app_assoc in Hin.
    rewrite (record_step_tag _ _ _ _ Htag Hin). cbn [dispatch]. unfold bind at 1.
    rewrite (parseSegmentHeader_encoded file addr segs file_bs count_bs addr_bs body rest)
      by done.
    eexists _, _. split; [reflexivity|]. split; [done|]. split; [|done].
    by apply (simulates_tables p r).
Qed.
End Trace_decoding.

Section Traces.
Context `{Layout} `{Build} `{Collaborators}.

Lemma encodes_trace_app recs1 recs2 (bytes : list byte) :
  encodes_trace (recs1 ++ recs2) bytes →
  ∃ b1 b2, bytes = b1 ++ b2 ∧ encodes_trace recs1 b1 ∧ encodes_trace recs2 b2.
Proof.
  revert bytes. induction recs1 as [|rec recs1 IH]; intros bytes Henc; simpl in *.
  - exists [], bytes. split; [done|]. split; [constructor | done].
  - inversion Henc as [|rec' recs' bs rest Hrec Hrest]; subst.
    destruct (IH _ Hrest) as (b1 & b2 & -> & Henc1 & Henc2).
    exists (bs ++ b1), b2. split; [by rewrite app_assoc|]. split; [by constructor | done].
Qed.

Lemma well_formed_app p recs1 recs2 :
  Protocol.well_formed mint p (recs1 ++ recs2) →
  Protocol.well_formed mint p recs1
  ∧ Protocol.well_formed mint (Protocol.after p recs1) recs2.
Proof.
  revert p. induction recs1 as [|rec recs1 IH]; intros p; simpl; [done|].
  intros [Hok Hwf]. destruct (IH _ Hwf). done.
Qed.

(** Turn by turn, the reader consumes a well-formed run of records and
    stays in step with the protocol. *)
Lemma after_turns_simulates p r recs (bs rest : list byte) :
  simulates p r → Protocol.well_formed mint p recs →
  encodes_trace recs bs → d_input r = bs ++ rest →
  simulates (Protocol.after p recs) (after_turns (length recs) r)
  ∧ d_input (after_turns (length recs) r) = rest.
Proof.
  intros Hsim Hwf Henc. revert p r Hsim Hwf.
  induction Henc as [|rec recs bs bs' Hrec Henc IH]; intros p r Hsim Hwf Hin.
  - done.
  - destruct Hwf as [Hok Hwf]. rewrite <- app_assoc in Hin.
    destruct (record_step_simulates p r rec bs (bs' ++ rest) Hsim Hok Hrec Hin)
      as (o & r' & Hstep & Hin' & Hsim' & _).
    simpl. rewrite Hstep. by apply IH.
Qed.

Lemma never_pushed_cons tid rec recs :
  Protocol.never_pushed tid (rec :: recs) → Protocol.never_pushed tid recs.
Proof. intros Hnp e He. apply Hnp. by right. Qed.

(** A thread no record pushes on has no stack: the POPs a well-formed
    trace holds for it would find its stack empty. *)
Lemma never_pushed_no_stack tid p recs :
  Protocol.stacks p !! tid = None →
  Protocol.well_formed mint p recs →
  Protocol.never_pushed tid recs →
  Protocol.stacks (Protocol.after p recs) !! tid = None.
Proof.
  revert p. induction recs as [|rec recs IH]; intros p Hnone Hwf Hnp; [done|].
  destruct Hwf as [Hok Hwf]. simpl.
  apply IH; [|done|by eapply never_pushed_cons].
  destruct rec as [a|e|id fn file pl|frame| |file addr segs]; try done.
  unfold Protocol.next. simpl in Hok.
  destruct (FrameSeqEntry.action e) as [[]|] eqn:Hact; [| |done].
  - simpl. rewrite lookup_insert_ne; [done|].
    intros Htid. by apply (Hnp e); [left|..].
  - simpl. rewrite lookup_insert_ne; [done|].
    intros Htid. apply Hok. unfold Protocol.stack_of. by rewrite Htid, Hnone.
Qed.

Lemma decode_calls_S k r :
  decode_calls (S k) r =
    match nextAllocationRecord r with
    | (Ret a, r') => let '(rest, r'') := decode_calls k r' in (Ret a :: rest, r'')
    | (o, r') => ([o], r')
    end.
Proof. reflexivity. Qed.

Lemma decode_calls_skip k r r1 :
  record_step r = (Ret None, r1) → decode_calls (S k) r = decode_calls (S k) r1.
Proof. intros Hstep. by rewrite !decode_calls_S, (nextAllocationRecord_skip _ _ Hstep). Qed.

(** Decoding a whole well-formed trace. *)
Lemma decode_calls_trace p r recs :
  simulates p r → Protocol.well_formed mint p recs →
  encodes_trace recs (d_input r) →
  ∃ allocs r',
    decode_calls (S (length allocs)) r
      = (map (λ a, Ret (Some a)) allocs ++ [Ret None], r')
    ∧ Protocol.decodes_to p recs allocs.
Proof.
  intros Hsim Hwf Henc. remember (d_input r) as bytes eqn:Hin.
  revert p r Hsim Hwf Hin.
  induction Henc as [|rec recs bs rest Hrec Henc IH]; intros p r Hsim Hwf Hin.
  - exists [], (starved r). split; [|done]. simpl.
    rewrite nextAllocationRecord_short_tag; [done|].
    rewrite <- Hin. simpl. apply sizeof_RecordType_pos.
  - destruct Hwf as [Hok Hwf]. symmetry in Hin.
    destruct (record_step_simulates p r rec bs rest Hsim Hok Hrec Hin)
      as (o & r1 & Hstep & Hin1 & Hsim1 & Hout).
    destruct (IH _ r1 Hsim1 Hwf (eq_sym Hin1)) as (allocs & r' & Hcalls & Hdec).
    destruct rec as [a|e|id fn file pl|frame| |file addr segs].
    + destruct Hout as (alloc & -> & Hrecord & Hzero).
      exists (alloc :: allocs), r'. split.
      * cbn [length]. rewrite decode_calls_S.
        rewrite (nextAllocationRecord_of_step _ _ _ Hstep) by done.
        cbn [catch_IoError]. by rewrite Hcalls.
      * simpl. by exists alloc, allocs.
    + subst o. exists allocs, r'. split; [|done].
      by rewrite (decode_calls_skip _ _ _ Hstep).
    + subst o. exists allocs, r'. split; [|done].
      by rewrite (decode_calls_skip _ _ _ Hstep).
    + subst o. exists allocs, r'. split; [|done].
      by rewrite (decode_calls_skip _ _ _ Hstep).
    + subst o. exists allocs, r'. split; [|done].
      by rewrite (decode_calls_skip _ _ _ Hstep).
    + subst o. exists allocs, r'. split; [|done].
      by rewrite (decode_calls_skip _ _ _ Hstep).
Qed.

Lemma decodes_to_records p recs allocs :
  Protocol.decodes_to p recs allocs →
  map Allocation.record allocs = allocation_records recs.
Proof.
  revert p allocs. induction recs as [|rec recs IH]; intros p allocs; simpl.
  - by intros ->.
  - destruct rec as [a|e|id fn file pl|frame| |file addr segs]; try apply IH.
    intros (alloc & allocs' & -> & <- & _ & Hdec). simpl. f_equal. by eapply IH.
Qed.

#[local] Instance same_tables_preorder : PreOrder same_tables.
Proof.
  split.
  - by intros r.
  - intros r1 r2 r3 (? & ? & ?) (? & ? & ?). unfold same_tables.
    repeat split; congruence.
Qed.

Lemma readHeader_same_tables : respects same_tables readHeader.
Proof.
  assert (∀ n, respects same_tables (read n)) as Hread.
  { intros n r. unfold read. by destruct (Source.read _ _ _) as [[?|] ?]. }
  assert (∀ d, respects same_tables (getline d)) as Hgetline.
  { intros d r. unfold getline. by destruct (Source.getline _ _ _) as [[?|] ?]. }
  unfold readHeader, read_as.
  repeat first
    [ apply Hread | apply Hgetline
    | apply (respects_ret same_tables) | apply (respects_throw same_tables)
    | apply (respects_modify same_tables); intros ?; done
    | apply (respects_bind same_tables); [ | intros ? ]
    | match goal with |- respects _ (if ?b then _ else _) => destruct b end ].
Qed.

Lemma RecordReader_new_simulates source o r :
  RecordReader_new source = (o, r) → simulates Protocol.initial r.
Proof.
  intros Hnew. pose proof (readHeader_same_tables (fresh_reader source)) as Hsame.
  unfold RecordReader_new in Hnew. rewrite Hnew in Hsame.
  destruct Hsame as (Hs & Hm & Hc). simpl in *.
  split; [|split; [|split; [|split]]].
  - intros tid. by rewrite Hs, !lookup_empty.
  - intros tid. unfold stack_of, Protocol.stack_of. rewrite Hs. simpl.
    rewrite !lookup_empty. constructor.
  - intros id Hid. simpl in Hid. by apply not_elem_of_empty in Hid.
  - intros id. rewrite Hm, lookup_empty. by intros [? ?].
  - unfold precise_frames_registered. rewrite Hc. intros f i Hfi.
    by apply not_elem_of_nil in Hfi.
Qed.

(** C1: for every well-formed trace behind a valid header, the calls to
    decode_next return one allocation per ALLOCATION record, carrying the
    records in the order of the stream, and the call after the last of
    them returns [false]: [length allocs + 1] successive calls yield
    [allocs] followed by the end-of-stream result, and the records of
    [allocs] are the ALLOCATION records of the trace. *)
Theorem decode_next_in_order (source : Source.t) r recs :
  RecordReader_new source = (Ret tt, r) →
  encodes_trace recs (d_input r) →
  Protocol.well_formed mint Protocol.initial recs →
  ∃ allocs r',
    decode_calls (S (length allocs)) r
      = (map (λ a, Ret (Some a)) allocs ++ [Ret None], r')
    ∧ map Allocation.record allocs = allocation_records recs.
Proof.
  intros Hnew Henc Hwf.
  destruct (decode_calls_trace Protocol.initial r recs) as (allocs & r' & Hcalls & Hdec);
    [by eapply RecordReader_new_simulates | done | done |].
  exists allocs, r'. split; [done | by eapply decodes_to_records].
Qed.

(** C7: in a trace that is well-formed up to an ALLOCATION record whose
    thread no earlier record pushed a frame on, the call made when the
    reader has consumed the records before it returns that allocation with
    trace index 0 and leaves the reader as it was but for the bytes of the
    record (no frame is looked up, minted or rewritten); and the Python walk
    from index 0 is empty for every depth bound. *)
Theorem allocation_on_unpushed_thread (source : Source.t) r prefix a suffix :
  RecordReader_new source = (Ret tt, r) →
  encodes_trace (prefix ++ RAllocation a :: suffix) (d_input r) →
  Protocol.well_formed mint Protocol.initial prefix →
  Protocol.never_pushed (AllocationRecord.tid a) prefix →
  let r1 := after_turns (length prefix) r in
  ∃ rest,
    nextAllocationRecord r1 =
      (Ret (Some (Allocation.mk a 0
                    (SymbolResolver.currentSegmentGeneration (d_symbol_resolver r1)))),
       with_input rest r1)
    ∧ encodes_trace suffix rest
    ∧ ∀ r2 max_stacks, Py_GetStackFrame r2 0 max_stacks = Ret [].
Proof.
  intros Hnew Henc Hwf Hnp r1.
  apply encodes_trace_app in Henc as (b1 & b2 & Hin & Hprefix & Hrest).
  inversion Hrest as [|rec recs bs rest Hrec Hsuffix]; subst.
  destruct (after_turns_simulates Protocol.initial r prefix b1 (bs ++ rest))
    as [Hsim Hin1]; [by eapply RecordReader_new_simulates | done | done | done |].
  fold r1 in Hsim, Hin1.
  assert (d_stack_traces r1 !! AllocationRecord.tid a = None) as Hnone.
  { destruct Hsim as (Hdom & _). apply Hdom. by apply never_pushed_no_stack. }
  destruct (allocation_without_stack_step r1 a bs rest Hnone Hrec Hin1) as [_ Hcall].
  exists rest. split; [done|]. split; [done|]. intros. apply Py_GetStackFrame_root.
Qed.
End Traces.

(** ** Streams cut inside a record *)
Section Truncation.
Context `{Layout} `{Build} `{Collaborators}.

Lemma Source_split_at_none d (s : list byte) : d ∉ s → Source.split_at d s = None.
Proof.
  induction s as [|b s IH]; intros Hd; simpl; [done|].
  rewrite decide_False by (intros ->; apply Hd; left).
  rewrite IH; [done|]. intros Hin. apply Hd. by right.
Qed.



Lemma starves_read_as {A} (w : wire A) r :
  (length (d_input r) < sizeof w)%nat → starves (read_as w) r.
Proof. intros Hlen. eexists. by apply read_as_short. Qed.

(** A fixed-size read from a stream cut after [n] bytes is served when
    the cut lies behind the value and fails otherwise. *)
Lemma read_as_prefix {A} (w : wire A) (a : A) (bs tail : list byte) n r :
  is_wire w a bs → d_input r = take n (bs ++ tail) →
  ((length bs ≤ n)%nat
   ∧ read_as w r = (Ret a, with_input (take (n - length bs) tail) r))
  ∨ ((n < length bs)%nat ∧ starves (read_as w) r).
Proof.
  intros Hw Hin. rewrite take_app in Hin.
  destruct (decide (length bs ≤ n)%nat) as [Hle|Hlt].
  - left. split; [done|]. rewrite take_ge in Hin by done. by eapply read_as_wire.
  - right. split; [lia|]. apply starves_read_as.
    destruct Hw as [<- _]. rewrite Hin, length_app, !length_take. lia.
Qed.

Lemma getline_prefix (s bs tail : list byte) n r :
  is_cstring s bs → d_input r = take n (bs ++ tail) →
  ((length bs ≤ n)%nat
   ∧ getline x00 r = (Ret s, with_input (take (n - length bs) tail) r))
  ∨ ((n < length bs)%nat ∧ starves (getline x00) r).
Proof.
  intros Hs Hin. rewrite take_app in Hin.
  destruct (decide (length bs ≤ n)%nat) as [Hle|Hlt].
  - left. split; [done|]. rewrite take_ge in Hin by done. by eapply getline_cstring.
  - right. split; [lia|]. destruct Hs as [Hs ->].
    rewrite length_app in Hlt. simpl in Hlt.
    replace (n - length (s ++ [x00]))%nat with 0%nat in Hin
      by (rewrite length_app; simpl; lia).
    rewrite take_0, app_nil_r, take_app in Hin.
    replace (n - length s)%nat with 0%nat in Hin by lia.
    rewrite take_0, app_nil_r in Hin.
    eexists. unfold getline, Source.getline. rewrite Hin, Source_split_at_none; [done|].
    intros Hin'. apply Hs. by apply (subseteq_take n s).
Qed.







End Truncation.

(** ** Tables that only grow

    The parsers write to the frame table through [insert]/[emplace] alone
    and to the chain table through [emplace_back] alone; a preorder that
    these two writes respect (next to the reads and the other assignments)
    is respected by a whole turn of the decode loop. *)
Section Appending_parsers.
Context `{Layout} `{Build} `{Collaborators}.
Context (R : relation RecordReader) `{!PreOrder R}.
Hypothesis R_read : ∀ n, respects R (read n).
Hypothesis R_getline : ∀ d, respects R (getline d).
Hypothesis R_stack_traces : ∀ x r, R r (with_stack_traces x r).
Hypothesis R_insert : ∀ id frame, respects R (frame_map_insert id frame).
Hypothesis R_allocation_frames : ∀ x r, R r (with_allocation_frames x r).
Hypothesis R_emplace_back :
  ∀ frame r, R r (with_native_frames (d_native_frames r ++ [frame]) r).
Hypothesis R_tree : ∀ x r, R r (with_tree x r).
Hypothesis R_symbol_resolver : ∀ x r, R r (with_symbol_resolver x r).

Ltac grows_tac leaf :=
  repeat first
    [ leaf
    | apply R_getline | apply R_insert
    | apply (read_as_respects R R_read)
    | apply (respects_ret R) | apply (respects_throw R) | apply (respects_gets R)
    | apply (respects_assert R)
    | apply (respects_modify R); intros ?;
        first [ apply R_stack_traces | apply R_allocation_frames
              | apply R_emplace_back | apply R_tree | apply R_symbol_resolver ]
    | apply (respects_bind R); [ | intros ? ] ].

Lemma parseFrameIndex_appends : respects R parseFrameIndex.
Proof.
  unfold parseFrameIndex. grows_tac fail.
  destruct a3; simpl; grows_tac fail.
Qed.

Lemma parseNativeFrameIndex_appends : respects R parseNativeFrameIndex.
Proof. unfold parseNativeFrameIndex. grows_tac fail. Qed.

Lemma correctAllocationFrame_appends tid lineno :
  respects R (correctAllocationFrame tid lineno).
Proof.
  unfold correctAllocationFrame. grows_tac fail.
  destruct (last a) as [back|]; grows_tac fail.
  destruct (a0 !! back) as [partial_frame|]; grows_tac fail.
  - intros r. destruct (FrameCollection.getIndex _ _ _) as [c res]. simpl.
    apply R_allocation_frames.
  - destruct a1 as [allocation_index is_new_frame]. grows_tac fail.
    destruct is_new_frame; grows_tac fail.
Qed.

Lemma getAllocationFrameIndex_appends record :
  respects R (getAllocationFrameIndex record).
Proof.
  unfold getAllocationFrameIndex. grows_tac fail.
  destruct (a !! AllocationRecord.tid record);
    grows_tac ltac:(apply correctAllocationFrame_appends).
  intros r. destruct (FrameTree.getTraceIndex _ _) as [tree index]. simpl.
  apply R_tree.
Qed.

Lemma dispatch_appends record_type : respects R (dispatch record_type).
Proof.
  unfold dispatch, parseAllocationRecord.
  destruct record_type as [[]|];
    grows_tac ltac:(first
      [ apply getAllocationFrameIndex_appends
      | apply (parseFrame_respects R R_read R_stack_traces)
      | apply parseFrameIndex_appends | apply parseNativeFrameIndex_appends
      | apply (parseSegmentHeader_respects R R_read R_getline R_symbol_resolver) ]).
Qed.

Lemma record_step_appends : respects R record_step.
Proof. unfold record_step. grows_tac ltac:(apply dispatch_appends). Qed.
End Appending_parsers.

(** What every turn respects, every call and every run of calls respects. *)
Section Calls_respect.
Context `{Layout} `{Build} `{Collaborators}.
Context (R : relation RecordReader) `{!PreOrder R}.
Hypothesis R_step : respects R record_step.

Lemma record_loop_respects fuel r res :
  record_loop fuel r = Some res → R r (snd res).
Proof.
  revert r. induction fuel as [|fuel IH]; intros r; [done|]. simpl.
  pose proof (R_step r) as Hstep.
  destruct (record_step r) as [[[a|]| | |] r'] eqn:Estep; simpl in Hstep;
    try (intros [= <-]; done).
  intros Hrun. etrans; [exact Hstep | by apply IH].
Qed.

Lemma nextAllocationRecord_respects : respects R nextAllocationRecord.
Proof.
  intros r.
  destruct (record_loop_total (S (length (d_input r))) r) as [res Hres]; [lia|].
  rewrite (nextAllocationRecord_of_loop _ _ _ Hres).
  apply record_loop_respects in Hres.
  by destruct res as [[a|[]| |] r'].
Qed.

Lemma decode_calls_respects k r : R r (snd (decode_calls k r)).
Proof.
  revert r. induction k as [|k IH]; intros r; [done|]. simpl.
  pose proof (nextAllocationRecord_respects r) as Hcall.
  destruct (nextAllocationRecord r) as [[a| | |] r']; simpl in *; try done.
  specialize (IH r'). destruct (decode_calls k r') as [rest r'']. simpl in *.
  by etrans.
Qed.
End Calls_respect.

#[global] Instance frame_map_grows_preorder : PreOrder frame_map_grows.
Proof.
  split.
  - by intros r id frame.
  - intros r1 r2 r3 H12 H23 id frame Hid. by apply H23, H12.
Qed.

#[global] Instance native_frames_grow_preorder : PreOrder native_frames_grow.
Proof.
  split.
  - intros r. unfold native_frames_grow. reflexivity.
  - intros r1 r2 r3. unfold native_frames_grow. apply transitivity.
Qed.

Section Monotone_tables.
Context `{Layout} `{Build} `{Collaborators}.

Lemma frame_map_grows_same r r' :
  d_frame_map r' = d_frame_map r → frame_map_grows r r'.
Proof. intros Hsame id frame. by rewrite Hsame. Qed.

Lemma native_frames_grow_same r r' :
  d_native_frames r' = d_native_frames r → native_frames_grow r r'.
Proof. intros Hsame. unfold native_frames_grow. by rewrite Hsame. Qed.

Lemma record_step_frame_map_grows : respects frame_map_grows record_step.
Proof.
  apply record_step_appends; try apply _;
    try (intros; by apply frame_map_grows_same).
  - intros n r. apply frame_map_grows_same. unfold read.
    by destruct (Source.read _ n (d_input r)) as [[bs|] rest].
  - intros d r. apply frame_map_grows_same. unfold getline.
    by destruct (Source.getline _ d (d_input r)) as [[bs|] rest].
  - intros id frame r. unfold frame_map_insert.
    destruct (d_frame_map r !! id) as [old|] eqn:Hold; simpl; [done|].
    intros id' frame' Hid'. simpl. rewrite lookup_insert_ne; [done|]. congruence.
Qed.

Lemma record_step_native_frames_grow : respects native_frames_grow record_step.
Proof.
  apply record_step_appends; try apply _;
    try (intros; by apply native_frames_grow_same).
  - intros n r. apply native_frames_grow_same. unfold read.
    by destruct (Source.read _ n (d_input r)) as [[bs|] rest].
  - intros d r. apply native_frames_grow_same. unfold getline.
    by destruct (Source.getline _ d (d_input r)) as [[bs|] rest].
  - intros id frame r. apply native_frames_grow_same. unfold frame_map_insert.
    by destruct (d_frame_map r !! id).
  - intros frame r. unfold native_frames_grow. simpl. by apply prefix_app_r.
Qed.

(** X1: the frame table is write-once.  Whatever the stream holds and
    however the calls end, a frame identifier that names a frame before
    any number of calls to [nextAllocationRecord] names the same frame
    after them: FRAME_INDEX records go through [insert] and the precise
    frames through [emplace], neither of which replaces an entry. *)
Theorem frame_table_is_write_once k r id frame :
  d_frame_map r !! id = Some frame →
  d_frame_map (snd (nextAllocationRecord r)) !! id = Some frame
  ∧ d_frame_map (snd (decode_calls k r)) !! id = Some frame.
Proof.
  intros Hid. split.
  - by apply (nextAllocationRecord_respects frame_map_grows record_step_frame_map_grows r).
  - by apply (decode_calls_respects frame_map_grows record_step_frame_map_grows k r).
Qed.

(** X2: the native chain table is append-only.  After any number of calls
    the table starts with the entries it had before, so the 1-based index
    of an entry, once handed out, keeps naming that entry. *)
Theorem native_chain_table_is_append_only k r :
  d_native_frames r `prefix_of` d_native_frames (snd (decode_calls k r))
  ∧ ∀ i frame, d_native_frames r !! i = Some frame →
               d_native_frames (snd (decode_calls k r)) !! i = Some frame.
Proof.
  pose proof (decode_calls_respects native_frames_grow
                record_step_native_frames_grow k r) as Hgrow.
  split; [exact Hgrow|].
  intros i frame Hi. by eapply prefix_lookup_Some.
Qed.
End Monotone_tables.

(** ** More ways a call can end *)
Section More_failures.
Context `{Layout} `{Build} `{Collaborators}.

(** X3: a record tag that is not one of the six top-level record types
    (the SEGMENT tag outside a segment header, or a value that is no
    enumerator at all) makes [nextAllocationRecord] throw
    [std::runtime_error("Invalid record type")]; only the tag has been
    consumed and no table has been written. *)
Theorem invalid_record_type_throws r record_type (tag rest : list byte) :
  record_type = Some SEGMENT ∨ record_type = None →
  is_wire RecordType_wire record_type tag →
  d_input r = tag ++ rest →
  nextAllocationRecord r
    = (Throw (runtime_error "Invalid record type"), with_input rest r).
Proof.
  intros Htype Htag Hin.
  pose proof (record_step_tag _ _ _ _ Htag Hin) as Hstep.
  assert (record_step r
          = (Throw (runtime_error "Invalid record type"), with_input rest r)) as Hthrow
    by (by destruct Htype as [-> | ->]).
  by rewrite (nextAllocationRecord_of_step _ _ _ Hthrow).
Qed.




(** X23: in a build that compiles its assertions out ([NDEBUG]),
    [parseSegment] does not look at the tag it has read: whatever the tag
    of a sub-record is, the bytes behind it are taken for a segment and
    returned. *)
Theorem release_build_ignores_subrecord_tag r other seg (tag payload rest : list byte) :
  NDEBUG = true →
  is_wire RecordType_wire other tag →
  is_wire Segment_wire seg payload →
  d_input r = tag ++ payload ++ rest →
  parseSegment r = (Ret seg, with_input rest r).
Proof.
  intros Hdebug Htag Hpay Hin. unfold parseSegment. read_step.
  unfold bind at 1, cassert. rewrite Hdebug. cbn [ret].
  etrans; [eapply read_as_wire; [done | reflexivity] | reflexivity].
Qed.

(** X22: a SEGMENT_HEADER record that announces more segments than a
    vector of segments can hold makes [nextAllocationRecord] throw
    [std::length_error] out to its caller, from the constructor of the
    vector: the fields of the header have been consumed, no sub-record has
    been read and nothing is registered with the symbol resolver. *)
Theorem oversized_segment_header_throws r filename addr count
    (htag file_bs count_bs addr_bs rest : list byte) :
  Segment_vector_max_size < count →
  is_wire RecordType_wire (Some SEGMENT_HEADER) htag →
  is_cstring filename file_bs →
  is_wire size_t_wire count count_bs →
  is_wire uintptr_t_wire addr addr_bs →
  d_input r = htag ++ file_bs ++ count_bs ++ addr_bs ++ rest →
  nextAllocationRecord r = (Throw length_error, with_input rest r)
  ∧ d_symbol_resolver (snd (nextAllocationRecord r)) = d_symbol_resolver r.
Proof.
  intros Hcount_max Hhtag Hfile Hcount Haddr Hin.
  assert (nextAllocationRecord r = (Throw length_error, with_input rest r)) as Hcall.
  { pose proof (record_step_tag _ _ _ _ Hhtag Hin) as Hstep. cbn [dispatch] in Hstep.
    assert (record_step r = (Throw length_error, with_input rest r)) as Hthrow.
    { rewrite Hstep. unfold bind at 1, parseSegmentHeader.
      do 3 read_step. by rewrite bool_decide_eq_true_2 by done. }
    by rewrite (nextAllocationRecord_of_step _ _ _ Hthrow). }
  by rewrite Hcall.
Qed.

(** X5: an ALLOCATION record for a thread whose stack has a frame on top
    that the frame table does not know ends the call with the
    [std::out_of_range] of [d_frame_map.at], thrown out to the caller; the
    record has been consumed, the stack keeps its top and no precise frame
    has been minted. *)
Theorem allocation_with_undefined_top_frame_throws r record (bs rest : list byte)
    stack back :
  d_stack_traces r !! AllocationRecord.tid record = Some stack →
  last stack = Some back →
  d_frame_map r !! back = None →
  encodes (RAllocation record) bs →
  d_input r = bs ++ rest →
  nextAllocationRecord r = (Throw out_of_range, with_input rest r).
Proof.
  intros Hstack Hlast Hframe Henc Hin.
  apply encodes_allocation_inv in Henc as (tag & payload & -> & Htag & Hpay).
  rewrite <- app_assoc in Hin.
  pose proof (record_step_tag _ _ _ _ Htag Hin) as Hstep.
  erewrite dispatch_allocation in Hstep by done.
  assert (record_step r = (Throw out_of_range, with_input rest r)) as Hthrow.
  { rewrite Hstep. unfold bind at 1, getAllocationFrameIndex, bind at 1, gets.
    cbn [d_stack_traces with_input]. rewrite Hstack.
    unfold bind at 1, correctAllocationFrame, bind at 1, gets, stack_of.
    cbn [d_stack_traces with_input]. rewrite Hstack. cbn [default from_option id].
    rewrite Hlast. unfold bind at 1, gets. cbn [d_frame_map with_input].
    by rewrite Hframe. }
  by rewrite (nextAllocationRecord_of_step _ _ _ Hthrow).
Qed.

(** X6: an ALLOCATION record for a thread that has an entry in the stack
    table but no frame on it (all its frames were popped) skips the line
    correction, gets the reserved trace index 0 and leaves every table as
    it was. *)
Theorem allocation_on_emptied_stack r record (bs rest : list byte) :
  d_stack_traces r !! AllocationRecord.tid record = Some [] →
  encodes (RAllocation record) bs →
  d_input r = bs ++ rest →
  nextAllocationRecord r =
    (Ret (Some (Allocation.mk record 0
                  (SymbolResolver.currentSegmentGeneration (d_symbol_resolver r)))),
     with_input rest r).
Proof.
  intros Hstack Henc Hin.
  apply encodes_allocation_inv in Henc as (tag & payload & -> & Htag & Hpay).
  rewrite <- app_assoc in Hin.
  pose proof (record_step_tag _ _ _ _ Htag Hin) as Hstep.
  erewrite dispatch_allocation in Hstep by done.
  assert (record_step r =
    (Ret (Some (Allocation.mk record 0
                  (SymbolResolver.currentSegmentGeneration (d_symbol_resolver r)))),
     with_input rest r)) as Hret.
  { rewrite Hstep. unfold bind at 1.
    erewrite getAllocationFrameIndex_stack; cycle 1.
    - exact Hstack.
    - apply correctAllocationFrame_empty. unfold stack_of.
      cbn [d_stack_traces with_input]. by rewrite Hstack.
    - unfold stack_of. cbn [d_stack_traces with_input]. rewrite Hstack. reflexivity. }
  by rewrite (nextAllocationRecord_of_step _ _ _ Hret).
Qed.
End More_failures.

(** ** Frames pushed and popped *)
Section Push_pop.
Context `{Layout} `{Build} `{Collaborators}.

Lemma record_step_frame e (bs rest : list byte) r :
  encodes (RFrame e) bs → d_input r = bs ++ rest →
  ∃ payload, is_wire FrameSeqEntry_wire e payload
    ∧ record_step r = (let* _ := parseFrame in ret None) (with_input (payload ++ rest) r).
Proof.
  intros Henc Hin.
  apply encodes_frame_inv in Henc as (tag & payload & -> & Htag & Hpay).
  rewrite <- app_assoc in Hin. exists payload. split; [done|].
  by rewrite (record_step_tag _ _ _ _ Htag Hin).
Qed.

Lemma after_turns_Ret k r a r' :
  record_step r = (Ret a, r') → after_turns (S k) r = after_turns k r'.
Proof. intros Hstep. simpl. by rewrite Hstep. Qed.

(** X7: a PUSH followed by a POP for the same thread puts the stack of
    that thread back to what it was, whatever frame identifier the POP
    carries (it is not compared with the frame on top); the other threads
    and the other tables are not touched, and the call goes on behind the
    two records. *)
Theorem push_then_pop_restores_stack r push pop (bs1 bs2 rest : list byte) :
  FrameSeqEntry.action push = Some PUSH →
  FrameSeqEntry.action pop = Some POP →
  FrameSeqEntry.tid pop = FrameSeqEntry.tid push →
  encodes (RFrame push) bs1 →
  encodes (RFrame pop) bs2 →
  d_input r = bs1 ++ bs2 ++ rest →
  let tid := FrameSeqEntry.tid push in
  after_turns 2 r
    = with_stack_traces (<[tid := stack_of tid r]> (d_stack_traces r)) (with_input rest r)
  ∧ stack_of tid (after_turns 2 r) = stack_of tid r
  ∧ nextAllocationRecord r = nextAllocationRecord (after_turns 2 r).
Proof.
  intros Hpush Hpop Htid Henc1 Henc2 Hin tid.
  destruct (record_step_frame push bs1 (bs2 ++ rest) r Henc1 Hin)
    as (payload1 & Hpay1 & Hstep1).
  unfold bind at 1 in Hstep1.
  erewrite parseFrame_push in Hstep1 by (done || reflexivity).
  cbn [ret] in Hstep1.
  set (r1 := with_stack_traces _ _) in Hstep1.
  destruct (record_step_frame pop bs2 rest r1 Henc2 eq_refl)
    as (payload2 & Hpay2 & Hstep2).
  unfold bind at 1 in Hstep2.
  assert (stack_of (FrameSeqEntry.tid pop) (with_input (payload2 ++ rest) r1)
          = stack_of tid r ++ [FrameSeqEntry.frame_id push]) as Hstack.
  { rewrite Htid. unfold stack_of at 1, r1. cbn [d_stack_traces with_stack_traces with_input].
    rewrite lookup_insert_eq. reflexivity. }
  erewrite parseFrame_pop in Hstep2; [| exact Hpay2 | reflexivity | exact Hpop |];
    cycle 1.
  { rewrite Hstack. by destruct (stack_of tid r). }
  rewrite Hstack, removelast_last, Htid in Hstep2. cbn [ret] in Hstep2.
  assert (after_turns 2 r
          = with_stack_traces (<[tid := stack_of tid r]> (d_stack_traces r))
              (with_input rest r)) as Hafter.
  { rewrite (after_turns_Ret 1 _ _ _ Hstep1), (after_turns_Ret 0 _ _ _ Hstep2).
    unfold r1. cbn [after_turns d_stack_traces with_stack_traces with_input].
    rewrite insert_insert_eq. reflexivity. }
  split; [exact Hafter|]. split.
  - rewrite Hafter. unfold stack_of at 1. cbn [d_stack_traces with_stack_traces].
    by rewrite lookup_insert_eq.
  - rewrite (nextAllocationRecord_skip _ _ Hstep1), (nextAllocationRecord_skip _ _ Hstep2).
    by rewrite (after_turns_Ret 1 _ _ _ Hstep1), (after_turns_Ret 0 _ _ _ Hstep2).
Qed.

(** X8: a FRAME record whose action is neither PUSH nor POP falls
    through the [switch] of [parseFrame]: the record is consumed, no stack
    is created or changed, and the call goes on with the next record. *)
Theorem frame_with_unknown_action_is_skipped r e (bs rest : list byte) :
  FrameSeqEntry.action e = None →
  encodes (RFrame e) bs →
  d_input r = bs ++ rest →
  record_step r = (Ret None, with_input rest r)
  ∧ nextAllocationRecord r = nextAllocationRecord (with_input rest r).
Proof.
  intros Hact Henc Hin.
  destruct (record_step_frame e bs rest r Henc Hin) as (payload & Hpay & Hstep).
  unfold bind at 1 in Hstep.
  erewrite parseFrame_no_action in Hstep by (done || reflexivity).
  cbn [ret] in Hstep.
  split; [exact Hstep | by apply nextAllocationRecord_skip].
Qed.
End Push_pop.

(** ** Progress *)
Section Progress.
Context `{Layout} `{Build} `{Collaborators}.

Lemma record_loop_Ret_consumes fuel r a r' :
  record_loop fuel r = Some (Ret a, r') → (length (d_input r') < length (d_input r))%nat.
Proof.
  revert r. induction fuel as [|fuel IH]; intros r; [done|]. simpl.
  destruct (record_step r) as [[[a'|]| | |] r1] eqn:Estep; try done.
  - intros [= <- <-]. by eapply record_step_Ret_consumes.
  - intros Hrun. apply IH in Hrun. apply record_step_Ret_consumes in Estep. lia.
Qed.

Lemma nextAllocationRecord_Some_consumes r a r' :
  nextAllocationRecord r = (Ret (Some a), r') →
  (length (d_input r') < length (d_input r))%nat.
Proof.
  destruct (record_loop_total (S (length (d_input r))) r) as [res Hres]; [lia|].
  rewrite (nextAllocationRecord_of_loop _ _ _ Hres).
  destruct res as [[a'|[]| |] r1]; try done.
  intros [= <- <-]. by eapply record_loop_Ret_consumes.
Qed.

(** X9: every call that hands out an allocation has consumed input, and
    no call gives input back: over any run of calls, the number of
    allocations returned plus the bytes left is at most the bytes there
    were.  A stream of [n] bytes therefore yields at most [n] allocations,
    and a loop that calls until [false] comes to an end. *)
Theorem allocations_bounded_by_input k r :
  (length (allocations_of (fst (decode_calls k r)))
   + length (d_input (snd (decode_calls k r))) ≤ length (d_input r))%nat.
Proof.
  revert r. induction k as [|k IH]; intros r; [simpl; lia|]. simpl.
  pose proof (nextAllocationRecord_respects input_shrinks record_step_shrinks r) as Hle.
  unfold input_shrinks in Hle.
  destruct (nextAllocationRecord r) as [[[a|]| | |] r'] eqn:Ecall; simpl in Hle.
  - apply nextAllocationRecord_Some_consumes in Ecall.
    specialize (IH r'). destruct (decode_calls k r') as [rest r'']. simpl in *. lia.
  - specialize (IH r'). destruct (decode_calls k r') as [rest r'']. simpl in *. lia.
  - simpl. lia.
  - simpl. lia.
  - simpl. lia.
Qed.
End Progress.

(** ** What the walks return *)
Section Loop_invariants.
Context {St : Type} (cond : St → bool * St) (body : St → outcome St).

(** A property the guard and the body keep holds when the loop returns. *)
Lemma while_loop_invariant (P : St → Prop) :
  (∀ s, P s → P (snd (cond s))) →
  (∀ s s', P s → body s = Ret s' → P s') →
  ∀ fuel s s' n, P s → while_loop fuel cond body s = Some (Ret s', n) → P s'.
Proof.
  intros Hcond Hbody. induction fuel as [|fuel IH]; intros s s' n Hs; [done|]. simpl.
  specialize (Hcond s Hs). destruct (cond s) as [[] s1]; simpl in Hcond.
  - destruct (body s1) as [s2| | |] eqn:Ebody; try done.
    destruct (while_loop fuel cond body s2) as [[o m]|] eqn:Erun; [|done].
    intros [= -> <-]. eapply IH; [|exact Erun]. exact (Hbody _ _ Hcond Ebody).
  - by intros [= <- <-].
Qed.

(** A measure the guard keeps and the body bumps counts the turns. *)
Lemma while_loop_counts (size : St → nat) :
  (∀ s, size (snd (cond s)) = size s) →
  (∀ s s', body s = Ret s' → size s' = S (size s)) →
  ∀ fuel s s' n, while_loop fuel cond body s = Some (Ret s', n) →
                 size s' = (size s + n)%nat.
Proof.
  intros Hcond Hbody. induction fuel as [|fuel IH]; intros s s' n; [done|]. simpl.
  specialize (Hcond s). destruct (cond s) as [[] s1]; simpl in Hcond.
  - destruct (body s1) as [s2| | |] eqn:Ebody; try done.
    destruct (while_loop fuel cond body s2) as [[o m]|] eqn:Erun; [|done].
    intros [= -> <-]. rewrite (IH _ _ _ Erun), (Hbody _ _ Ebody). lia.
  - intros [= <- <-]. lia.
Qed.
End Loop_invariants.

Section Python_walk.
Context `{Layout} `{Build} `{Collaborators}.

Lemma lineno_chain_snoc current_lineno frames frame lineno :
  lineno_chain current_lineno (frames ++ [(frame, lineno)])
  ↔ lineno_chain current_lineno frames
    ∧ lineno = match last frames with
               | Some (previous, _) => Frame.parent_lineno previous
               | None => current_lineno
               end.
Proof.
  revert current_lineno.
  induction frames as [|[frame0 lineno0] frames IH]; intros current_lineno.
  - simpl. tauto.
  - cbn [app lineno_chain]. rewrite IH.
    destruct frames as [|entry frames]; [simpl; tauto|].
    change (last ((frame0, lineno0) :: entry :: frames)) with (last (entry :: frames)).
    destruct (last (entry :: frames)) as [[previous ?]|] eqn:Hlast; [tauto|].
    by apply last_None in Hlast.
Qed.

Lemma walk_cond_list {A} max_stacks (w : walk A) :
  list_ (snd (walk_cond max_stacks w)) = list_ w.
Proof. unfold walk_cond. by case_bool_decide. Qed.

Lemma Py_GetStackFrame_cond_keeps max_stacks (s : walk (Frame.t * Z) * Z) :
  list_ (fst (snd (Py_GetStackFrame_cond max_stacks s))) = list_ (fst s)
  ∧ snd (snd (Py_GetStackFrame_cond max_stacks s)) = snd s.
Proof.
  unfold Py_GetStackFrame_cond.
  pose proof (walk_cond_list max_stacks (fst s)) as Hlist.
  by destruct (walk_cond max_stacks (fst s)).
Qed.

Lemma Py_GetStackFrame_loop_bound r index max_stacks s n :
  max_stacks < size_t_modulus →
  Py_GetStackFrame_loop (S (N.to_nat max_stacks)) r index max_stacks = Some (Ret s, n) →
  (n ≤ N.to_nat max_stacks)%nat.
Proof.
  intros Hmax Hrun.
  destruct (while_loop_bounded (λ s, current_index (fst s))
              (λ s, stacks_obtained (fst s)) size_t_modulus max_stacks
              (Py_GetStackFrame_cond max_stacks) (Py_GetStackFrame_body r))
    with (k := N.to_nat max_stacks) (s := (mkWalk index 0 ([] : list (Frame.t * Z)), (-1)%Z))
    as (o & n' & Hrun' & Hn & _); try done.
  - intros [w l] Hroot. unfold Py_GetStackFrame_cond. simpl in *.
    by rewrite walk_cond_root.
  - intros [w l] Hroot. unfold Py_GetStackFrame_cond. simpl in *.
    by rewrite walk_cond_step.
  - apply Py_GetStackFrame_body_counter.
  - simpl. lia.
  - unfold Py_GetStackFrame_loop in Hrun. rewrite Hrun' in Hrun by lia. congruence.
Qed.

(** X10: what a Python walk that returns has built.  The frames are
    entries of the frame table, at most [max_stacks] of them; the first is
    paired with line -1 and every later one with the [parent_lineno] of the
    frame before it, the line at which that frame was called. *)
Theorem python_walk_output r index max_stacks frames :
  max_stacks < size_t_modulus →
  Py_GetStackFrame r index max_stacks = Ret frames →
  lineno_chain (-1) frames
  ∧ (∀ frame lineno, (frame, lineno) ∈ frames →
       ∃ id, d_frame_map r !! id = Some frame)
  ∧ (length frames ≤ N.to_nat max_stacks)%nat.
Proof.
  intros Hmax. unfold Py_GetStackFrame.
  destruct (Py_GetStackFrame_loop _ r index max_stacks) as [[[s| | |] n]|] eqn:Hrun;
    try done.
  intros [= <-]. unfold Py_GetStackFrame_loop in Hrun.
  split; [|split].
  - refine (proj1 (while_loop_invariant _ _
      (λ s, lineno_chain (-1) (list_ (fst s))
            ∧ snd s = match last (list_ (fst s)) with
                      | Some (previous, _) => Frame.parent_lineno previous
                      | None => (-1)%Z
                      end) _ _ _ _ _ _ _ Hrun)).
    + intros s0 Hs. by destruct (Py_GetStackFrame_cond_keeps max_stacks s0) as [-> ->].
    + intros [w l] s' [Hchain Hl]. unfold Py_GetStackFrame_body.
      destruct (FrameTree.nextNode _ _) as [node|]; [|done].
      destruct (d_frame_map r !! _) as [frame|]; [|done].
      intros [= <-]. simpl in *. rewrite last_snoc. split; [|done].
      apply lineno_chain_snoc. by split.
    + by simpl.
  - intros frame lineno.
    refine (while_loop_invariant _ _
      (λ s, ∀ frame lineno, (frame, lineno) ∈ list_ (fst s) →
                            ∃ id, d_frame_map r !! id = Some frame) _ _ _ _ _ _ _ Hrun
      frame lineno).
    + intros s0 Hs. by destruct (Py_GetStackFrame_cond_keeps max_stacks s0) as [-> _].
    + intros [w l] s' Hs. unfold Py_GetStackFrame_body.
      destruct (FrameTree.nextNode _ _) as [node|]; [|done].
      destruct (d_frame_map r !! _) as [frame'|] eqn:Hframe; [|done].
      intros [= <-] frame'' lineno''. simpl.
      rewrite elem_of_app, list_elem_of_singleton.
      intros [Hin|[= -> ->]]; [by eapply Hs | eauto].
    + simpl. intros ? ? Hin. by apply not_elem_of_nil in Hin.
  - pose proof (Py_GetStackFrame_loop_bound r index max_stacks s n Hmax Hrun) as Hn.
    assert (length (list_ (fst s)) = (0 + n)%nat) as ->; [|lia].
    refine (while_loop_counts _ _ (λ s, length (list_ (fst s))) _ _ _ _ _ _ Hrun).
    + intros s0. by destruct (Py_GetStackFrame_cond_keeps max_stacks s0) as [-> _].
    + intros [w l] s'. unfold Py_GetStackFrame_body.
      destruct (FrameTree.nextNode _ _) as [node|]; [|done].
      destruct (d_frame_map r !! _) as [frame'|]; [|done].
      intros [= <-]. simpl. rewrite length_app. simpl. lia.
Qed.
End Python_walk.

Section Native_depth.
Context `{Layout} `{Build} `{Collaborators}.

Lemma chain_links_take depth depth' frames index :
  (depth ≤ depth')%nat →
  chain_links depth frames index = take depth (chain_links depth' frames index).
Proof.
  revert depth' index. induction depth as [|depth IH]; intros depth' index Hle.
  - by rewrite take_0.
  - destruct depth' as [|depth']; [lia|]. simpl.
    case_bool_decide; [done|].
    destruct (frames !! _) as [frame|]; [|done].
    simpl. f_equal. apply IH. lia.
Qed.

Lemma chain_links_complete depth depth' frames index :
  (depth ≤ depth')%nat →
  (length (chain_links depth frames index) < depth)%nat →
  chain_links depth' frames index = chain_links depth frames index.
Proof.
  revert depth' index. induction depth as [|depth IH]; intros depth' index Hle Hlen.
  - simpl in Hlen. lia.
  - destruct depth' as [|depth']; [lia|]. simpl in *.
    case_bool_decide; [done|].
    destruct (frames !! _) as [frame|]; [|done].
    simpl in *. f_equal. apply IH; lia.
Qed.

(** X11: on a chain table whose links stay inside the table, the depth
    bound of the native walk only ever cuts the tail of the result: what
    the walk returns under a bound is a prefix of what it returns under any
    larger bound, and once the chain reaches the 0 sentinel within the
    bound, a larger bound returns the same frames. *)
Theorem native_walk_depth_only_truncates r (index generation max_stacks max_stacks' : N) :
  max_stacks ≤ max_stacks' →
  max_stacks' < size_t_modulus →
  links_in_table (d_native_frames r) →
  index ≤ N.of_nat (length (d_native_frames r)) →
  ∃ frames frames',
    Py_GetNativeStackFrame r index generation max_stacks = Ret frames
    ∧ Py_GetNativeStackFrame r index generation max_stacks' = Ret frames'
    ∧ frames `prefix_of` frames'
    ∧ ((length (chain_links (N.to_nat max_stacks) (d_native_frames r) index)
        < N.to_nat max_stacks)%nat → frames = frames').
Proof.
  intros Hle Hmax Htable Hindex.
  destruct (native_loop_links r generation max_stacks (N.to_nat max_stacks)
              (mkWalk index 0 [])) as (w & Hrun & Hlist); try done; [lia | simpl; lia |].
  destruct (native_loop_links r generation max_stacks' (N.to_nat max_stacks')
              (mkWalk index 0 [])) as (w' & Hrun' & Hlist'); try done; [simpl; lia |].
  cbn [current_index list_ app] in Hrun, Hlist, Hrun', Hlist'.
  exists (list_ w), (list_ w'). split; [|split; [|split]].
  - unfold Py_GetNativeStackFrame, Py_GetNativeStackFrame_loop. by rewrite Hrun.
  - unfold Py_GetNativeStackFrame, Py_GetNativeStackFrame_loop. by rewrite Hrun'.
  - rewrite Hlist, Hlist'.
    rewrite (chain_links_take (N.to_nat max_stacks) (N.to_nat max_stacks')) by lia.
    rewrite <- (take_drop (N.to_nat max_stacks)
                  (chain_links (N.to_nat max_stacks') (d_native_frames r) index)) at 2.
    rewrite flat_map_app. by apply prefix_app_r.
  - intros Hshort. rewrite Hlist, Hlist'.
    by rewrite (chain_links_complete (N.to_nat max_stacks) (N.to_nat max_stacks')) by lia.
Qed.
End Native_depth.

(** ** The header, read back *)
Section Header_stream.
Context `{Layout} `{Build} `{Collaborators}.

Lemma read_prefix (bs tail : list byte) n r :
  d_input r = take n (bs ++ tail) →
  ((length bs ≤ n)%nat
   ∧ read (length bs) r = (Ret bs, with_input (take (n - length bs) tail) r))
  ∨ ((n < length bs)%nat ∧ starves (read (length bs)) r).
Proof.
  intros Hin. rewrite take_app in Hin.
  destruct (decide (length bs ≤ n)%nat) as [Hle|Hlt].
  - left. split; [done|]. rewrite take_ge in Hin by done. by apply read_exact.
  - right. split; [lia|]. eexists. apply read_short.
    rewrite Hin, length_app, !length_take. lia.
Qed.

(** The constructor over a stream cut after [n] bytes of a header image
    followed by [rest]. *)
Lemma RecordReader_new_prefix native_traces stats command_line
    (version_bs native_bs stats_bs cmd_bs rest : list byte) n :
  is_wire version_wire CURRENT_HEADER_VERSION version_bs →
  is_wire native_traces_wire native_traces native_bs →
  is_wire stats_wire stats stats_bs →
  is_cstring command_line cmd_bs →
  let image := MAGIC ++ version_bs ++ native_bs ++ stats_bs ++ cmd_bs in
  ((length image ≤ n)%nat
   ∧ RecordReader_new (take n (image ++ rest)) =
       (Ret tt,
        with_header
          (HeaderRecord.mk MAGIC CURRENT_HEADER_VERSION native_traces stats command_line)
          (fresh_reader (take (n - length image) rest))))
  ∨ ((n < length image)%nat
     ∧ fst (RecordReader_new (take n (image ++ rest))) = Throw IoError).
Proof.
  intros Hversion Hnative Hstats Hcmd image. unfold image.
  rewrite !length_app, <- !app_assoc.
  unfold RecordReader_new, readHeader.
  destruct (read_prefix MAGIC (version_bs ++ native_bs ++ stats_bs ++ cmd_bs ++ rest) n
              (fresh_reader (take n (MAGIC ++ version_bs ++ native_bs ++ stats_bs
                                       ++ cmd_bs ++ rest))) eq_refl)
    as [[Hle0 Hread0]|[Hlt0 Hread0]]; cycle 1.
  { right. split; [lia|]. destruct Hread0 as [left Hread0].
    by erewrite bind_throw_l by exact Hread0. }
  erewrite bind_ret_l by exact Hread0.
  erewrite bind_ret_l by reflexivity.
  rewrite bool_decide_eq_true_2 by done. cbn [negb].
  lazymatch goal with
  | |- context [bind (read_as version_wire) ?k ?r0] =>
      destruct (read_as_prefix version_wire CURRENT_HEADER_VERSION version_bs
                  (native_bs ++ stats_bs ++ cmd_bs ++ rest) (n - length MAGIC) r0
                  Hversion eq_refl) as [[Hle1 Hread1]|[Hlt1 Hread1]]
  end; cycle 1.
  { right. split; [lia|]. destruct Hread1 as [left Hread1].
    by erewrite bind_throw_l by exact Hread1. }
  erewrite bind_ret_l by exact Hread1.
  erewrite bind_ret_l by reflexivity.
  rewrite bool_decide_eq_true_2 by done. cbn [negb].
  lazymatch goal with
  | |- context [bind (read_as native_traces_wire) ?k ?r0] =>
      destruct (read_as_prefix native_traces_wire native_traces native_bs
                  (stats_bs ++ cmd_bs ++ rest)
                  (n - length MAGIC - length version_bs) r0
                  Hnative eq_refl) as [[Hle2 Hread2]|[Hlt2 Hread2]]
  end; cycle 1.
  { right. split; [lia|]. destruct Hread2 as [left Hread2].
    by erewrite bind_throw_l by exact Hread2. }
  erewrite bind_ret_l by exact Hread2.
  erewrite bind_ret_l by reflexivity.
  lazymatch goal with
  | |- context [bind (read_as stats_wire) ?k ?r0] =>
      destruct (read_as_prefix stats_wire stats stats_bs (cmd_bs ++ rest)
                  (n - length MAGIC - length version_bs - length native_bs) r0
                  Hstats eq_refl) as [[Hle3 Hread3]|[Hlt3 Hread3]]
  end; cycle 1.
  { right. split; [lia|]. destruct Hread3 as [left Hread3].
    by erewrite bind_throw_l by exact Hread3. }
  erewrite bind_ret_l by exact Hread3.
  erewrite bind_ret_l by reflexivity.
  lazymatch goal with
  | |- context [bind (getline x00) ?k ?r0] =>
      destruct (getline_prefix command_line cmd_bs rest
                  (n - length MAGIC - length version_bs - length native_bs
                   - length stats_bs) r0
                  Hcmd eq_refl) as [[Hle4 Hread4]|[Hlt4 Hread4]]
  end; cycle 1.
  { right. split; [lia|]. destruct Hread4 as [left Hread4].
    by erewrite bind_throw_l by exact Hread4. }
  erewrite bind_ret_l by exact Hread4.
  left. split; [lia|].
  replace (n - (length MAGIC + (length version_bs + (length native_bs
             + (length stats_bs + length cmd_bs)))))%nat
    with (n - length MAGIC - length version_bs - length native_bs - length stats_bs
          - length cmd_bs)%nat by lia.
  reflexivity.
Qed.

(** X12: the header read back.  Over a stream that starts with the image
    of a header of the supported magic and version, the constructor
    returns, [getHeader] gives exactly the fields written (trace flag,
    statistics, command line), the decoding tables are empty and the
    stream stands right behind the terminator of the command line. *)
Theorem header_round_trip native_traces stats command_line
    (version_bs native_bs stats_bs cmd_bs rest : list byte) :
  is_wire version_wire CURRENT_HEADER_VERSION version_bs →
  is_wire native_traces_wire native_traces native_bs →
  is_wire stats_wire stats stats_bs →
  is_cstring command_line cmd_bs →
  ∃ r,
    RecordReader_new (MAGIC ++ version_bs ++ native_bs ++ stats_bs ++ cmd_bs ++ rest)
      = (Ret tt, r)
    ∧ getHeader r
      = HeaderRecord.mk MAGIC CURRENT_HEADER_VERSION native_traces stats command_line
    ∧ d_input r = rest
    ∧ d_stack_traces r = ∅ ∧ d_frame_map r = ∅ ∧ d_allocation_frames r = []
    ∧ d_native_frames r = [].
Proof.
  intros Hversion Hnative Hstats Hcmd.
  set (image := MAGIC ++ version_bs ++ native_bs ++ stats_bs ++ cmd_bs).
  destruct (RecordReader_new_prefix native_traces stats command_line
              version_bs native_bs stats_bs cmd_bs rest (length (image ++ rest))
              Hversion Hnative Hstats Hcmd) as [[_ Hnew]|[Hlt _]]; cycle 1.
  { fold image in Hlt. rewrite length_app in Hlt. lia. }
  fold image in Hnew. rewrite take_ge in Hnew by done.
  unfold image in Hnew at 1. rewrite <- !app_assoc in Hnew.
  eexists. split; [exact Hnew|]. cbn.
  rewrite take_ge by (rewrite length_app; lia). by repeat split.
Qed.

(** X13: a stream that ends anywhere inside an otherwise good header (in
    the magic, a fixed-size field or the command line, the empty stream
    included) makes the constructor throw [IoError]: it has no handler for
    it, unlike [nextAllocationRecord], and the error is not the format
    error raised for a foreign magic or version. *)
Theorem truncated_header_throws_IoError native_traces stats command_line
    (version_bs native_bs stats_bs cmd_bs : list byte) n :
  is_wire version_wire CURRENT_HEADER_VERSION version_bs →
  is_wire native_traces_wire native_traces native_bs →
  is_wire stats_wire stats stats_bs →
  is_cstring command_line cmd_bs →
  (n < length (MAGIC ++ version_bs ++ native_bs ++ stats_bs ++ cmd_bs))%nat →
  fst (RecordReader_new (take n (MAGIC ++ version_bs ++ native_bs ++ stats_bs ++ cmd_bs)))
    = Throw IoError.
Proof.
  intros Hversion Hnative Hstats Hcmd Hn.
  destruct (RecordReader_new_prefix native_traces stats command_line
              version_bs native_bs stats_bs cmd_bs [] n
              Hversion Hnative Hstats Hcmd) as [[Hle _]|[_ Hnew]]; [cbv zeta in Hle; lia|].
  cbv zeta in Hnew. by rewrite app_nil_r in Hnew.
Qed.
End Header_stream.

(** ** One table per record type *)
#[global] Instance keeps_preorder {B} (f : RecordReader → B) : PreOrder (keeps f).
Proof.
  split.
  - by intros r.
  - intros r1 r2 r3. unfold keeps. congruence.
Qed.

Section Isolation.
Context `{Layout} `{Build} `{Collaborators}.
Context {B : Type} (f : RecordReader → B).
Hypothesis f_input : ∀ x r, f (with_input x r) = f r.

Lemma read_keeps n : respects (keeps f) (read n).
Proof.
  intros r. unfold read, keeps.
  destruct (Source.read _ n (d_input r)) as [[bs|] rest]; simpl; apply f_input.
Qed.

Lemma getline_keeps d : respects (keeps f) (getline d).
Proof.
  intros r. unfold getline, keeps.
  destruct (Source.getline _ d (d_input r)) as [[bs|] rest]; simpl; apply f_input.
Qed.
End Isolation.

Section Record_types.
Context `{Layout} `{Build} `{Collaborators}.

Ltac kept :=
  lazymatch goal with
  | |- ?f (snd (?m ?r)) = ?f ?r =>
      cut (respects (keeps f) m); [intros Hkept; exact (Hkept r)|]
  end;
  unfold dispatch, parseAllocationRecord;
  repeat first
    [ apply read_as_respects | apply getAllocationFrameIndex_respects
    | apply parseFrame_respects | apply parseFrameIndex_respects
    | apply parseNativeFrameIndex_respects | apply parseSegmentHeader_respects
    | apply (respects_ret (keeps _)) | apply (respects_gets (keeps _))
    | apply (respects_modify (keeps _)); intros ?; reflexivity
    | apply (respects_bind (keeps _)); [ | intros ? ]
    | apply _
    | apply read_keeps; intros ? ?; reflexivity
    | apply getline_keeps; intros ? ?; reflexivity
    | intros ? ?; reflexivity ].

(** X14: every record type writes to its own table only.  Whatever the
    payload holds and however the parse ends, a FRAME record leaves the
    frame table, the precise frames, the tree, the chain table and the
    resolver alone; FRAME_INDEX leaves everything but the frame table
    alone, NATIVE_TRACE_INDEX everything but the chain table,
    MEMORY_MAP_START and SEGMENT_HEADER everything but the resolver; an
    ALLOCATION never touches the chain table or the resolver, and an
    invalid tag changes nothing at all. *)
Theorem record_types_write_their_own_table record_type r :
  let r' := snd (dispatch record_type r) in
  match record_type with
  | Some ALLOCATION =>
      d_native_frames r' = d_native_frames r
      ∧ d_symbol_resolver r' = d_symbol_resolver r
  | Some FRAME =>
      d_frame_map r' = d_frame_map r
      ∧ d_allocation_frames r' = d_allocation_frames r
      ∧ d_tree r' = d_tree r
      ∧ d_native_frames r' = d_native_frames r
      ∧ d_symbol_resolver r' = d_symbol_resolver r
  | Some FRAME_INDEX =>
      d_stack_traces r' = d_stack_traces r
      ∧ d_allocation_frames r' = d_allocation_frames r
      ∧ d_tree r' = d_tree r
      ∧ d_native_frames r' = d_native_frames r
      ∧ d_symbol_resolver r' = d_symbol_resolver r
  | Some NATIVE_TRACE_INDEX =>
      d_stack_traces r' = d_stack_traces r
      ∧ d_frame_map r' = d_frame_map r
      ∧ d_allocation_frames r' = d_allocation_frames r
      ∧ d_tree r' = d_tree r
      ∧ d_symbol_resolver r' = d_symbol_resolver r
  | Some MEMORY_MAP_START | Some SEGMENT_HEADER =>
      d_stack_traces r' = d_stack_traces r
      ∧ d_frame_map r' = d_frame_map r
      ∧ d_allocation_frames r' = d_allocation_frames r
      ∧ d_tree r' = d_tree r
      ∧ d_native_frames r' = d_native_frames r
  | Some SEGMENT | None => r' = r
  end.
Proof.
  destruct record_type as [[]|]; cbv zeta; try reflexivity; repeat split; kept.
Qed.
End Record_types.

(** ** From an allocation to the frames reported for it *)
Section Tree_nodes.

Lemma find_child_from_Some i parent frame nodes j :
  FrameTree.find_child_from i parent frame nodes = Some j →
  (i ≤ j)%nat ∧ nodes !! (j - i)%nat = Some (FrameTree.mkNode frame parent).
Proof.
  revert i. induction nodes as [|node nodes IH]; intros i; simpl; [done|].
  destruct (FrameTree.is_child parent frame node) eqn:Hchild.
  - intros [= <-]. split; [lia|]. rewrite Nat.sub_diag. simpl.
    unfold FrameTree.is_child in Hchild. apply andb_true_iff in Hchild as [Hp Hf].
    apply bool_decide_eq_true in Hp, Hf. destruct node. simpl in *. by subst.
  - intros Hfind. apply IH in Hfind as [Hle Hnode]. split; [lia|].
    replace (j - i)%nat with (S (j - S i)) by lia. done.
Qed.

Lemma FrameTree_child_prefix d_graph parent frame :
  d_graph `prefix_of` fst (FrameTree.child d_graph parent frame).
Proof.
  unfold FrameTree.child. destruct (FrameTree.find_child_from _ _ _ _); simpl.
  - reflexivity.
  - by apply prefix_app_r.
Qed.

(** The index [child] returns is not the root and names a node that
    carries the frame asked for. *)
Lemma FrameTree_child_node d_graph parent frame :
  d_graph ≠ [] →
  snd (FrameTree.child d_graph parent frame) ≠ 0
  ∧ FrameTree.nextNode (fst (FrameTree.child d_graph parent frame))
      (snd (FrameTree.child d_graph parent frame))
    = Some (FrameTree.mkNode frame parent).
Proof.
  intros Hne. unfold FrameTree.child, FrameTree.nextNode.
  destruct (FrameTree.find_child_from 1 parent frame (tail d_graph)) as [j|] eqn:Hfind;
    simpl.
  - apply find_child_from_Some in Hfind as [Hle Hnode]. split; [lia|].
    rewrite Nat2N.id. destruct d_graph as [|root nodes]; [done|]. simpl in Hnode.
    destruct j as [|j]; [lia|]. simpl in *. by rewrite Nat.sub_0_r in Hnode.
  - split; [destruct d_graph; [done | simpl; lia]|].
    rewrite Nat2N.id. by apply list_lookup_middle.
Qed.

Lemma FrameTree_getTraceIndex_prefix stack_trace d_graph :
  d_graph `prefix_of` fst (FrameTree.getTraceIndex d_graph stack_trace).
Proof.
  unfold FrameTree.getTraceIndex. generalize 0.
  revert d_graph. induction stack_trace as [|frame stack_trace IH]; intros d_graph parent.
  - reflexivity.
  - simpl. etrans; [apply (FrameTree_child_prefix d_graph parent frame)|].
    destruct (FrameTree.child d_graph parent frame) as [d_graph' index]. apply IH.
Qed.

(** The trace index of a stack that is not empty names a node carrying
    the frame on top of the stack. *)
Lemma FrameTree_getTraceIndex_top d_graph stack_trace top :
  d_graph ≠ [] →
  let found := FrameTree.getTraceIndex d_graph (stack_trace ++ [top]) in
  snd found ≠ 0
  ∧ ∃ node, FrameTree.nextNode (fst found) (snd found) = Some node
            ∧ FrameTree.frame_id node = top.
Proof.
  intros Hne found. unfold found, FrameTree.getTraceIndex. rewrite fold_left_app. simpl.
  fold (FrameTree.getTraceIndex d_graph stack_trace).
  pose proof (FrameTree_getTraceIndex_prefix stack_trace d_graph) as Hprefix.
  destruct (FrameTree.getTraceIndex d_graph stack_trace) as [d_graph' parent].
  simpl in *.
  assert (d_graph' ≠ []) as Hne'.
  { intros ->. apply prefix_nil_inv in Hprefix. done. }
  destruct (FrameTree_child_node d_graph' parent top Hne') as [Hindex Hnode].
  split; [done|]. eexists. split; [exact Hnode | done].
Qed.
End Tree_nodes.

Section Reported_line.
Context `{Layout} `{Build} `{Collaborators}.

(** The first turn of a Python walk from a node of the tree whose frame
    is in the frame table. *)
Lemma Py_GetStackFrame_first r index node frame :
  index ≠ 0 →
  FrameTree.nextNode (d_tree r) index = Some node →
  d_frame_map r !! FrameTree.frame_id node = Some frame →
  (1 < size_t_modulus → Py_GetStackFrame r index 1 = Ret [(frame, (-1)%Z)])
  ∧ ∀ max_stacks frames,
      max_stacks ≠ 0 → Py_GetStackFrame r index max_stacks = Ret frames →
      head frames = Some (frame, (-1)%Z).
Proof.
  intros Hindex Hnode Hframe. split.
  - intros Hmodulus. unfold Py_GetStackFrame, Py_GetStackFrame_loop.
    change (N.to_nat 1) with 1%nat. cbn [while_loop].
    unfold Py_GetStackFrame_cond at 1. cbn [fst snd].
    rewrite walk_cond_step by done. cbn [stacks_obtained current_index list_].
    rewrite bool_decide_eq_false_2 by done. cbn [negb].
    unfold Py_GetStackFrame_body at 1. cbn [current_index]. rewrite Hnode, Hframe.
    cbn [list_ stacks_obtained app].
    unfold Py_GetStackFrame_cond. cbn [fst snd].
    rewrite (N.mod_small (0 + 1)) by lia.
    destruct (decide (FrameTree.parent_index node = 0)) as [Hroot|Hroot].
    + by rewrite walk_cond_root by done.
    + rewrite walk_cond_step by done. cbn [stacks_obtained].
      by rewrite bool_decide_eq_true_2 by done.
  - intros max_stacks frames Hmax. unfold Py_GetStackFrame, Py_GetStackFrame_loop.
    cbn [while_loop]. unfold Py_GetStackFrame_cond at 1. cbn [fst snd].
    rewrite walk_cond_step by done. cbn [stacks_obtained current_index list_].
    rewrite bool_decide_eq_false_2 by done. cbn [negb].
    unfold Py_GetStackFrame_body at 1. cbn [current_index]. rewrite Hnode, Hframe.
    cbn [list_ stacks_obtained app].
    destruct (while_loop _ _ _ _) as [[[s| | |] n]|] eqn:Hrun; try done.
    intros [= <-].
    assert ([(frame, (-1)%Z)] `prefix_of` list_ (fst s)) as [tail ->]; [|done].
    refine (while_loop_invariant _ _
      (λ s, [(frame, (-1)%Z)] `prefix_of` list_ (fst s)) _ _ _ _ _ _ _ Hrun).
    + intros s0 Hs. by destruct (Py_GetStackFrame_cond_keeps max_stacks s0) as [-> _].
    + intros [w l] s' Hs. unfold Py_GetStackFrame_body.
      destruct (FrameTree.nextNode (d_tree r) (current_index w)) as [node'|]; [|done].
      destruct (d_frame_map r !! FrameTree.frame_id node') as [frame'|]; [|done].
      intros [= <-]. simpl in *. by apply prefix_app_r.
    + simpl. reflexivity.
Qed.

(** X15: the line of an allocation reaches the frame reported for it.
    On a reader with a frame tree holding its root, whose precise frames
    are registered under their identifiers and whose next identifier to
    mint is free, an allocation on a thread with a known frame on top gets
    a trace index from which the Python walk starts with the precise
    frame: the frame on top with its own line set to the line of the
    allocation, paired with -1.  With depth 1 that is the whole result. *)
Theorem allocation_line_reaches_innermost_frame r record (bs rest : list byte)
    stack back partial_frame :
  d_tree r ≠ [] →
  (∀ frame id, (frame, id) ∈ d_allocation_frames r → d_frame_map r !! id = Some frame) →
  d_frame_map r !! mint (length (d_allocation_frames r)) = None →
  1 < size_t_modulus →
  d_stack_traces r !! AllocationRecord.tid record = Some stack →
  last stack = Some back →
  d_frame_map r !! back = Some partial_frame →
  encodes (RAllocation record) bs →
  d_input r = bs ++ rest →
  let precise :=
    Frame.mk (Frame.function_name partial_frame) (Frame.filename partial_frame)
      (Frame.parent_lineno partial_frame) (AllocationRecord.py_lineno record) in
  ∃ allocation r',
    nextAllocationRecord r = (Ret (Some allocation), r')
    ∧ Allocation.record allocation = record
    ∧ Py_GetStackFrame r' (Allocation.frame_index allocation) 1
      = Ret [(precise, (-1)%Z)]
    ∧ ∀ max_stacks frames,
        max_stacks ≠ 0 →
        Py_GetStackFrame r' (Allocation.frame_index allocation) max_stacks = Ret frames →
        head frames = Some (precise, (-1)%Z).
Proof.
  intros Htree Hfaithful Hfree Hmodulus Hstack Hlast Hframe Henc Hin precise.
  destruct (allocation_rewrites_top r record bs rest stack back partial_frame
              Hstack Hlast Hframe Henc Hin)
    as (r' & Hstep & _ & _ & _ & Hmap & Htree' & _).
  cbv zeta in Hstep, Hmap, Htree'. fold precise in Hstep, Hmap, Htree'.
  set (allocation_index :=
         fst (snd (FrameCollection.getIndex mint precise (d_allocation_frames r))))
    in Hstep, Hmap, Htree'.
  unfold set_back in Hstep, Htree'.
  destruct (FrameTree_getTraceIndex_top (d_tree r) (removelast stack) allocation_index
              Htree) as (Hindex & node & Hnode & Hid).
  cbv zeta in Hindex, Hnode. rewrite <- Htree' in Hnode.
  assert (d_frame_map r' !! allocation_index = Some precise) as Hprecise.
  { rewrite Hmap. unfold allocation_index, FrameCollection.getIndex.
    destruct (FrameCollection.find precise (d_allocation_frames r)) as [id|] eqn:Hfind;
      simpl.
    - apply Hfaithful. by apply FrameCollection_find_elem_of.
    - rewrite Hfree. by rewrite lookup_insert_eq. }
  rewrite <- Hid in Hprecise.
  destruct (Py_GetStackFrame_first r' _ node precise Hindex Hnode Hprecise)
    as [Hone Hhead].
  eexists _, r'. split; [|split; [|split]].
  - by rewrite (nextAllocationRecord_of_step _ _ _ Hstep).
  - done.
  - by apply Hone.
  - exact Hhead.
Qed.
End Reported_line.

(** ** Every way a call can end *)
Section Fails_with.
Context `{Layout} `{Build} `{Collaborators}.
Context (thrown : exn → Prop) (asserts faults : Prop).

Lemma fails_with_ret {A} (a : A) : fails_with thrown asserts faults (ret a).
Proof. by intros r. Qed.

Lemma fails_with_gets {A} (f : RecordReader → A) :
  fails_with thrown asserts faults (gets f).
Proof. by intros r. Qed.

Lemma fails_with_modify f : fails_with thrown asserts faults (modify f).
Proof. by intros r. Qed.

Lemma fails_with_throw {A} e :
  thrown e → fails_with thrown asserts faults (throw e : M A).
Proof. intros He r. apply He. Qed.

Lemma fails_with_assert b : asserts → fails_with thrown asserts faults (assert b).
Proof. intros Ha r. unfold assert. by destruct b. Qed.

Lemma fails_with_cassert b :
  (NDEBUG = false → asserts) → fails_with thrown asserts faults (cassert b).
Proof.
  intros Ha r. unfold cassert. destruct NDEBUG; [done|].
  unfold assert. destruct b; [done|]. by apply Ha.
Qed.

Lemma fails_with_bind {A B} (m : M A) (k : A → M B) :
  fails_with thrown asserts faults m → (∀ a, fails_with thrown asserts faults (k a)) →
  fails_with thrown asserts faults (bind m k).
Proof.
  intros Hm Hk r. unfold bind. specialize (Hm r).
  destruct (m r) as [[a| | |] r']; try done. apply Hk.
Qed.

Lemma fails_with_for_loop {A} n (body : A → M A) acc :
  (∀ a, fails_with thrown asserts faults (body a)) →
  fails_with thrown asserts faults (for_loop n body acc).
Proof.
  intros Hb. revert acc. induction n as [|n IH]; intros acc; simpl.
  - apply fails_with_ret.
  - apply fails_with_bind; [apply Hb | apply IH].
Qed.

Lemma fails_with_frame_map_insert id frame :
  fails_with thrown asserts faults (frame_map_insert id frame).
Proof. intros r. unfold frame_map_insert. by destruct (d_frame_map r !! id). Qed.

Hypothesis thrown_IoError : thrown IoError.

Lemma fails_with_read n : fails_with thrown asserts faults (read n).
Proof. intros r. unfold read, Source.read. by case_decide. Qed.

Lemma fails_with_getline d : fails_with thrown asserts faults (getline d).
Proof.
  intros r. unfold getline, Source.getline.
  by destruct (Source.split_at d (d_input r)) as [[line rest]|].
Qed.

Lemma fails_with_read_as {A} (w : wire A) :
  fails_with thrown asserts faults (read_as w).
Proof.
  unfold read_as. apply fails_with_bind; [apply fails_with_read|].
  intros bs. apply fails_with_ret.
Qed.
End Fails_with.

Section Outcomes.
Context `{Layout} `{Build} `{Collaborators}.

Ltac fails_tac leaf :=
  repeat first
    [ leaf
    | apply fails_with_read_as; left; done
    | apply fails_with_getline; left; done
    | apply fails_with_frame_map_insert
    | apply fails_with_ret | apply fails_with_gets | apply fails_with_modify
    | apply fails_with_cassert; done
    | apply fails_with_throw; unfold record_step_throws; tauto
    | apply fails_with_bind; [ | intros ? ]
    | apply fails_with_for_loop; intros ? ].

(** The one place that can run into undefined behaviour: [pop_back] on an
    empty stack, reached only when the assertion before it is compiled
    out. *)
Lemma pop_fails (stack : list N) f :
  fails_with record_step_throws (NDEBUG = false) (NDEBUG = true)
    (let* _ := cassert (negb (bool_decide (stack = []))) in
     if bool_decide (stack = []) then undefined else modify f).
Proof.
  intros r. unfold bind, cassert, undefined, assert.
  case_bool_decide; destruct NDEBUG; done.
Qed.

Lemma emplace_back_fails segments s :
  fails_with record_step_throws (NDEBUG = false) (NDEBUG = true)
    (emplace_back segments s).
Proof. unfold emplace_back. case_bool_decide; fails_tac fail. Qed.

Lemma parseFrame_fails :
  fails_with record_step_throws (NDEBUG = false) (NDEBUG = true) parseFrame.
Proof.
  unfold parseFrame, touch_stack. fails_tac fail.
  destruct (FrameSeqEntry.action a) as [[]|]; fails_tac ltac:(apply pop_fails).
Qed.

Lemma parseFrameIndex_fails :
  fails_with record_step_throws (NDEBUG = false) (NDEBUG = true) parseFrameIndex.
Proof.
  unfold parseFrameIndex. fails_tac fail.
  destruct a3; simpl; fails_tac fail.
Qed.

Lemma parseSegmentHeader_fails :
  fails_with record_step_throws (NDEBUG = false) (NDEBUG = true) parseSegmentHeader.
Proof.
  unfold parseSegmentHeader, parseSegment. fails_tac fail.
  case_bool_decide; fails_tac ltac:(apply emplace_back_fails).
Qed.

Lemma correctAllocationFrame_fails tid lineno :
  fails_with record_step_throws (NDEBUG = false) (NDEBUG = true)
    (correctAllocationFrame tid lineno).
Proof.
  unfold correctAllocationFrame. fails_tac fail.
  destruct (last a) as [back|]; fails_tac fail.
  destruct (a0 !! back) as [partial_frame|]; fails_tac fail.
  - intros r. by destruct (FrameCollection.getIndex _ _ _) as [c res].
  - destruct a1 as [allocation_index is_new_frame]. fails_tac fail.
    destruct is_new_frame; fails_tac fail.
Qed.

Lemma getAllocationFrameIndex_fails record :
  fails_with record_step_throws (NDEBUG = false) (NDEBUG = true)
    (getAllocationFrameIndex record).
Proof.
  unfold getAllocationFrameIndex. fails_tac fail.
  destruct (a !! AllocationRecord.tid record);
    fails_tac ltac:(apply correctAllocationFrame_fails).
  intros r. by destruct (FrameTree.getTraceIndex _ _) as [tree index].
Qed.

Lemma record_step_fails :
  fails_with record_step_throws (NDEBUG = false) (NDEBUG = true) record_step.
Proof.
  unfold record_step. apply fails_with_bind.
  { apply fails_with_read_as. by left. }
  intros record_type. unfold dispatch, parseAllocationRecord, parseNativeFrameIndex.
  destruct record_type as [[]|];
    fails_tac ltac:(first
      [ apply getAllocationFrameIndex_fails | apply parseFrame_fails
      | apply parseFrameIndex_fails | apply parseSegmentHeader_fails ]).
Qed.

Lemma record_loop_fails fuel r res :
  record_loop fuel r = Some res →
  match res with
  | (Ret _, _) => True
  | (Throw e, _) => record_step_throws e
  | (AssertFail, _) => NDEBUG = false
  | (Undefined, _) => NDEBUG = true
  end.
Proof.
  revert r. induction fuel as [|fuel IH]; intros r; [done|]. simpl.
  pose proof (record_step_fails r) as Hstep.
  destruct (record_step r) as [[[a|]| | |] r'] eqn:Estep; try done.
  - by intros [= <-].
  - apply IH.
  - by intros [= <-].
  - by intros [= <-].
  - by intros [= <-].
Qed.

Lemma readHeader_fails :
  fails_with
    (λ e, e = IoError
          ∨ e = ios_failure
              "The provided input file does not look like a binary generated by pensieve."
          ∨ e = ios_failure
              "The provided input file is incompatible with this version of pensieve.")
    False False readHeader.
Proof.
  unfold readHeader.
  repeat first
    [ apply fails_with_read_as; left; done
    | apply fails_with_read; left; done
    | apply fails_with_getline; left; done
    | apply fails_with_modify
    | apply fails_with_throw; tauto
    | apply fails_with_bind; [ | intros ? ]
    | match goal with |- fails_with _ _ _ (if ?b then _ else _) => destruct b end ].
Qed.

(** X16: every way the two entry points can fail (memory exhaustion
    aside, which the embedding leaves out, and with it the tables that
    grow record by record outgrowing their vectors).  Constructing the
    reader throws [IoError] or one of the two format errors and nothing
    else; it trips no assertion and runs into no undefined behaviour.
    [nextAllocationRecord] throws only the two [std::runtime_error]s of
    the parsers, the [std::out_of_range] of the frame table and the
    [std::length_error] of a segment vector that cannot be built;
    [IoError] never leaves it.  It trips an assertion only in a build that
    keeps them, and runs into undefined behaviour (the pop from an empty
    stack) only in a build that compiles them out ([NDEBUG]).  This holds
    on any stream and from any reader state. *)
Theorem failure_modes :
  fails_with
    (λ e, e = IoError
          ∨ e = ios_failure
              "The provided input file does not look like a binary generated by pensieve."
          ∨ e = ios_failure
              "The provided input file is incompatible with this version of pensieve.")
    False False readHeader
  ∧ fails_with
      (λ e, e = runtime_error "Two entries with the same ID found!"
            ∨ e = runtime_error "Invalid record type"
            ∨ e = out_of_range
            ∨ e = length_error)
      (NDEBUG = false) (NDEBUG = true) nextAllocationRecord.
Proof.
  split; [apply readHeader_fails|].
  intros r.
  destruct (record_loop_total (S (length (d_input r))) r) as [res Hres]; [lia|].
  rewrite (nextAllocationRecord_of_loop _ _ _ Hres).
  apply record_loop_fails in Hres.
  destruct res as [[a|e| |] r']; simpl; try done.
  destruct Hres as [->|Hres]; [done|].
  destruct e; try done; simpl; tauto.
Qed.
End Outcomes.

(** ** Chain entries and repeated allocations *)
Section Native_record.
Context `{Layout} `{Build} `{Collaborators}.

(** X18: a NATIVE_TRACE_INDEX record becomes the next entry of the
    chain table, numbered from 1, and can be walked at once: the native
    walk of depth 1 from the number of the new entry returns the frames its
    instruction pointer resolves to (none if it does not resolve). *)
Theorem native_record_is_walkable r frame (bs rest : list byte) generation :
  1 < size_t_modulus →
  encodes (RNativeTraceIndex frame) bs →
  d_input r = bs ++ rest →
  let r' := with_native_frames (d_native_frames r ++ [frame]) (with_input rest r) in
  record_step r = (Ret None, r')
  ∧ Py_GetNativeStackFrame r' (N.of_nat (S (length (d_native_frames r)))) generation 1
    = Ret (link_frames r generation frame).
Proof.
  intros Hmodulus Henc Hin r'. split.
  - apply encodes_native_trace_index_inv in Henc as (tag & payload & -> & Htag & Hpay).
    rewrite <- app_assoc in Hin.
    rewrite (record_step_tag _ _ _ _ Htag Hin). cbn [dispatch].
    unfold bind at 1, parseNativeFrameIndex. by read_step.
  - unfold Py_GetNativeStackFrame, Py_GetNativeStackFrame_loop.
    change (N.to_nat 1) with 1%nat. cbn [while_loop].
    rewrite walk_cond_step by (cbn [current_index]; lia).
    cbn [stacks_obtained current_index list_].
    rewrite bool_decide_eq_false_2 by done. cbn [negb].
    unfold Py_GetNativeStackFrame_body at 1. cbn [current_index].
    replace (N.to_nat (N.of_nat (S (length (d_native_frames r))) - 1))
      with (length (d_native_frames r)) by lia.
    unfold r' at 1. cbn [d_native_frames with_native_frames].
    rewrite list_lookup_middle by done.
    rewrite (N.mod_small (0 + 1)) by lia.
    change (d_symbol_resolver r') with (d_symbol_resolver r).
    unfold link_frames.
    destruct (SymbolResolver.resolve _ _ _ _) as [resolved_frames|];
      unfold default; cbn [from_option id list_ stacks_obtained app];
      (destruct (decide (UnresolvedNativeFrame.index frame = 0)) as [Hroot|Hroot];
       [ by rewrite walk_cond_root by done
       | rewrite walk_cond_step by done; cbn [stacks_obtained];
         by rewrite bool_decide_eq_true_2 by done ]).
Qed.
End Native_record.

Section Tree_stability.

Lemma find_child_from_app_Some i parent frame nodes more j :
  FrameTree.find_child_from i parent frame nodes = Some j →
  FrameTree.find_child_from i parent frame (nodes ++ more) = Some j.
Proof.
  revert i. induction nodes as [|node nodes IH]; intros i; simpl; [done|].
  destruct (FrameTree.is_child parent frame node); [done | apply IH].
Qed.

Lemma find_child_from_app_None i parent frame nodes more :
  FrameTree.find_child_from i parent frame nodes = None →
  FrameTree.find_child_from i parent frame (nodes ++ more)
  = FrameTree.find_child_from (i + length nodes) parent frame more.
Proof.
  revert i. induction nodes as [|node nodes IH]; intros i; simpl.
  - intros _. by rewrite Nat.add_0_r.
  - destruct (FrameTree.is_child parent frame node); [done|].
    intros Hnone. rewrite IH by done. f_equal. lia.
Qed.

(** Once [child] has answered, it gives the same answer on any tree that
    extends the one it left, and leaves that tree alone. *)
Lemma FrameTree_child_stable d_graph parent frame d_graph' :
  d_graph ≠ [] →
  fst (FrameTree.child d_graph parent frame) `prefix_of` d_graph' →
  FrameTree.child d_graph' parent frame
  = (d_graph', snd (FrameTree.child d_graph parent frame)).
Proof.
  intros Hne. destruct d_graph as [|root nodes]; [done|].
  unfold FrameTree.child at 1 3. cbn [tail].
  destruct (FrameTree.find_child_from 1 parent frame nodes) as [j|] eqn:Hfind;
    cbn [fst snd]; intros [more ->]; unfold FrameTree.child.
  - cbn [app tail]. by rewrite (find_child_from_app_Some _ _ _ _ _ _ Hfind).
  - rewrite <- app_assoc. cbn [app tail].
    rewrite (find_child_from_app_None _ _ _ _ _ Hfind). cbn [FrameTree.find_child_from].
    unfold FrameTree.is_child. cbn [FrameTree.parent_index FrameTree.frame_id].
    rewrite !bool_decide_eq_true_2 by done. cbn [andb length]. done.
Qed.

Lemma FrameTree_walk_prefix stack_trace d_graph parent :
  d_graph `prefix_of`
    fst (fold_left (λ acc frame, FrameTree.child (fst acc) (snd acc) frame)
           stack_trace (d_graph, parent)).
Proof.
  revert d_graph parent.
  induction stack_trace as [|frame stack_trace IH]; intros d_graph parent.
  - reflexivity.
  - simpl. etrans; [apply (FrameTree_child_prefix d_graph parent frame)|].
    destruct (FrameTree.child d_graph parent frame) as [d_graph' index]. apply IH.
Qed.

Lemma FrameTree_walk_stable stack_trace d_graph parent d_graph' :
  d_graph ≠ [] →
  fst (fold_left (λ acc frame, FrameTree.child (fst acc) (snd acc) frame)
         stack_trace (d_graph, parent)) `prefix_of` d_graph' →
  fold_left (λ acc frame, FrameTree.child (fst acc) (snd acc) frame)
    stack_trace (d_graph', parent)
  = (d_graph',
     snd (fold_left (λ acc frame, FrameTree.child (fst acc) (snd acc) frame)
            stack_trace (d_graph, parent))).
Proof.
  revert d_graph parent.
  induction stack_trace as [|frame stack_trace IH]; intros d_graph parent Hne Hprefix.
  - reflexivity.
  - cbn [fold_left fst snd] in *.
    pose proof (FrameTree_child_prefix d_graph parent frame) as Hgrow.
    pose proof (FrameTree_child_stable d_graph parent frame d_graph' Hne) as Hstable.
    destruct (FrameTree.child d_graph parent frame) as [d_graph1 index1].
    cbn [fst snd] in *.
    rewrite Hstable.
    + apply IH; [|done]. intros ->. apply prefix_nil_inv in Hgrow. done.
    + etrans; [apply (FrameTree_walk_prefix stack_trace d_graph1 index1) | done].
Qed.

(** Asking again for the trace index of a stack changes nothing. *)
Lemma FrameTree_getTraceIndex_again d_graph stack_trace :
  d_graph ≠ [] →
  FrameTree.getTraceIndex (fst (FrameTree.getTraceIndex d_graph stack_trace)) stack_trace
  = FrameTree.getTraceIndex d_graph stack_trace.
Proof.
  intros Hne. unfold FrameTree.getTraceIndex.
  rewrite (FrameTree_walk_stable stack_trace d_graph 0) by done.
  by destruct (fold_left _ _ _).
Qed.

Lemma FrameCollection_find_app frame c id :
  FrameCollection.find frame c = None →
  FrameCollection.find frame (c ++ [(frame, id)]) = Some id.
Proof.
  induction c as [|[f i] c IH]; simpl.
  - intros _. by rewrite decide_True.
  - case_decide; [done | apply IH].
Qed.

(** A frame asked for once is found under the same identifier after. *)
Lemma FrameCollection_getIndex_again mint frame c :
  FrameCollection.getIndex mint frame (fst (FrameCollection.getIndex mint frame c))
  = (fst (FrameCollection.getIndex mint frame c),
     (fst (snd (FrameCollection.getIndex mint frame c)), false)).
Proof.
  unfold FrameCollection.getIndex at 2 3 4.
  destruct (FrameCollection.find frame c) as [id|] eqn:Hfind; cbn [fst snd].
  - unfold FrameCollection.getIndex. by rewrite Hfind.
  - unfold FrameCollection.getIndex. by rewrite FrameCollection_find_app.
Qed.
End Tree_stability.

Section Repeated_allocation.
Context `{Layout} `{Build} `{Collaborators}.

Lemma set_back_again x stack : set_back x (set_back x stack) = set_back x stack.
Proof. unfold set_back. by rewrite removelast_last. Qed.

(** X19: two allocations from one line share everything.  On a reader
    with a frame tree holding its root, whose precise frames are
    registered under their identifiers and whose next identifier to mint is
    free, a second allocation on the same thread and at the same line as
    the one before it gets the same trace index, and decoding it mints no
    frame and adds no tree node: stacks, frame table, precise frames and
    tree are left as the first allocation left them. *)
Theorem allocations_on_one_line_share_a_trace r record record'
    (bs bs' rest : list byte) stack back partial_frame :
  d_tree r ≠ [] →
  (∀ frame id, (frame, id) ∈ d_allocation_frames r → d_frame_map r !! id = Some frame) →
  d_frame_map r !! mint (length (d_allocation_frames r)) = None →
  d_stack_traces r !! AllocationRecord.tid record = Some stack →
  last stack = Some back →
  d_frame_map r !! back = Some partial_frame →
  AllocationRecord.tid record' = AllocationRecord.tid record →
  AllocationRecord.py_lineno record' = AllocationRecord.py_lineno record →
  encodes (RAllocation record) bs →
  encodes (RAllocation record') bs' →
  d_input r = bs ++ bs' ++ rest →
  ∃ allocation allocation' r1 r2,
    nextAllocationRecord r = (Ret (Some allocation), r1)
    ∧ nextAllocationRecord r1 = (Ret (Some allocation'), r2)
    ∧ Allocation.record allocation = record
    ∧ Allocation.record allocation' = record'
    ∧ Allocation.frame_index allocation' = Allocation.frame_index allocation
    ∧ d_stack_traces r2 = d_stack_traces r1
    ∧ d_frame_map r2 = d_frame_map r1
    ∧ d_allocation_frames r2 = d_allocation_frames r1
    ∧ d_tree r2 = d_tree r1.
Proof.
  intros Htree Hfaithful Hfree Hstack Hlast Hframe Htid Hline Henc Henc' Hin.
  destruct (allocation_rewrites_top r record bs (bs' ++ rest) stack back partial_frame
              Hstack Hlast Hframe Henc Hin)
    as (r1 & Hstep1 & Hin1 & Hstacks1 & Hcoll1 & Hmap1 & Htree1 & _).
  cbv zeta in Hstep1, Hstacks1, Hcoll1, Hmap1, Htree1.
  set (precise :=
         Frame.mk (Frame.function_name partial_frame) (Frame.filename partial_frame)
           (Frame.parent_lineno partial_frame) (AllocationRecord.py_lineno record))
    in Hstep1, Hstacks1, Hcoll1, Hmap1, Htree1.
  set (found := FrameCollection.getIndex mint precise (d_allocation_frames r))
    in Hstep1, Hstacks1, Hcoll1, Hmap1, Htree1.
  set (stack1 := set_back (fst (snd found)) stack) in Hstep1, Hstacks1, Htree1.
  assert (d_frame_map r1 !! fst (snd found) = Some precise) as Hprecise.
  { rewrite Hmap1. unfold found, FrameCollection.getIndex.
    destruct (FrameCollection.find precise (d_allocation_frames r)) as [id|] eqn:Hfind;
      simpl.
    - apply Hfaithful. by apply FrameCollection_find_elem_of.
    - rewrite Hfree. by rewrite lookup_insert_eq. }
  assert (d_stack_traces r1 !! AllocationRecord.tid record' = Some stack1) as Hstack1
    by (by rewrite Htid, Hstacks1, lookup_insert_eq).
  assert (last stack1 = Some (fst (snd found))) as Hlast1 by apply last_snoc.
  destruct (allocation_rewrites_top r1 record' bs' rest stack1 (fst (snd found)) precise
              Hstack1 Hlast1 Hprecise Henc' Hin1)
    as (r2 & Hstep2 & _ & Hstacks2 & Hcoll2 & Hmap2 & Htree2 & _).
  cbv zeta in Hstep2, Hstacks2, Hcoll2, Hmap2, Htree2.
  rewrite Hline in Hstep2, Hstacks2, Hcoll2, Hmap2, Htree2.
  change (Frame.mk (Frame.function_name precise) (Frame.filename precise)
            (Frame.parent_lineno precise) (AllocationRecord.py_lineno record))
    with precise in Hstep2, Hstacks2, Hcoll2, Hmap2, Htree2.
  assert (FrameCollection.getIndex mint precise (d_allocation_frames r1)
          = (d_allocation_frames r1, (fst (snd found), false))) as Hfound2.
  { rewrite Hcoll1. apply FrameCollection_getIndex_again. }
  rewrite Hfound2 in Hstep2, Hstacks2, Hcoll2, Hmap2, Htree2.
  cbn [fst snd] in Hstep2, Hstacks2, Hcoll2, Hmap2, Htree2.
  unfold stack1 in Hstep2, Hstacks2, Htree2.
  rewrite set_back_again in Hstep2, Hstacks2, Htree2.
  fold stack1 in Hstep2, Hstacks2, Htree2.
  rewrite Htree1 in Hstep2, Htree2.
  rewrite (FrameTree_getTraceIndex_again (d_tree r) stack1 Htree) in Hstep2, Htree2.
  eexists _, _, r1, r2.
  split; [by rewrite (nextAllocationRecord_of_step _ _ _ Hstep1)|].
  split; [by rewrite (nextAllocationRecord_of_step _ _ _ Hstep2)|].
  split; [done|]. split; [done|]. split; [done|].
  split; [by rewrite Hstacks2, Hstacks1, Htid, insert_insert_eq|].
  split; [done|]. split; [by rewrite Hcoll2, Hcoll1|].
  by rewrite Htree2, Htree1.
Qed.
End Repeated_allocation.

(** ** The stack read back from the tree *)
Section Tree_paths.

Lemma tree_path_prefix d_graph d_graph' index ids :
  d_graph `prefix_of` d_graph' → tree_path d_graph index ids →
  tree_path d_graph' index ids.
Proof.
  intros Hprefix. revert index. induction ids as [|id ids IH]; intros index; [done|].
  intros (Hindex & parent & Hnode & Hpath). split; [done|].
  exists parent. split; [|by apply IH].
  unfold FrameTree.nextNode in *. by eapply prefix_lookup_Some.
Qed.

Lemma FrameTree_walk_path stack_trace d_graph parent ids :
  d_graph ≠ [] →
  tree_path d_graph parent ids →
  let found := fold_left (λ acc frame, FrameTree.child (fst acc) (snd acc) frame)
                 stack_trace (d_graph, parent) in
  tree_path (fst found) (snd found) (reverse stack_trace ++ ids).
Proof.
  revert d_graph parent ids.
  induction stack_trace as [|frame stack_trace IH]; intros d_graph parent ids Hne Hpath.
  - done.
  - cbn [fold_left fst snd]. rewrite reverse_cons, <- app_assoc. cbn [app].
    pose proof (FrameTree_child_prefix d_graph parent frame) as Hgrow.
    destruct (FrameTree_child_node d_graph parent frame Hne) as [Hindex Hnode].
    destruct (FrameTree.child d_graph parent frame) as [d_graph1 index1].
    cbn [fst snd] in *. apply IH.
    + intros ->. apply prefix_nil_inv in Hgrow. done.
    + split; [done|]. exists parent. split; [done|]. by eapply tree_path_prefix.
Qed.

(** The trace index of a stack leads back through the frames of the
    stack, top first. *)
Lemma FrameTree_getTraceIndex_path d_graph stack_trace :
  d_graph ≠ [] →
  tree_path (fst (FrameTree.getTraceIndex d_graph stack_trace))
    (snd (FrameTree.getTraceIndex d_graph stack_trace)) (reverse stack_trace).
Proof.
  intros Hne. rewrite <- (app_nil_r (reverse stack_trace)).
  by apply (FrameTree_walk_path stack_trace d_graph 0 []).
Qed.
End Tree_paths.

Section Stack_read_back.
Context `{Layout} `{Build} `{Collaborators}.

(** A Python walk along a path of the tree whose frames are all in the
    frame table. *)
Lemma Py_GetStackFrame_along_path r max_stacks ids frames :
  Forall2 (λ id frame, d_frame_map r !! id = Some frame) ids frames →
  max_stacks < size_t_modulus →
  ∀ (k : nat) (w : walk (Frame.t * Z)) current_lineno,
    tree_path (d_tree r) (current_index w) ids →
    stacks_obtained w + N.of_nat k = max_stacks →
    ∃ s n,
      while_loop (S k) (Py_GetStackFrame_cond max_stacks) (Py_GetStackFrame_body r)
        (w, current_lineno) = Some (Ret s, n)
      ∧ list_ (fst s) = list_ w ++ take k (walk_entries current_lineno frames).
Proof.
  intros Hframes Hmax.
  induction Hframes as [|id frame ids frames Hframe Hframes IH];
    intros k w current_lineno Hpath Hcnt.
  - simpl in Hpath. cbn [while_loop]. unfold Py_GetStackFrame_cond. cbn [fst snd].
    rewrite walk_cond_root by done. eexists _, _. split; [reflexivity|].
    cbn [fst walk_entries]. by rewrite take_nil, app_nil_r.
  - destruct Hpath as (Hindex & parent & Hnode & Hpath).
    destruct k as [|k].
    + cbn [while_loop]. unfold Py_GetStackFrame_cond. cbn [fst snd].
      rewrite walk_cond_step by done.
      rewrite bool_decide_eq_true_2 by lia. cbn [negb].
      eexists _, _. split; [reflexivity|]. cbn [fst list_]. by rewrite take_0, app_nil_r.
    + remember (S k) as fuel eqn:Hfuel. cbn [while_loop]. subst fuel.
      unfold Py_GetStackFrame_cond at 1. cbn [fst snd].
      rewrite walk_cond_step by done.
      rewrite bool_decide_eq_false_2 by lia. cbn [negb].
      unfold Py_GetStackFrame_body at 1. cbn [current_index].
      rewrite Hnode. cbn [FrameTree.frame_id]. rewrite Hframe.
      cbn [FrameTree.parent_index stacks_obtained list_].
      destruct (IH k (mkWalk parent ((stacks_obtained w + 1) mod size_t_modulus)
                        (list_ w ++ [(frame, current_lineno)]))
                  (Frame.parent_lineno frame)) as (s & n & Hrun & Hlist).
      { done. }
      { cbn [stacks_obtained]. rewrite N.mod_small by lia. lia. }
      rewrite Hrun. eexists _, _. split; [reflexivity|].
      rewrite Hlist. cbn [list_ walk_entries take]. by rewrite <- app_assoc.
Qed.

(** X20: the stack read back.  When the frames below the top of the
    thread's stack are in the frame table too, the trace index handed out
    for an allocation leads the Python walk through the whole stack,
    innermost frame first: the precise frame for the top (paired with -1),
    then each frame below paired with the line at which it called the one
    before it; a depth bound below the height of the stack cuts the result
    after that many frames. *)
Theorem allocation_walk_returns_the_stack r record (bs rest : list byte)
    stack back partial_frame below max_stacks :
  d_tree r ≠ [] →
  (∀ frame id, (frame, id) ∈ d_allocation_frames r → d_frame_map r !! id = Some frame) →
  d_frame_map r !! mint (length (d_allocation_frames r)) = None →
  d_stack_traces r !! AllocationRecord.tid record = Some stack →
  last stack = Some back →
  d_frame_map r !! back = Some partial_frame →
  Forall2 (λ id frame, d_frame_map r !! id = Some frame) (removelast stack) below →
  encodes (RAllocation record) bs →
  d_input r = bs ++ rest →
  max_stacks < size_t_modulus →
  let precise :=
    Frame.mk (Frame.function_name partial_frame) (Frame.filename partial_frame)
      (Frame.parent_lineno partial_frame) (AllocationRecord.py_lineno record) in
  ∃ allocation r',
    nextAllocationRecord r = (Ret (Some allocation), r')
    ∧ Allocation.record allocation = record
    ∧ Py_GetStackFrame r' (Allocation.frame_index allocation) max_stacks
      = Ret (take (N.to_nat max_stacks)
               (walk_entries (-1) (precise :: reverse below))).
Proof.
  intros Htree Hfaithful Hfree Hstack Hlast Hframe Hbelow Henc Hin Hmax precise.
  destruct (allocation_rewrites_top r record bs rest stack back partial_frame
              Hstack Hlast Hframe Henc Hin)
    as (r' & Hstep & _ & _ & _ & Hmap & Htree' & _).
  cbv zeta in Hstep, Hmap, Htree'. fold precise in Hstep, Hmap, Htree'.
  set (allocation_index :=
         fst (snd (FrameCollection.getIndex mint precise (d_allocation_frames r))))
    in Hstep, Hmap, Htree'.
  unfold set_back in Hstep, Htree'.
  pose proof (FrameTree_getTraceIndex_path (d_tree r)
                (removelast stack ++ [allocation_index]) Htree) as Hpath.
  rewrite <- Htree', reverse_snoc in Hpath.
  assert (∀ id frame, d_frame_map r !! id = Some frame →
                      d_frame_map r' !! id = Some frame) as Hgrows.
  { intros id frame Hid. rewrite Hmap.
    destruct (snd (snd (FrameCollection.getIndex mint precise (d_allocation_frames r))));
      [|done].
    destruct (d_frame_map r !! allocation_index) eqn:Hold; [done|].
    rewrite lookup_insert_ne; [done|]. congruence. }
  assert (d_frame_map r' !! allocation_index = Some precise) as Hprecise.
  { rewrite Hmap. unfold allocation_index, FrameCollection.getIndex.
    destruct (FrameCollection.find precise (d_allocation_frames r)) as [id|] eqn:Hfind;
      simpl.
    - apply Hfaithful. by apply FrameCollection_find_elem_of.
    - rewrite Hfree. by rewrite lookup_insert_eq. }
  assert (Forall2 (λ id frame, d_frame_map r' !! id = Some frame)
            (allocation_index :: reverse (removelast stack))
            (precise :: reverse below)) as Hframes.
  { constructor; [done|]. apply Forall2_reverse.
    eapply Forall2_impl; [exact Hbelow|]. intros id frame. apply Hgrows. }
  destruct (Py_GetStackFrame_along_path r' max_stacks _ _ Hframes Hmax
              (N.to_nat max_stacks)
              (mkWalk (snd (FrameTree.getTraceIndex (d_tree r)
                              (removelast stack ++ [allocation_index]))) 0 [])
              (-1)%Z) as (s & n & Hrun & Hlist).
  { exact Hpath. }
  { cbn [stacks_obtained]. lia. }
  eexists _, r'. split; [|split].
  - by rewrite (nextAllocationRecord_of_step _ _ _ Hstep).
  - done.
  - cbn [Allocation.frame_index]. unfold Py_GetStackFrame, Py_GetStackFrame_loop.
    rewrite Hrun. by rewrite Hlist.
Qed.
End Stack_read_back.

(** ** The precise frames stay consistent *)
#[global] Instance stays_consistent_preorder `{Collaborators} : PreOrder stays_consistent.
Proof.
  split.
  - intros r Hr. exact Hr.
  - intros r1 r2 r3 H12 H23 H1. by apply H23, H12.
Qed.

Section Consistency.
Context `{Layout} `{Build} `{Collaborators}.
Hypothesis mint_inj : ∀ k k', mint k = mint k' → k = k'.

(** Writes that leave frame table, precise frames and tree alone. *)
Lemma stays_consistent_same r r' :
  d_frame_map r' = d_frame_map r → d_allocation_frames r' = d_allocation_frames r →
  d_tree r' = d_tree r → stays_consistent r r'.
Proof.
  intros Hmap Hcoll Htree. unfold stays_consistent, precise_frames_consistent.
  by rewrite Hmap, Hcoll, Htree.
Qed.

Lemma read_stays_consistent n : respects stays_consistent (read n).
Proof.
  intros r. apply stays_consistent_same; unfold read;
    by destruct (Source.read _ n (d_input r)) as [[bs|] rest].
Qed.

Lemma getline_stays_consistent d : respects stays_consistent (getline d).
Proof.
  intros r. apply stays_consistent_same; unfold getline;
    by destruct (Source.getline _ d (d_input r)) as [[bs|] rest].
Qed.

(** Minting a precise frame and registering it, as
    [correctAllocationFrame] does. *)
Lemma getIndex_stays_consistent frame r :
  precise_frames_consistent r →
  let found := FrameCollection.getIndex mint frame (d_allocation_frames r) in
  let frame_map :=
    if snd (snd found)
    then match d_frame_map r !! fst (snd found) with
         | Some _ => d_frame_map r
         | None => <[fst (snd found) := frame]> (d_frame_map r)
         end
    else d_frame_map r in
  ∀ r', d_frame_map r' = frame_map → d_allocation_frames r' = fst found →
        d_tree r' = d_tree r → precise_frames_consistent r'.
Proof.
  intros (Hfaithful & Hfree & Htree) found frame_map r' Hmap Hcoll Htree'.
  unfold frame_map, found, FrameCollection.getIndex in Hmap, Hcoll.
  destruct (FrameCollection.find frame (d_allocation_frames r)) as [id|] eqn:Hfind;
    cbn [fst snd] in Hmap, Hcoll.
  - unfold precise_frames_consistent. by rewrite Hmap, Hcoll, Htree'.
  - rewrite (Hfree (length (d_allocation_frames r))) in Hmap by done.
    split; [|split].
    + intros frame' id. rewrite Hmap, Hcoll, elem_of_app, list_elem_of_singleton.
      intros [Hin|[= -> ->]]; [|by rewrite lookup_insert_eq].
      rewrite lookup_insert_ne; [by apply Hfaithful|].
      intros <-. apply Hfaithful in Hin.
      by rewrite (Hfree (length (d_allocation_frames r))) in Hin.
    + intros k. rewrite Hmap, Hcoll, length_app. simpl. intros Hk.
      rewrite lookup_insert_ne; [apply Hfree; lia|].
      intros Heq. apply mint_inj in Heq. lia.
    + by rewrite Htree'.
Qed.

Lemma correctAllocationFrame_stays_consistent tid lineno :
  respects stays_consistent (correctAllocationFrame tid lineno).
Proof.
  intros r Hconsistent. unfold correctAllocationFrame, bind at 1, gets.
  destruct (last (stack_of tid r)) as [back|]; [|done].
  unfold bind at 1. destruct (d_frame_map r !! back) as [partial_frame|]; [|done].
  set (allocation_frame :=
         Frame.mk (Frame.function_name partial_frame) (Frame.filename partial_frame)
           (Frame.parent_lineno partial_frame) lineno).
  pose proof (getIndex_stays_consistent allocation_frame r Hconsistent) as Hkeep.
  cbv zeta in Hkeep. unfold bind at 1.
  destruct (FrameCollection.getIndex mint allocation_frame (d_allocation_frames r))
    as [c [allocation_index is_new_frame]].
  cbn [fst snd] in Hkeep.
  apply Hkeep; destruct is_new_frame;
    unfold bind, frame_map_insert, modify, ret;
    cbn [fst snd d_frame_map with_allocation_frames];
    try destruct (d_frame_map r !! allocation_index); reflexivity.
Qed.

Lemma getAllocationFrameIndex_stays_consistent record :
  respects stays_consistent (getAllocationFrameIndex record).
Proof.
  unfold getAllocationFrameIndex.
  apply (respects_bind stays_consistent); [apply (respects_gets stays_consistent)|].
  intros stacks. destruct (stacks !! AllocationRecord.tid record);
    [|apply (respects_ret stays_consistent)].
  apply (respects_bind stays_consistent);
    [apply correctAllocationFrame_stays_consistent|].
  intros _ r (Hfaithful & Hfree & Htree).
  pose proof (FrameTree_getTraceIndex_prefix
                (stack_of (AllocationRecord.tid record) r) (d_tree r)) as Hprefix.
  destruct (FrameTree.getTraceIndex _ _) as [tree index]. cbn [fst snd] in *.
  split; [done|]. split; [done|].
  cbn [d_tree with_tree]. intros ->. by apply prefix_nil_inv in Hprefix.
Qed.

(** Every record type but FRAME_INDEX keeps the precise frames
    consistent, whatever its payload. *)
Lemma dispatch_stays_consistent record_type :
  record_type ≠ Some FRAME_INDEX →
  respects stays_consistent (dispatch record_type).
Proof.
  intros Htype. unfold dispatch, parseAllocationRecord.
  destruct record_type as [[]|]; try done;
    repeat first
      [ apply read_as_respects | apply getAllocationFrameIndex_stays_consistent
      | apply parseFrame_respects | apply parseNativeFrameIndex_respects
      | apply parseSegmentHeader_respects
      | apply (respects_ret stays_consistent) | apply (respects_gets stays_consistent)
      | apply (respects_throw stays_consistent)
      | apply (respects_modify stays_consistent); intros ?
      | apply (respects_bind stays_consistent); [ | intros ? ]
      | apply _
      | apply read_stays_consistent | apply getline_stays_consistent
      | intros ? ?
      | by apply stays_consistent_same ].
Qed.

(** A FRAME_INDEX record keeps them consistent when the identifier it
    defines is not one the reader mints. *)
Lemma frame_index_stays_consistent id function_name filename parent_lineno
    (bs rest : list byte) r :
  (∀ k, mint k ≠ id) →
  encodes (RFrameIndex id function_name filename parent_lineno) bs →
  d_input r = bs ++ rest →
  stays_consistent r (snd (record_step r)).
Proof.
  intros Hmint Henc Hin.
  apply encodes_frame_index_inv in Henc
    as (tag & id_bs & fn_bs & file_bs & line_bs & -> & Htag & Hid & Hfn & Hfile & Hline).
  rewrite <- !app_assoc in Hin.
  rewrite (record_step_tag _ _ _ _ Htag Hin). cbn [dispatch]. unfold bind at 1.
  rewrite (parseFrameIndex_reads id function_name filename parent_lineno
             id_bs fn_bs file_bs line_bs rest) by done.
  unfold bind, frame_map_insert. cbn [d_frame_map with_input].
  destruct (d_frame_map r !! id) as [old|] eqn:Hold; cbn [negb snd].
  - by apply stays_consistent_same.
  - intros (Hfaithful & Hfree & Htree). split; [|split]; simpl.
    + intros frame id' Hin'. rewrite lookup_insert_ne; [by apply Hfaithful|].
      intros <-. apply Hfaithful in Hin'. congruence.
    + intros k Hk. rewrite lookup_insert_ne; [by apply Hfree|]. intros Heq.
      by apply (Hmint k).
    + done.
Qed.
End Consistency.

Section Consumption.
Context `{Layout} `{Build} `{Collaborators}.

Lemma bind_input {A B} (m : M A) (k : A → M B) r (rest : list byte) :
  d_input (snd (m r)) = rest → (∀ a, respects (keeps d_input) (k a)) →
  d_input (snd (bind m k r)) = rest.
Proof.
  intros Hm Hk. unfold bind. destruct (m r) as [[a| | |] r1]; simpl in *; try done.
  by rewrite (Hk a r1).
Qed.

Lemma parseFrame_consumes e (payload rest : list byte) r :
  is_wire FrameSeqEntry_wire e payload → d_input r = payload ++ rest →
  d_input (snd (parseFrame r)) = rest.
Proof.
  intros Hpay Hin. unfold parseFrame. read_step.
  destruct (FrameSeqEntry.action e) as [[]|]; [done| |done].
  unfold bind, touch_stack, modify, gets, cassert, assert, undefined. simpl.
  destruct NDEBUG; by case_bool_decide.
Qed.

(** A turn of the decode loop over the image of a record leaves the
    stream right behind that record, however the turn ends. *)
Lemma record_step_consumes rec (bs rest : list byte) r :
  encodes rec bs → d_input r = bs ++ rest → d_input (snd (record_step r)) = rest.
Proof.
  intros Henc Hin. destruct rec as [a|e|id fn file pl|frame| |file addr segs].
  - apply encodes_allocation_inv in Henc as (tag & payload & -> & Htag & Hpay).
    rewrite <- app_assoc in Hin.
    rewrite (record_step_tag _ _ _ _ Htag Hin).
    erewrite dispatch_allocation by (done || reflexivity).
    apply bind_input.
    + pose proof (getAllocationFrameIndex_respects (keeps d_input)) as Hkeeps.
      by rewrite Hkeeps.
    + intros f_index. apply (respects_bind (keeps d_input));
        [apply (respects_gets (keeps d_input))|].
      intros generation. apply (respects_ret (keeps d_input)).
  - apply encodes_frame_inv in Henc as (tag & payload & -> & Htag & Hpay).
    rewrite <- app_assoc in Hin.
    rewrite (record_step_tag _ _ _ _ Htag Hin). cbn [dispatch].
    apply bind_input; [by eapply parseFrame_consumes|].
    intros _. apply (respects_ret (keeps d_input)).
  - apply encodes_frame_index_inv in Henc
      as (tag & id_bs & fn_bs & file_bs & line_bs & -> & Htag & Hid & Hfn & Hfile & Hline).
    rewrite <- !app_assoc in Hin.
    rewrite (record_step_tag _ _ _ _ Htag Hin). cbn [dispatch].
    apply bind_input; [|intros _; apply (respects_ret (keeps d_input))].
    rewrite (parseFrameIndex_reads id fn file pl id_bs fn_bs file_bs line_bs rest)
      by done.
    unfold bind, frame_map_insert. cbn [d_frame_map with_input].
    by destruct (d_frame_map r !! id).
  - apply encodes_native_trace_index_inv in Henc as (tag & payload & -> & Htag & Hpay).
    rewrite <- app_assoc in Hin.
    rewrite (record_step_tag _ _ _ _ Htag Hin). cbn [dispatch].
    apply bind_input; [|intros _; apply (respects_ret (keeps d_input))].
    unfold parseNativeFrameIndex. by read_step.
  - apply encodes_memory_map_start_inv in Henc.
    by rewrite (record_step_tag _ _ _ _ Henc Hin).
  - apply encodes_segment_header_inv in Henc
      as (tag & file_bs & count_bs & addr_bs & body & -> & Htag & Hfile & Hcount
          & Haddr & Hbody & Hfits).
    rewrite <- !app_assoc in Hin.
    rewrite (record_step_tag _ _ _ _ Htag Hin). cbn [dispatch].
    apply bind_input; [|intros _; apply (respects_ret (keeps d_input))].
    by rewrite (parseSegmentHeader_encoded file addr segs file_bs count_bs addr_bs
                  body rest) by done.
Qed.
End Consumption.

Section Consistent_runs.
Context `{Layout} `{Build} `{Collaborators}.

Lemma record_step_stays_consistent rec (bs rest : list byte) r :
  (∀ k k', mint k = mint k' → k = k') →
  (∀ id function_name filename parent_lineno,
     rec = RFrameIndex id function_name filename parent_lineno → ∀ k, mint k ≠ id) →
  encodes rec bs → d_input r = bs ++ rest →
  stays_consistent r (snd (record_step r)).
Proof.
  intros Hinj Hids Henc Hin.
  assert (∀ record_type (tag rest' : list byte),
            is_wire RecordType_wire record_type tag → d_input r = tag ++ rest' →
            record_type ≠ Some FRAME_INDEX →
            stays_consistent r (snd (record_step r))) as Hother.
  { intros record_type tag rest' Htag Hin' Htype.
    rewrite (record_step_tag _ _ _ _ Htag Hin').
    etrans; [|by apply (dispatch_stays_consistent Hinj record_type Htype)].
    by apply stays_consistent_same. }
  destruct rec as [a|e|id fn file pl|frame| |file addr segs].
  - apply encodes_allocation_inv in Henc as (tag & payload & -> & Htag & Hpay).
    rewrite <- app_assoc in Hin. by apply (Hother _ _ _ Htag Hin).
  - apply encodes_frame_inv in Henc as (tag & payload & -> & Htag & Hpay).
    rewrite <- app_assoc in Hin. by apply (Hother _ _ _ Htag Hin).
  - eapply frame_index_stays_consistent; [by eapply Hids | exact Henc | exact Hin].
  - apply encodes_native_trace_index_inv in Henc as (tag & payload & -> & Htag & Hpay).
    rewrite <- app_assoc in Hin. by apply (Hother _ _ _ Htag Hin).
  - apply encodes_memory_map_start_inv in Henc. by apply (Hother _ _ _ Henc Hin).
  - apply encodes_segment_header_inv in Henc
      as (tag & file_bs & count_bs & addr_bs & body & -> & Htag & _).
    rewrite <- !app_assoc in Hin. by apply (Hother _ _ _ Htag Hin).
Qed.

Lemma readHeader_stays_consistent : respects stays_consistent readHeader.
Proof.
  unfold readHeader.
  repeat first
    [ apply read_as_respects | apply read_stays_consistent
    | apply getline_stays_consistent
    | apply (respects_throw stays_consistent)
    | apply (respects_modify stays_consistent); intros ?; by apply stays_consistent_same
    | apply (respects_bind stays_consistent); [ | intros ? ]
    | apply _
    | match goal with |- respects _ (if ?b then _ else _) => destruct b end ].
Qed.

(** X21: the precise frames stay consistent.  The reader the
    constructor leaves, whether it returned or threw, has consistent
    precise frames; and over the image of a trace none of whose FRAME_INDEX
    records defines an identifier of the minting scheme (itself without
    repetitions), a consistent reader stays consistent turn after turn,
    however a turn ends: every precise frame is in the frame table under
    its own identifier, the identifiers to come are free, and the tree
    keeps its root. *)
Theorem precise_frames_stay_consistent r recs (bs rest : list byte) :
  (∀ k k', mint k = mint k' → k = k') →
  (∀ id function_name filename parent_lineno,
     RFrameIndex id function_name filename parent_lineno ∈ recs → ∀ k, mint k ≠ id) →
  encodes_trace recs bs →
  d_input r = bs ++ rest →
  (∀ source, precise_frames_consistent (snd (RecordReader_new source)))
  ∧ (precise_frames_consistent r →
     ∀ k, (k ≤ length recs)%nat → precise_frames_consistent (after_turns k r)).
Proof.
  intros Hinj Hids Henc Hin. split.
  - intros source. apply (readHeader_stays_consistent (fresh_reader source)).
    split; [|split]; try done. intros frame id Hin'. by apply not_elem_of_nil in Hin'.
  - revert r Hin Hids.
    induction Henc as [|rec recs bs bs' Hrec Henc IH]; intros r Hin Hids Hr k Hk.
    + simpl in Hk. by replace k with 0%nat by lia.
    + destruct k as [|k]; [done|]. rewrite <- app_assoc in Hin.
      pose proof (record_step_stays_consistent rec bs (bs' ++ rest) r Hinj) as Hstep.
      pose proof (record_step_consumes rec bs (bs' ++ rest) r Hrec Hin) as Hrest.
      cbn [after_turns].
      destruct (record_step r) as [[o| | |] r'] eqn:Estep; cbn [snd] in *;
        try (apply Hstep; try done; intros; eapply Hids; subst; left).
      apply IH; [done | | | simpl in Hk; lia].
      * intros id fn file pl Hin'. eapply Hids. by right.
      * apply Hstep; try done. intros id fn file pl ->. eapply Hids. left.
Qed.
End Consistent_runs.

(** * Worked examples

    The theorems above, run on the concrete platform. *)
Module Examples.
Import Example_platform.

Ltac wire := split; vm_compute; reflexivity.
Ltac cstring :=
  split; [apply (bool_decide_unpack _); vm_compute; exact I | reflexivity].
Ltac enc :=
  lazymatch goal with
  | |- encodes (RAllocation _) _ =>
      unfold allocation_bytes; apply encodes_allocation; wire
  | |- encodes (RFrame _) _ => unfold frame_bytes; apply encodes_frame; wire
  | |- encodes (RFrameIndex _ _ _ _) _ =>
      unfold frame_index_bytes; apply encodes_frame_index; first [wire | cstring]
  end.


Lemma duplicate_frame_id_witness :
  is_Some (d_frame_map twice_defined_reader !! 2)
  ∧ encodes (RFrameIndex 2 (list_byte_of_string "bar") (list_byte_of_string "b.py") 3)
      (frame_index_bytes 2 "bar" "b.py" 3)
  ∧ d_input twice_defined_reader
    = frame_index_bytes 2 "bar" "b.py" 3 ++ allocation_bytes alloc_7_42
  ∧ nextAllocationRecord twice_defined_reader
    = (Throw (runtime_error "Two entries with the same ID found!"),
       with_input (allocation_bytes alloc_7_42) twice_defined_reader)
  ∧ fst (nextAllocationRecord twice_defined_reader) ≠ Ret None.
Proof.
  assert (is_Some (d_frame_map twice_defined_reader !! 2)) as Hdup
    by (vm_compute; eauto).
  assert (encodes (RFrameIndex 2 (list_byte_of_string "bar")
                     (list_byte_of_string "b.py") 3)
            (frame_index_bytes 2 "bar" "b.py" 3)) as Henc.
  { unfold frame_index_bytes. apply encodes_frame_index; try wire.
    - cstring.
    - cstring. }
  split; [done|]. split; [done|]. split; [reflexivity|].
  by apply (duplicate_frame_id_throws twice_defined_reader 2
              (list_byte_of_string "bar") (list_byte_of_string "b.py") 3
              (frame_index_bytes 2 "bar" "b.py" 3) (allocation_bytes alloc_7_42)).
Defined.

(** A POP for thread 7 as the first record of the stream.  The build
    that keeps its assertions stops at the assertion; the build that
    compiles them out pops from the empty vector.  Neither throws. *)
Lemma pop_on_empty_stack_witness :
  FrameSeqEntry.action (FrameSeqEntry.mk 2 7 (Some POP)) = Some POP
  ∧ stack_of 7 pop_first_reader = []
  ∧ encodes (RFrame (FrameSeqEntry.mk 2 7 (Some POP))) (frame_bytes 2 7 1)
  ∧ d_input pop_first_reader = frame_bytes 2 7 1 ++ allocation_bytes alloc_7_42
  ∧ (nextAllocationRecord pop_first_reader
     = (AssertFail,
        with_stack_traces (<[7 := []]> (d_stack_traces pop_first_reader))
          (with_input (allocation_bytes alloc_7_42) pop_first_reader))
     ∧ ∀ ex, fst (nextAllocationRecord pop_first_reader) ≠ Throw ex)
  ∧ (nextAllocationRecord (H0 := release_build) pop_first_reader
     = (Undefined,
        with_stack_traces (<[7 := []]> (d_stack_traces pop_first_reader))
          (with_input (allocation_bytes alloc_7_42) pop_first_reader))
     ∧ ∀ ex, fst (nextAllocationRecord (H0 := release_build) pop_first_reader)
             ≠ Throw ex).
Proof.
  assert (encodes (RFrame (FrameSeqEntry.mk 2 7 (Some POP))) (frame_bytes 2 7 1))
    as Henc by (unfold frame_bytes; apply encodes_frame; wire).
  assert (encodes (H0 := release_build)
            (RFrame (FrameSeqEntry.mk 2 7 (Some POP))) (frame_bytes 2 7 1))
    as Henc' by (unfold frame_bytes; apply encodes_frame; wire).
  split; [reflexivity|]. split; [reflexivity|]. split; [done|]. split; [reflexivity|].
  split.
  - exact (pop_on_empty_stack_never_throws pop_first_reader
             (FrameSeqEntry.mk 2 7 (Some POP))
             (frame_bytes 2 7 1) (allocation_bytes alloc_7_42)
             eq_refl eq_refl Henc eq_refl).
  - exact (pop_on_empty_stack_never_throws (H0 := release_build) pop_first_reader
             (FrameSeqEntry.mk 2 7 (Some POP))
             (frame_bytes 2 7 1) (allocation_bytes alloc_7_42)
             eq_refl eq_refl Henc' eq_refl).
Defined.

(** The scenario of the specification: one allocation, then [false]. *)
Lemma decode_next_in_order_witness :
  RecordReader_new good_source = (Ret tt, scenario_reader)
  ∧ encodes_trace scenario_records (d_input scenario_reader)
  ∧ Protocol.well_formed mint Protocol.initial scenario_records
  ∧ ∃ allocs r',
      decode_calls (S (length allocs)) scenario_reader
        = (map (λ a, Ret (Some a)) allocs ++ [Ret None], r')
      ∧ map Allocation.record allocs = allocation_records scenario_records.
Proof.
  assert (RecordReader_new good_source = (Ret tt, scenario_reader)) as Hnew
    by (vm_compute; reflexivity).
  assert (encodes_trace scenario_records (d_input scenario_reader)) as Henc.
  { change (d_input scenario_reader) with scenario_bytes. unfold scenario_bytes.
    rewrite <- (app_nil_r (allocation_bytes alloc_7_42)).
    repeat (apply encodes_trace_cons; [enc|]). constructor. }
  assert (Protocol.well_formed mint Protocol.initial scenario_records) as Hwf.
  { repeat split.
    - apply not_elem_of_empty.
    - intros k. unfold mint. simpl. lia. }
  split; [done|]. split; [done|]. split; [done|].
  by apply (decode_next_in_order good_source scenario_reader scenario_records).
Defined.

(** The allocation at line 42 inside "foo" rewrites the top of the stack
    of thread 7 from frame 2 to the precise frame 1. *)
Lemma correction_persists_witness :
  precise_frames_registered in_foo_reader
  ∧ d_stack_traces in_foo_reader !! 7 = Some [2]
  ∧ last [2] = Some 2
  ∧ d_frame_map in_foo_reader !! 2 = Some foo
  ∧ encodes (RAllocation alloc_7_42) (allocation_bytes alloc_7_42)
  ∧ d_input in_foo_reader = allocation_bytes alloc_7_42 ++ allocation_bytes alloc_7_43
  ∧ ∃ allocation r',
      nextAllocationRecord in_foo_reader = (Ret (Some allocation), r')
      ∧ Allocation.record allocation = alloc_7_42
      ∧ Allocation.frame_index allocation
        = snd (FrameTree.getTraceIndex (d_tree in_foo_reader) (removelast [2] ++ [1]))
      ∧ d_stack_traces r' !! 7 = Some (removelast [2] ++ [1])
      ∧ (∀ tid, tid ≠ 7 → d_stack_traces r' !! tid = d_stack_traces in_foo_reader !! tid)
      ∧ last (removelast [2] ++ [1]) = Some 1
      ∧ is_Some (d_frame_map r' !! 1).
Proof.
  assert (precise_frames_registered in_foo_reader) as Hreg.
  { intros frame id Hin. by apply not_elem_of_nil in Hin. }
  assert (encodes (RAllocation alloc_7_42) (allocation_bytes alloc_7_42)) as Henc by enc.
  split; [done|]. split; [reflexivity|]. split; [reflexivity|]. split; [reflexivity|].
  split; [done|]. split; [reflexivity|].
  exact (correction_persists in_foo_reader alloc_7_42 (allocation_bytes alloc_7_42)
           (allocation_bytes alloc_7_43) [2] 2 foo Hreg eq_refl eq_refl eq_refl Henc
           eq_refl).
Defined.

(** After decode_next has returned the allocation at line 42, the stack
    of thread 7 is no longer what it was: frame 2 has been replaced by the
    precise frame 1, and no push or pop took place. *)
Lemma correction_outlives_decode_next :
  stack_of 7 in_foo_reader = [2]
  ∧ (∃ allocation, fst (nextAllocationRecord in_foo_reader) = Ret (Some allocation)
                   ∧ Allocation.record allocation = alloc_7_42)
  ∧ stack_of 7 (snd (nextAllocationRecord in_foo_reader)) = [1]
  ∧ stack_of 7 (snd (nextAllocationRecord in_foo_reader)) ≠ stack_of 7 in_foo_reader.
Proof.
  assert (stack_of 7 (snd (nextAllocationRecord in_foo_reader)) = [1]) as Hafter
    by (vm_compute; reflexivity).
  split; [reflexivity|]. split; [eexists; split; vm_compute; reflexivity|].
  split; [done|]. rewrite Hafter. by vm_compute.
Qed.

(** One segment announced, two registered. *)
Lemma segment_header_witness :
  encodes (RSegmentHeader (list_byte_of_string "libc.so") 4096 [Segment.mk 16 32])
    one_segment_bytes
  ∧ d_input one_segment_reader = one_segment_bytes ++ allocation_bytes alloc_7_42
  ∧ record_step one_segment_reader =
      (Ret None,
       with_symbol_resolver
         (SymbolResolver.addSegments (list_byte_of_string "libc.so") 4096
            [Segment.zero; Segment.mk 16 32] (d_symbol_resolver one_segment_reader))
         (with_input (allocation_bytes alloc_7_42) one_segment_reader))
  ∧ length [Segment.zero; Segment.mk 16 32] = (2 * length [Segment.mk 16 32])%nat.
Proof.
  assert (encodes (RSegmentHeader (list_byte_of_string "libc.so") 4096 [Segment.mk 16 32])
            one_segment_bytes) as Henc.
  { assert (encodes_segments [Segment.mk 16 32] (segment_bytes 16 32)) as Hseg.
    { replace (segment_bytes 16 32)
        with (tag 7 ++ (le_encode 8 16 ++ le_encode 8 32) ++ [])
        by (vm_compute; reflexivity).
      apply encodes_segments_cons; [wire | wire | constructor]. }
    unfold one_segment_bytes, segment_header_bytes. rewrite <- !app_assoc.
    apply encodes_segment_header; [wire | cstring | by vm_compute | wire | wire | exact Hseg]. }
  split; [done|]. split; [reflexivity|].
  by apply (segment_header_registers_placeholders one_segment_reader
              (list_byte_of_string "libc.so") 4096 [Segment.mk 16 32]
              one_segment_bytes (allocation_bytes alloc_7_42)).
Defined.

(** A stream with version 2 is refused with the format error. *)
Lemma header_validation_witness :
  version_differs bad_version_source
  ∧ magic_differs bad_magic_source
  ∧ (∃ what, fst (RecordReader_new bad_version_source) = Throw (ios_failure what))
  ∧ (∃ what, fst (RecordReader_new bad_magic_source) = Throw (ios_failure what))
  ∧ ∀ k, getHeader (snd (decode_calls k scenario_reader)) = getHeader scenario_reader.
Proof.
  assert (version_differs bad_version_source) as Hversion.
  { split; [vm_compute; reflexivity|]. split; [vm_compute; lia|]. by vm_compute. }
  assert (magic_differs bad_magic_source) as Hmagic.
  { split; [vm_compute; lia|]. by vm_compute. }
  assert (RecordReader_new good_source = (Ret tt, scenario_reader)) as Hnew
    by (vm_compute; reflexivity).
  split; [done|]. split; [done|]. split; [|split].
  - apply (header_validation bad_version_source). by right.
  - apply (header_validation bad_magic_source). by left.
  - by apply (header_validation good_source).
Defined.

(** Thread 8 allocates after records that only concern thread 7. *)
Lemma allocation_on_unpushed_thread_witness :
  RecordReader_new unpushed_source = (Ret tt, unpushed_reader)
  ∧ encodes_trace (unpushed_records ++ [RAllocation alloc_8_5]) (d_input unpushed_reader)
  ∧ Protocol.well_formed mint Protocol.initial unpushed_records
  ∧ Protocol.never_pushed 8 unpushed_records
  ∧ ∃ rest,
      nextAllocationRecord (after_turns 2 unpushed_reader) =
        (Ret (Some (Allocation.mk alloc_8_5 0
                      (SymbolResolver.currentSegmentGeneration
                         (d_symbol_resolver (after_turns 2 unpushed_reader))))),
         with_input rest (after_turns 2 unpushed_reader))
      ∧ encodes_trace [] rest
      ∧ ∀ r2 max_stacks, Py_GetStackFrame r2 0 max_stacks = Ret [].
Proof.
  assert (encodes_trace (unpushed_records ++ [RAllocation alloc_8_5])
            (d_input unpushed_reader)) as Henc.
  { change (d_input unpushed_reader)
      with (frame_index_bytes 2 "foo" "a.py" 0 ++ frame_bytes 2 7 0
              ++ allocation_bytes alloc_8_5).
    rewrite <- (app_nil_r (allocation_bytes alloc_8_5)).
    repeat (apply encodes_trace_cons; [enc|]). constructor. }
  assert (Protocol.well_formed mint Protocol.initial unpushed_records) as Hwf.
  { repeat split.
    - apply not_elem_of_empty.
    - intros k. unfold mint. simpl. lia. }
  assert (Protocol.never_pushed 8 unpushed_records) as Hnp.
  { intros e He Htid. unfold unpushed_records in He.
    apply elem_of_cons in He as [He|He]; [done|].
    apply list_elem_of_singleton in He. injection He as ->. done. }
  split; [vm_compute; reflexivity|]. split; [done|]. split; [done|]. split; [done|].
  by apply (allocation_on_unpushed_thread unpushed_source unpushed_reader
              unpushed_records alloc_8_5 []).
Defined.

(** Cyclic links, depth 3: both walks return after exactly 3 links.
    Dangling links: the Python walk throws at its first link, the native
    walk faults at its second. *)
Lemma walks_follow_links_witness :
  3 < size_t_modulus
  ∧ tree_closed cyclic_reader ∧ in_tree cyclic_reader 1
  ∧ tree_frames 3 cyclic_reader 1 = [foo; foo; foo]
  ∧ Py_GetStackFrame cyclic_reader 1 3 = Ret [(foo, (-1)%Z); (foo, 0%Z); (foo, 0%Z)]
  ∧ (∃ s, (∀ fuel, (3 < fuel)%nat →
             Py_GetStackFrame_loop fuel cyclic_reader 1 3 = Some (Ret s, 3%nat))
          ∧ current_index (fst s) = 1
          ∧ list_ (fst s) = [(foo, (-1)%Z); (foo, 0%Z); (foo, 0%Z)])
  ∧ Py_GetNativeStackFrame cyclic_reader 1 0 3 = Ret [20; 21; 10]
  ∧ (∃ w, (∀ fuel, (3 < fuel)%nat →
             Py_GetNativeStackFrame_loop fuel cyclic_reader 1 0 3 = Some (Ret w, 3%nat))
          ∧ current_index w = 3
          ∧ list_ w = [20; 21; 10])
  ∧ tree_end 3 dangling_reader 1 = 1
  ∧ (Py_GetStackFrame dangling_reader 1 3 = Throw out_of_range
     ∧ ∀ fuel, (3 < fuel)%nat →
         Py_GetStackFrame_loop fuel dangling_reader 1 3
         = Some (Throw out_of_range, 1%nat))
  ∧ chain_end 3 (d_native_frames dangling_reader) 1 = 5
  ∧ (Py_GetNativeStackFrame dangling_reader 1 0 3 = Undefined
     ∧ ∀ fuel, (3 < fuel)%nat →
         Py_GetNativeStackFrame_loop fuel dangling_reader 1 0 3
         = Some (Undefined, 2%nat)).
Proof.
  assert (3 < size_t_modulus) as Hmax by (vm_compute; reflexivity).
  assert (in_tree cyclic_reader 1) as Hindex by (right; vm_compute; eauto).
  assert (tree_closed cyclic_reader) as Hclosed.
  { intros index node Hroot Hnode.
    assert (index = 1) as ->.
    { apply lookup_lt_Some in Hnode. simpl in Hnode. lia. }
    injection Hnode as <-. split; [vm_compute; eauto | exact Hindex]. }
  destruct (walks_follow_links cyclic_reader 1 0 3 Hmax)
    as [(_ & Hpy & _ & Hpy_closed) (_ & Hnat & _ & _)].
  destruct (walks_follow_links dangling_reader 1 0 3 Hmax)
    as [(_ & _ & Hpy_faults & _) (_ & _ & Hnat_faults & _)].
  split; [done|]. split; [done|]. split; [done|]. split; [reflexivity|].
  split; [exact (Hpy_closed Hclosed Hindex)|].
  split; [exact (proj2 (Hpy (or_intror eq_refl)))|].
  split; [exact (proj1 (Hnat (or_intror eq_refl)))|].
  split; [exact (proj2 (Hnat (or_intror eq_refl)))|].
  split; [reflexivity|].
  split.
  { assert (tree_end 3 dangling_reader 1 ≠ 0) as Hne by (by vm_compute).
    assert (length (tree_frames 3 dangling_reader 1) < 3)%nat as Hlen
      by (vm_compute; lia).
    exact (proj2 (Hpy_faults Hne Hlen)). }
  split; [reflexivity|].
  assert (chain_end 3 (d_native_frames dangling_reader) 1 ≠ 0) as Hne by (by vm_compute).
  assert (length (chain_links 3 (d_native_frames dangling_reader) 1) < 3)%nat as Hlen
    by (vm_compute; lia).
  exact (proj2 (Hnat_faults Hne Hlen)).
Defined.

(** From entry 1 with depth 1 the walk follows one link and returns no
    frame (entry 1 does not resolve); from entry 2 with depth 1 it follows
    one link and returns two frames. *)
Lemma native_walk_output_witness :
  1 < size_t_modulus
  ∧ links_in_table (d_native_frames chain_reader)
  ∧ 1 ≤ N.of_nat (length (d_native_frames chain_reader))
  ∧ chain_links (N.to_nat 1) (d_native_frames chain_reader) 1
    = [UnresolvedNativeFrame.mk 9 2]
  ∧ chain_links (N.to_nat 1) (d_native_frames chain_reader) 2
    = [UnresolvedNativeFrame.mk 2 3]
  ∧ Py_GetNativeStackFrame chain_reader 1 0 1 = Ret []
  ∧ Py_GetNativeStackFrame chain_reader 2 0 1 = Ret [20; 21].
Proof.
  assert (1 < size_t_modulus) as Hmax by (vm_compute; reflexivity).
  assert (links_in_table (d_native_frames chain_reader)) as Htable.
  { unfold links_in_table. simpl. repeat constructor; simpl; lia. }
  split; [done|]. split; [done|]. split; [simpl; lia|].
  split; [reflexivity|]. split; [reflexivity|]. split.
  - assert (1 ≤ N.of_nat (length (d_native_frames chain_reader))) as Hindex
      by (simpl; lia).
    exact (proj1 (native_walk_output chain_reader 1 0 1 Hmax Htable Hindex)).
  - assert (2 ≤ N.of_nat (length (d_native_frames chain_reader))) as Hindex
      by (simpl; lia).
    exact (proj1 (native_walk_output chain_reader 2 0 1 Hmax Htable Hindex)).
Defined.

(** With depth bound 3, the Python walk from node 1 ends after one link
    by [std::out_of_range] (frame 9 is not in the frame table) and the
    native walk from entry 1 ends at its second link by an access outside
    the chain table: neither has reached the 0 sentinel or the bound. *)
Lemma walk_ends_at_dangling_link :
  Py_GetStackFrame_loop 4 dangling_reader 1 3 = Some (Throw out_of_range, 1%nat)
  ∧ Py_GetStackFrame dangling_reader 1 3 = Throw out_of_range
  ∧ Py_GetNativeStackFrame_loop 4 dangling_reader 1 0 3 = Some (Undefined, 2%nat)
  ∧ Py_GetNativeStackFrame dangling_reader 1 0 3 = Undefined
  ∧ ¬ (∃ frames, Py_GetStackFrame dangling_reader 1 3 = Ret frames)
  ∧ ¬ (∃ frames, Py_GetNativeStackFrame dangling_reader 1 0 3 = Ret frames).
Proof.
  assert (Py_GetStackFrame dangling_reader 1 3 = Throw out_of_range) as Hpy
    by (vm_compute; reflexivity).
  assert (Py_GetNativeStackFrame dangling_reader 1 0 3 = Undefined) as Hnative
    by (vm_compute; reflexivity).
  split; [vm_compute; reflexivity|]. split; [done|].
  split; [vm_compute; reflexivity|]. split; [done|]. split.
  - rewrite Hpy. by intros [frames Hframes].
  - rewrite Hnative. by intros [frames Hframes].
Qed.

(** Frame 2 is "foo" before and after the two allocations inside it,
    which add the precise frames 1 and 3 next to it. *)
Lemma frame_table_is_write_once_witness :
  d_frame_map in_foo_reader !! 2 = Some foo
  ∧ d_frame_map (snd (nextAllocationRecord in_foo_reader)) !! 2 = Some foo
  ∧ d_frame_map (snd (decode_calls 3 in_foo_reader)) !! 2 = Some foo.
Proof.
  split; [reflexivity|].
  exact (frame_table_is_write_once 3 in_foo_reader 2 foo eq_refl).
Defined.

(** A SEGMENT tag at top level. *)
Lemma invalid_record_type_witness :
  (Some SEGMENT = Some SEGMENT ∨ Some SEGMENT = None)
  ∧ is_wire RecordType_wire (Some SEGMENT) (tag 7)
  ∧ d_input stray_segment_reader
    = tag 7 ++ (le_encode 8 16 ++ le_encode 8 32) ++ allocation_bytes alloc_7_42
  ∧ nextAllocationRecord stray_segment_reader
    = (Throw (runtime_error "Invalid record type"),
       with_input ((le_encode 8 16 ++ le_encode 8 32) ++ allocation_bytes alloc_7_42)
         stray_segment_reader).
Proof.
  assert (is_wire RecordType_wire (Some SEGMENT) (tag 7)) as Htag by wire.
  split; [by left|]. split; [done|]. split; [reflexivity|].
  exact (invalid_record_type_throws stray_segment_reader (Some SEGMENT) (tag 7)
           ((le_encode 8 16 ++ le_encode 8 32) ++ allocation_bytes alloc_7_42)
           (or_introl eq_refl) Htag eq_refl).
Defined.


(** An ALLOCATION tag where a SEGMENT tag is due, in the build without
    assertions. *)
Lemma release_build_ignores_subrecord_tag_witness :
  NDEBUG (Build := release_build) = true
  ∧ is_wire RecordType_wire (Some ALLOCATION) (tag 1)
  ∧ is_wire Segment_wire (Segment.mk 16 32) (le_encode 8 16 ++ le_encode 8 32)
  ∧ parseSegment (H0 := release_build)
      (reader_over (tag 1 ++ (le_encode 8 16 ++ le_encode 8 32) ++ []))
    = (Ret (Segment.mk 16 32),
       with_input [] (reader_over (tag 1 ++ (le_encode 8 16 ++ le_encode 8 32) ++ []))).
Proof.
  assert (is_wire RecordType_wire (Some ALLOCATION) (tag 1)) as Htag by wire.
  assert (is_wire Segment_wire (Segment.mk 16 32) (le_encode 8 16 ++ le_encode 8 32))
    as Hpay by wire.
  split; [reflexivity|]. split; [done|]. split; [done|].
  exact (release_build_ignores_subrecord_tag (H0 := release_build)
           (reader_over (tag 1 ++ (le_encode 8 16 ++ le_encode 8 32) ++ []))
           (Some ALLOCATION) (Segment.mk 16 32)
           (tag 1) (le_encode 8 16 ++ le_encode 8 32) [] eq_refl Htag Hpay eq_refl).
Defined.

(** 2^61 segments announced and the stream cut behind the header. *)
Lemma oversized_segment_header_witness :
  Segment_vector_max_size < 2 ^ 61
  ∧ is_wire RecordType_wire (Some SEGMENT_HEADER) (tag 6)
  ∧ is_cstring (list_byte_of_string "libc.so") (cstring "libc.so")
  ∧ is_wire size_t_wire (2 ^ 61) (le_encode 8 (2 ^ 61))
  ∧ is_wire uintptr_t_wire 4096 (le_encode 8 4096)
  ∧ d_input oversized_segment_header_reader
    = tag 6 ++ cstring "libc.so" ++ le_encode 8 (2 ^ 61) ++ le_encode 8 4096 ++ []
  ∧ nextAllocationRecord oversized_segment_header_reader
    = (Throw length_error, with_input [] oversized_segment_header_reader)
  ∧ d_symbol_resolver (snd (nextAllocationRecord oversized_segment_header_reader))
    = d_symbol_resolver oversized_segment_header_reader.
Proof.
  assert (Segment_vector_max_size < 2 ^ 61) as Hmax by (vm_compute; reflexivity).
  assert (is_wire RecordType_wire (Some SEGMENT_HEADER) (tag 6)) as Hhtag by wire.
  assert (is_cstring (list_byte_of_string "libc.so") (cstring "libc.so")) as Hfile
    by cstring.
  assert (is_wire size_t_wire (2 ^ 61) (le_encode 8 (2 ^ 61))) as Hcount by wire.
  assert (is_wire uintptr_t_wire 4096 (le_encode 8 4096)) as Haddr by wire.
  split; [done|]. split; [done|]. split; [done|]. split; [done|]. split; [done|].
  split; [reflexivity|].
  exact (oversized_segment_header_throws oversized_segment_header_reader
           (list_byte_of_string "libc.so") 4096 (2 ^ 61)
           (tag 6) (cstring "libc.so") (le_encode 8 (2 ^ 61)) (le_encode 8 4096) []
           Hmax Hhtag Hfile Hcount Haddr eq_refl).
Defined.

(** Frame 9 on top of the stack of thread 7 is not in the frame table. *)
Lemma allocation_with_undefined_top_frame_witness :
  d_stack_traces undefined_top_reader !! 7 = Some [9]
  ∧ last [9] = Some 9
  ∧ d_frame_map undefined_top_reader !! 9 = None
  ∧ encodes (RAllocation alloc_7_42) (allocation_bytes alloc_7_42)
  ∧ d_input undefined_top_reader
    = allocation_bytes alloc_7_42 ++ allocation_bytes alloc_7_43
  ∧ nextAllocationRecord undefined_top_reader
    = (Throw out_of_range,
       with_input (allocation_bytes alloc_7_43) undefined_top_reader).
Proof.
  assert (encodes (RAllocation alloc_7_42) (allocation_bytes alloc_7_42)) as Henc by enc.
  split; [reflexivity|]. split; [reflexivity|]. split; [reflexivity|].
  split; [done|]. split; [reflexivity|].
  exact (allocation_with_undefined_top_frame_throws undefined_top_reader alloc_7_42
           (allocation_bytes alloc_7_42) (allocation_bytes alloc_7_43) [9] 9
           eq_refl eq_refl eq_refl Henc eq_refl).
Defined.

(** Thread 7 has an empty stack: trace index 0. *)
Lemma allocation_on_emptied_stack_witness :
  d_stack_traces emptied_stack_reader !! 7 = Some []
  ∧ encodes (RAllocation alloc_7_42) (allocation_bytes alloc_7_42)
  ∧ d_input emptied_stack_reader = allocation_bytes alloc_7_42 ++ []
  ∧ nextAllocationRecord emptied_stack_reader
    = (Ret (Some (Allocation.mk alloc_7_42 0 0)), with_input [] emptied_stack_reader).
Proof.
  assert (encodes (RAllocation alloc_7_42) (allocation_bytes alloc_7_42)) as Henc by enc.
  split; [reflexivity|]. split; [done|]. split; [by rewrite app_nil_r|].
  assert (d_input emptied_stack_reader = allocation_bytes alloc_7_42 ++ []) as Hin
    by (by rewrite app_nil_r).
  exact (allocation_on_emptied_stack emptied_stack_reader alloc_7_42
           (allocation_bytes alloc_7_42) [] eq_refl Henc Hin).
Defined.

(** Thread 7 pushes frame 3 and pops (the POP naming frame 9): its stack
    is [2] again. *)
Lemma push_then_pop_witness :
  FrameSeqEntry.action (FrameSeqEntry.mk 3 7 (Some PUSH)) = Some PUSH
  ∧ FrameSeqEntry.action (FrameSeqEntry.mk 9 7 (Some POP)) = Some POP
  ∧ encodes (RFrame (FrameSeqEntry.mk 3 7 (Some PUSH))) (frame_bytes 3 7 0)
  ∧ encodes (RFrame (FrameSeqEntry.mk 9 7 (Some POP))) (frame_bytes 9 7 1)
  ∧ d_input push_pop_reader
    = frame_bytes 3 7 0 ++ frame_bytes 9 7 1 ++ allocation_bytes alloc_7_42
  ∧ after_turns 2 push_pop_reader
    = with_stack_traces (<[7 := stack_of 7 push_pop_reader]>
                           (d_stack_traces push_pop_reader))
        (with_input (allocation_bytes alloc_7_42) push_pop_reader)
  ∧ stack_of 7 (after_turns 2 push_pop_reader) = [2]
  ∧ nextAllocationRecord push_pop_reader
    = nextAllocationRecord (after_turns 2 push_pop_reader).
Proof.
  assert (encodes (RFrame (FrameSeqEntry.mk 3 7 (Some PUSH))) (frame_bytes 3 7 0))
    as Hpush by enc.
  assert (encodes (RFrame (FrameSeqEntry.mk 9 7 (Some POP))) (frame_bytes 9 7 1))
    as Hpop by enc.
  split; [reflexivity|]. split; [reflexivity|]. split; [done|]. split; [done|].
  split; [reflexivity|].
  exact (push_then_pop_restores_stack push_pop_reader (FrameSeqEntry.mk 3 7 (Some PUSH))
           (FrameSeqEntry.mk 9 7 (Some POP)) (frame_bytes 3 7 0) (frame_bytes 9 7 1)
           (allocation_bytes alloc_7_42) eq_refl eq_refl eq_refl Hpush Hpop eq_refl).
Defined.

(** Action 5 is no enumerator: the record is skipped. *)
Lemma frame_with_unknown_action_witness :
  FrameSeqEntry.action (FrameSeqEntry.mk 2 7 None) = None
  ∧ encodes (RFrame (FrameSeqEntry.mk 2 7 None)) (frame_bytes 2 7 5)
  ∧ d_input unknown_action_reader = frame_bytes 2 7 5 ++ allocation_bytes alloc_7_42
  ∧ record_step unknown_action_reader
    = (Ret None, with_input (allocation_bytes alloc_7_42) unknown_action_reader)
  ∧ nextAllocationRecord unknown_action_reader
    = nextAllocationRecord
        (with_input (allocation_bytes alloc_7_42) unknown_action_reader).
Proof.
  assert (encodes (RFrame (FrameSeqEntry.mk 2 7 None)) (frame_bytes 2 7 5)) as Henc
    by enc.
  split; [reflexivity|]. split; [done|]. split; [reflexivity|].
  exact (frame_with_unknown_action_is_skipped unknown_action_reader
           (FrameSeqEntry.mk 2 7 None) (frame_bytes 2 7 5) (allocation_bytes alloc_7_42)
           eq_refl Henc eq_refl).
Defined.

(** The walk of depth 3 on the cyclic tree. *)
Lemma python_walk_output_witness :
  3 < size_t_modulus
  ∧ Py_GetStackFrame cyclic_tree_reader 1 3
    = Ret [(foo, (-1)%Z); (foo, 0%Z); (foo, 0%Z)]
  ∧ lineno_chain (-1) [(foo, (-1)%Z); (foo, 0%Z); (foo, 0%Z)]
  ∧ (∀ frame lineno, (frame, lineno) ∈ [(foo, (-1)%Z); (foo, 0%Z); (foo, 0%Z)] →
       ∃ id, d_frame_map cyclic_tree_reader !! id = Some frame)
  ∧ (length [(foo, (-1)%Z); (foo, 0%Z); (foo, 0%Z)] ≤ N.to_nat 3)%nat.
Proof.
  assert (3 < size_t_modulus) as Hmax by (vm_compute; reflexivity).
  assert (Py_GetStackFrame cyclic_tree_reader 1 3
          = Ret [(foo, (-1)%Z); (foo, 0%Z); (foo, 0%Z)]) as Hwalk
    by (vm_compute; reflexivity).
  split; [done|]. split; [done|].
  exact (python_walk_output cyclic_tree_reader 1 3 _ Hmax Hwalk).
Defined.

(** On the chain of [chain_reader], depth 1 from entry 2 gives the two
    frames of that entry, and depth 3 gives them followed by more. *)
Lemma native_walk_depth_witness :
  1 ≤ 3
  ∧ 3 < size_t_modulus
  ∧ links_in_table (d_native_frames chain_reader)
  ∧ 2 ≤ N.of_nat (length (d_native_frames chain_reader))
  ∧ ∃ frames frames',
      Py_GetNativeStackFrame chain_reader 2 0 1 = Ret frames
      ∧ Py_GetNativeStackFrame chain_reader 2 0 3 = Ret frames'
      ∧ frames `prefix_of` frames'
      ∧ ((length (chain_links (N.to_nat 1) (d_native_frames chain_reader) 2)
          < N.to_nat 1)%nat → frames = frames').
Proof.
  assert (1 ≤ 3) as Hle by lia.
  assert (3 < size_t_modulus) as Hmax by (vm_compute; reflexivity).
  assert (links_in_table (d_native_frames chain_reader)) as Htable.
  { unfold links_in_table. simpl. repeat constructor; simpl; lia. }
  assert (2 ≤ N.of_nat (length (d_native_frames chain_reader))) as Hindex
    by (simpl; lia).
  split; [done|]. split; [done|]. split; [done|]. split; [done|].
  exact (native_walk_depth_only_truncates chain_reader 2 0 1 3 Hle Hmax Htable Hindex).
Defined.

(** The header of the example streams, read back. *)
Lemma header_round_trip_witness :
  is_wire version_wire CURRENT_HEADER_VERSION (int_encode 4 1)
  ∧ is_wire native_traces_wire true [x01]
  ∧ is_wire stats_wire (le_encode 16 0) (le_encode 16 0)
  ∧ is_cstring (list_byte_of_string "python3 a.py") (cstring "python3 a.py")
  ∧ ∃ r,
      RecordReader_new (MAGIC ++ int_encode 4 1 ++ [x01] ++ le_encode 16 0
                          ++ cstring "python3 a.py" ++ scenario_bytes) = (Ret tt, r)
      ∧ getHeader r
        = HeaderRecord.mk MAGIC CURRENT_HEADER_VERSION true (le_encode 16 0)
            (list_byte_of_string "python3 a.py")
      ∧ d_input r = scenario_bytes
      ∧ d_stack_traces r = ∅ ∧ d_frame_map r = ∅ ∧ d_allocation_frames r = []
      ∧ d_native_frames r = [].
Proof.
  assert (is_wire version_wire CURRENT_HEADER_VERSION (int_encode 4 1)) as Hversion
    by wire.
  assert (is_wire native_traces_wire true [x01]) as Hnative by wire.
  assert (is_wire stats_wire (le_encode 16 0) (le_encode 16 0)) as Hstats by wire.
  assert (is_cstring (list_byte_of_string "python3 a.py") (cstring "python3 a.py"))
    as Hcmd by cstring.
  split; [done|]. split; [done|]. split; [done|]. split; [done|].
  exact (header_round_trip true (le_encode 16 0) (list_byte_of_string "python3 a.py")
           (int_encode 4 1) [x01] (le_encode 16 0) (cstring "python3 a.py")
           scenario_bytes Hversion Hnative Hstats Hcmd).
Defined.

(** The example header cut after 20 of its 43 bytes, inside the
    statistics. *)
Lemma truncated_header_witness :
  is_wire version_wire CURRENT_HEADER_VERSION (int_encode 4 1)
  ∧ is_wire native_traces_wire true [x01]
  ∧ is_wire stats_wire (le_encode 16 0) (le_encode 16 0)
  ∧ is_cstring (list_byte_of_string "python3 a.py") (cstring "python3 a.py")
  ∧ (20 < length (MAGIC ++ int_encode 4 1 ++ [x01] ++ le_encode 16 0
                    ++ cstring "python3 a.py"))%nat
  ∧ fst (RecordReader_new
           (take 20 (MAGIC ++ int_encode 4 1 ++ [x01] ++ le_encode 16 0
                       ++ cstring "python3 a.py"))) = Throw IoError.
Proof.
  assert (is_wire version_wire CURRENT_HEADER_VERSION (int_encode 4 1)) as Hversion
    by wire.
  assert (is_wire native_traces_wire true [x01]) as Hnative by wire.
  assert (is_wire stats_wire (le_encode 16 0) (le_encode 16 0)) as Hstats by wire.
  assert (is_cstring (list_byte_of_string "python3 a.py") (cstring "python3 a.py"))
    as Hcmd by cstring.
  assert (20 < length (MAGIC ++ int_encode 4 1 ++ [x01] ++ le_encode 16 0
                         ++ cstring "python3 a.py"))%nat as Hn
    by (vm_compute; lia).
  split; [done|]. split; [done|]. split; [done|]. split; [done|]. split; [done|].
  exact (truncated_header_throws_IoError true (le_encode 16 0)
           (list_byte_of_string "python3 a.py") (int_encode 4 1) [x01] (le_encode 16 0)
           (cstring "python3 a.py") 20 Hversion Hnative Hstats Hcmd Hn).
Defined.

(** The allocation at line 42 inside "foo" is reported in "foo" at line 42. *)
Lemma allocation_line_witness :
  d_tree in_foo_reader ≠ []
  ∧ d_frame_map in_foo_reader !! mint (length (d_allocation_frames in_foo_reader)) = None
  ∧ 1 < size_t_modulus
  ∧ d_stack_traces in_foo_reader !! 7 = Some [2]
  ∧ d_frame_map in_foo_reader !! 2 = Some foo
  ∧ encodes (RAllocation alloc_7_42) (allocation_bytes alloc_7_42)
  ∧ ∃ allocation r',
      nextAllocationRecord in_foo_reader = (Ret (Some allocation), r')
      ∧ Allocation.record allocation = alloc_7_42
      ∧ Py_GetStackFrame r' (Allocation.frame_index allocation) 1
        = Ret [(Frame.mk (list_byte_of_string "foo") (list_byte_of_string "a.py") 0 42,
                (-1)%Z)]
      ∧ ∀ max_stacks frames,
          max_stacks ≠ 0 →
          Py_GetStackFrame r' (Allocation.frame_index allocation) max_stacks = Ret frames →
          head frames
          = Some (Frame.mk (list_byte_of_string "foo") (list_byte_of_string "a.py") 0 42,
                  (-1)%Z).
Proof.
  assert (d_tree in_foo_reader ≠ []) as Htree by done.
  assert (∀ frame id, (frame, id) ∈ d_allocation_frames in_foo_reader →
                      d_frame_map in_foo_reader !! id = Some frame) as Hfaithful.
  { intros frame id Hin. by apply not_elem_of_nil in Hin. }
  assert (1 < size_t_modulus) as Hmodulus by (vm_compute; reflexivity).
  assert (encodes (RAllocation alloc_7_42) (allocation_bytes alloc_7_42)) as Henc by enc.
  split; [done|]. split; [reflexivity|]. split; [done|]. split; [reflexivity|].
  split; [reflexivity|]. split; [done|].
  exact (allocation_line_reaches_innermost_frame in_foo_reader alloc_7_42
           (allocation_bytes alloc_7_42) (allocation_bytes alloc_7_43) [2] 2 foo
           Htree Hfaithful eq_refl Hmodulus eq_refl eq_refl eq_refl Henc eq_refl).
Defined.

(** The record becomes entry 4 of the chain table; instruction pointer 2
    resolves to two frames. *)
Lemma native_record_witness :
  1 < size_t_modulus
  ∧ encodes (RNativeTraceIndex (UnresolvedNativeFrame.mk 2 0)) (native_bytes 2 0)
  ∧ d_input native_record_reader = native_bytes 2 0 ++ allocation_bytes alloc_7_42
  ∧ record_step native_record_reader
    = (Ret None,
       with_native_frames (d_native_frames chain_reader ++ [UnresolvedNativeFrame.mk 2 0])
         (with_input (allocation_bytes alloc_7_42) native_record_reader))
  ∧ Py_GetNativeStackFrame
      (with_native_frames (d_native_frames chain_reader ++ [UnresolvedNativeFrame.mk 2 0])
         (with_input (allocation_bytes alloc_7_42) native_record_reader)) 4 0 1
    = Ret [20; 21].
Proof.
  assert (1 < size_t_modulus) as Hmodulus by (vm_compute; reflexivity).
  assert (encodes (RNativeTraceIndex (UnresolvedNativeFrame.mk 2 0)) (native_bytes 2 0))
    as Henc by (unfold native_bytes; apply encodes_native_trace_index; wire).
  split; [done|]. split; [done|]. split; [reflexivity|].
  exact (native_record_is_walkable native_record_reader (UnresolvedNativeFrame.mk 2 0)
           (native_bytes 2 0) (allocation_bytes alloc_7_42) 0 Hmodulus Henc eq_refl).
Defined.

(** Two allocations at line 42 inside "foo". *)
Lemma allocations_on_one_line_witness :
  d_tree same_line_reader ≠ []
  ∧ d_frame_map same_line_reader !! mint (length (d_allocation_frames same_line_reader))
    = None
  ∧ d_stack_traces same_line_reader !! 7 = Some [2]
  ∧ d_frame_map same_line_reader !! 2 = Some foo
  ∧ AllocationRecord.py_lineno alloc_7_42_again = AllocationRecord.py_lineno alloc_7_42
  ∧ encodes (RAllocation alloc_7_42) (allocation_bytes alloc_7_42)
  ∧ encodes (RAllocation alloc_7_42_again) (allocation_bytes alloc_7_42_again)
  ∧ ∃ allocation allocation' r1 r2,
      nextAllocationRecord same_line_reader = (Ret (Some allocation), r1)
      ∧ nextAllocationRecord r1 = (Ret (Some allocation'), r2)
      ∧ Allocation.record allocation = alloc_7_42
      ∧ Allocation.record allocation' = alloc_7_42_again
      ∧ Allocation.frame_index allocation' = Allocation.frame_index allocation
      ∧ d_stack_traces r2 = d_stack_traces r1
      ∧ d_frame_map r2 = d_frame_map r1
      ∧ d_allocation_frames r2 = d_allocation_frames r1
      ∧ d_tree r2 = d_tree r1.
Proof.
  assert (d_tree same_line_reader ≠ []) as Htree by done.
  assert (∀ frame id, (frame, id) ∈ d_allocation_frames same_line_reader →
                      d_frame_map same_line_reader !! id = Some frame) as Hfaithful.
  { intros frame id Hin. by apply not_elem_of_nil in Hin. }
  assert (encodes (RAllocation alloc_7_42) (allocation_bytes alloc_7_42)) as Henc by enc.
  assert (encodes (RAllocation alloc_7_42_again) (allocation_bytes alloc_7_42_again))
    as Henc' by enc.
  split; [done|]. split; [reflexivity|]. split; [reflexivity|]. split; [reflexivity|].
  split; [reflexivity|]. split; [done|]. split; [done|].
  assert (d_input same_line_reader
          = allocation_bytes alloc_7_42 ++ allocation_bytes alloc_7_42_again ++ [])
    as Hin by (by rewrite app_nil_r).
  exact (allocations_on_one_line_share_a_trace same_line_reader alloc_7_42
           alloc_7_42_again (allocation_bytes alloc_7_42)
           (allocation_bytes alloc_7_42_again) [] [2] 2 foo
           Htree Hfaithful eq_refl eq_refl eq_refl eq_refl eq_refl eq_refl Henc Henc' Hin).
Defined.

(** Inside "bar", called from line 17 of "foo", an allocation at line 42:
    the walk returns "bar" at line 42, then "foo" at line 17. *)
Lemma allocation_walk_witness :
  d_tree nested_reader ≠ []
  ∧ d_frame_map nested_reader !! mint (length (d_allocation_frames nested_reader)) = None
  ∧ d_stack_traces nested_reader !! 7 = Some [2; 4]
  ∧ d_frame_map nested_reader !! 4 = Some bar
  ∧ Forall2 (λ id frame, d_frame_map nested_reader !! id = Some frame) [2] [foo]
  ∧ encodes (RAllocation alloc_7_42) (allocation_bytes alloc_7_42)
  ∧ 5 < size_t_modulus
  ∧ ∃ allocation r',
      nextAllocationRecord nested_reader = (Ret (Some allocation), r')
      ∧ Allocation.record allocation = alloc_7_42
      ∧ Py_GetStackFrame r' (Allocation.frame_index allocation) 5
        = Ret [(Frame.mk (list_byte_of_string "bar") (list_byte_of_string "a.py") 17 42,
                (-1)%Z);
               (foo, 17%Z)].
Proof.
  assert (d_tree nested_reader ≠ []) as Htree by done.
  assert (∀ frame id, (frame, id) ∈ d_allocation_frames nested_reader →
                      d_frame_map nested_reader !! id = Some frame) as Hfaithful.
  { intros frame id Hin. by apply not_elem_of_nil in Hin. }
  assert (Forall2 (λ id frame, d_frame_map nested_reader !! id = Some frame) [2] [foo])
    as Hbelow by (repeat constructor).
  assert (encodes (RAllocation alloc_7_42) (allocation_bytes alloc_7_42)) as Henc by enc.
  assert (5 < size_t_modulus) as Hmax by (vm_compute; reflexivity).
  split; [done|]. split; [reflexivity|]. split; [reflexivity|]. split; [reflexivity|].
  split; [done|]. split; [done|]. split; [done|].
  assert (d_input nested_reader = allocation_bytes alloc_7_42 ++ []) as Hin
    by (by rewrite app_nil_r).
  exact (allocation_walk_returns_the_stack nested_reader alloc_7_42
           (allocation_bytes alloc_7_42) [] [2; 4] 4 bar [foo] 5
           Htree Hfaithful eq_refl eq_refl eq_refl eq_refl Hbelow Henc Hin Hmax).
Defined.

(** Over the scenario, whose only FRAME_INDEX record defines the even
    identifier 2, the reader is consistent after each of the three turns. *)
Lemma precise_frames_consistent_witness :
  (∀ k k', mint k = mint k' → k = k')
  ∧ (∀ id function_name filename parent_lineno,
       RFrameIndex id function_name filename parent_lineno ∈ scenario_records →
       ∀ k, mint k ≠ id)
  ∧ encodes_trace scenario_records scenario_bytes
  ∧ d_input scenario_reader = scenario_bytes ++ []
  ∧ (∀ source, precise_frames_consistent (snd (RecordReader_new source)))
  ∧ (precise_frames_consistent scenario_reader →
     ∀ k, (k ≤ length scenario_records)%nat →
          precise_frames_consistent (after_turns k scenario_reader)).
Proof.
  assert (∀ k k', mint k = mint k' → k = k') as Hinj.
  { intros k k'. unfold mint. simpl. lia. }
  assert (∀ id function_name filename parent_lineno,
            RFrameIndex id function_name filename parent_lineno ∈ scenario_records →
            ∀ k, mint k ≠ id) as Hids.
  { intros id fn file pl Hin k. unfold scenario_records in Hin.
    apply elem_of_cons in Hin as [Hin|Hin].
    - injection Hin as -> _ _ _. unfold mint. simpl. lia.
    - apply elem_of_cons in Hin as [Hin|Hin]; [done|].
      by apply list_elem_of_singleton in Hin. }
  assert (encodes_trace scenario_records scenario_bytes) as Henc.
  { unfold scenario_bytes.
    rewrite <- (app_nil_r (allocation_bytes alloc_7_42)).
    repeat (apply encodes_trace_cons; [enc|]). constructor. }
  assert (d_input scenario_reader = scenario_bytes ++ []) as Hin
    by (by rewrite app_nil_r).
  split; [done|]. split; [done|]. split; [done|]. split; [done|].
  exact (precise_frames_stay_consistent scenario_reader scenario_records scenario_bytes []
           Hinj Hids Henc Hin).
Defined.
End Examples.
